(** * semantic-index: resolver, impact engine, graph store, doctor and guardrail

    A shallow embedding of the graph-construction and query pipeline of
    [semantic_index] and the properties its specification states about it.

    Conventions of the embedding:
    - Python [dict]s keyed by strings or tuples are stdpp [gmap]s; a
      [defaultdict(list)] is a [gmap] read with [!!!] (missing key = []).
    - Python [set]s of symbol ids are [gset string].
    - Python lists are lists; [sorted(..., key=...)] is a stable sort.
    - Python floats are rationals [Q]: a rational stands for the binary64
      value nearest to it, and [round(x, 4)] is rounding to the nearest
      multiple of 1/10000, ties to even.  Where a quotient or a mean is
      rounded, the stored binary value is made explicit ([to_double]); the
      composite score is a multiple of 0.01 before rounding, which float
      arithmetic keeps far from every rounding tie.
    - JSON items (symbols, files, edges) are records with the fields the
      extractor and the resolvers write. *)

From Stdlib Require Import QArith Qabs OrderedTypeEx.
From stdpp Require Import gmap strings list fin_maps sorting pretty.

Set Warnings "-clear-no-such-hyp".

Close Scope Q_scope.
Open Scope string_scope.
Open Scope list_scope.
Open Scope Z_scope.

(** ** Orders used as sort keys *)

(** Python compares strings by code point, ints numerically and tuples
    lexicographically.  [PyOrd] packages such a total order as a boolean
    [<=]. *)
Class PyOrd (K : Type) := {
  py_le : K -> K -> bool;
  py_le_total : forall a b, py_le a b = true \/ py_le b a = true;
  py_le_trans : forall a b c, py_le a b = true -> py_le b c = true -> py_le a c = true;
  py_le_antisym : forall a b, py_le a b = true -> py_le b a = true -> a = b
}.

Lemma py_le_refl {K} `{PyOrd K} (a : K) : py_le a a = true.
Proof. destruct (py_le_total a a); assumption. Qed.

Lemma string_leb_trans (a b c : string) :
  String.leb a b = true -> String.leb b c = true -> String.leb a c = true.
Proof.
  unfold String.leb. intros Hab Hbc.
  destruct (String.compare a b) eqn:Eab; try discriminate;
    destruct (String.compare b c) eqn:Ebc; try discriminate.
  - apply String.compare_eq_iff in Eab, Ebc. subst.
    change (String.compare c c) with (String_as_OT.cmp c c).
    now rewrite (proj2 (String_as_OT.cmp_eq c c) eq_refl).
  - apply String.compare_eq_iff in Eab. subst. now rewrite Ebc.
  - apply String.compare_eq_iff in Ebc. subst. now rewrite Eab.
  - assert (Hlt : String.compare a c = Lt).
    { apply String_as_OT.cmp_lt.
      eapply String_as_OT.lt_trans; apply String_as_OT.cmp_lt; eassumption. }
    now rewrite Hlt.
Qed.

#[export] Program Instance string_PyOrd : PyOrd string := {| py_le := String.leb |}.
Next Obligation. apply String.leb_total. Qed.
Next Obligation. eauto using string_leb_trans. Qed.
Next Obligation. auto using String.leb_antisym. Qed.

#[export] Program Instance Z_PyOrd : PyOrd Z := {| py_le := Z.leb |}.
Next Obligation. intros a b. rewrite !Z.leb_le. lia. Qed.
Next Obligation. intros a b c. rewrite !Z.leb_le. lia. Qed.
Next Obligation. intros a b. rewrite !Z.leb_le. lia. Qed.

(** Tuples: the first components decide unless they are equal. *)
Definition pair_le {A B} `{PyOrd A} `{PyOrd B} (x y : A * B) : bool :=
  py_le (fst x) (fst y) && (negb (py_le (fst y) (fst x)) || py_le (snd x) (snd y)).

Lemma neg_le_le {K} `{PyOrd K} (a b : K) : py_le a b = false -> py_le b a = true.
Proof. intros Hf. destruct (py_le_total a b) as [Ht|Ht]; congruence. Qed.

#[export] Program Instance pair_PyOrd {A B} `{PyOrd A} `{PyOrd B} : PyOrd (A * B) :=
  {| py_le := pair_le |}.
Next Obligation.
  intros A B HA HB [a1 b1] [a2 b2]. unfold pair_le. simpl.
  destruct (py_le a1 a2) eqn:E1, (py_le a2 a1) eqn:E2; simpl; auto.
  - apply py_le_total.
  - apply neg_le_le in E1. congruence.
Qed.
Next Obligation.
  intros A B HA HB [a1 b1] [a2 b2] [a3 b3]. unfold pair_le. simpl.
  rewrite !andb_true_iff, !orb_true_iff, !negb_true_iff.
  intros [H12 H12'] [H23 H23']. split; [eauto using py_le_trans|].
  destruct (py_le a3 a1) eqn:E31; [right|now left].
  assert (a1 = a2) as ->.
  { apply py_le_antisym; [assumption|]. eauto using py_le_trans. }
  assert (a2 = a3) as -> by (apply py_le_antisym; assumption).
  rewrite py_le_refl in H12', H23'.
  destruct H12' as [?|H12']; [discriminate|].
  destruct H23' as [?|H23']; [discriminate|].
  eauto using py_le_trans.
Qed.
Next Obligation.
  intros A B HA HB [a1 b1] [a2 b2]. unfold pair_le. simpl.
  rewrite !andb_true_iff, !orb_true_iff, !negb_true_iff.
  intros [H12 H12'] [H21 H21'].
  assert (a1 = a2) as -> by (apply py_le_antisym; assumption).
  rewrite py_le_refl in H12', H21'.
  destruct H12' as [?|H12']; [discriminate|].
  destruct H21' as [?|H21']; [discriminate|].
  f_equal. apply py_le_antisym; assumption.
Qed.

(** ** [sorted(values, key=...)]: a stable sort *)

Section Sorted.
Context {A K : Type} `{PyOrd K}.
Variable key : A -> K.

(** [x] goes in front of the first element whose key is not smaller, so
    elements with equal keys keep their input order. *)
Fixpoint insert_by (x : A) (l : list A) : list A :=
  match l with
  | [] => [x]
  | y :: l' => if py_le (key x) (key y) then x :: y :: l' else y :: insert_by x l'
  end.

Fixpoint sorted_by (l : list A) : list A :=
  match l with
  | [] => []
  | x :: l' => insert_by x (sorted_by l')
  end.

Definition key_le (x y : A) : Prop := py_le (key x) (key y) = true.
End Sorted.

Arguments sorted_by {A K _} key l.
Arguments insert_by {A K _} key x l.

Arguments key_le {A K _} key x y.

(** ** Floats *)

(** Nearest integer, ties to even: Python's rounding rule. *)
Definition round_half_even (q : Q) : Z :=
  let n := Qnum q in
  let d := Zpos (Qden q) in
  let f := n / d in
  let r := n mod d in
  if 2 * r <? d then f
  else if d <? 2 * r then f + 1
  else if Z.even f then f else f + 1.

(** [round(x, 4)] *)
Definition round4 (q : Q) : Q :=
  Qmake (round_half_even (q * inject_Z 10000)%Q) 10000.

(** A float is modelled by a rational that stands for the binary64 value
    nearest to it, the way a decimal literal does.  [to_double q] is that
    value: [q] rounded to 53 significant bits, ties to even (to a multiple
    of 2^-1074 below 2^-1022).  No quantity of the program comes near the
    largest finite float, so overflow is left out. *)
Definition pow2 (e : Z) : Q :=
  if 0 <=? e then inject_Z (2 ^ e) else 1 # Z.to_pos (2 ^ (- e)).

Definition to_double (q : Q) : Q :=
  if Qeq_bool q 0 then 0%Q
  else
    let a := Qabs q in
    let e0 := Z.log2 (Qnum a) - Z.log2 (Zpos (Qden a)) in
    let e := if Qle_bool (pow2 e0) a then e0 else e0 - 1 in
    let ulp := pow2 (Z.max e (-1022) - 52) in
    let m := inject_Z (round_half_even (a / ulp)) in
    if Qle_bool 0 q then (m * ulp)%Q else (- (m * ulp))%Q.

Arguments to_double : simpl never.

(** [a / b] on two integers: the quotient, rounded once. *)
Definition int_div (a b : Z) : Q := to_double (inject_Z a / inject_Z b).

(** [a / b] on floats. *)
Definition float_div (a b : Q) : Q := to_double (to_double a / to_double b).

(** [max(a, b)] on floats: the first argument unless the second is larger. *)
Definition py_max (a b : Q) : Q := if Qle_bool b a then a else b.

(** [min(values)] of a non-empty list of floats. *)
Definition py_min_list (x : Q) (l : list Q) : Q :=
  fold_left (fun m y => if Qle_bool m y then m else y) l x.

Definition Qsum (l : list Q) : Q := fold_left Qplus l (0 # 1)%Q.

(** [statistics.mean] of floats: the exact mean of the stored values,
    rounded once. *)
Definition py_mean (l : list Q) : Q :=
  to_double (Qsum (map to_double l) / inject_Z (Z.of_nat (length l))).

Definition Qltb (a b : Q) : bool := negb (Qle_bool b a).

(** Rounding sees the stored binary value: 1/160 and 1.85/8 lie above the
    decimal tie, the mean of 0.1667 and 0.0 below it, and 1/32 is the tie
    itself. *)
Example float_rounding :
  round4 (int_div 1 160) = (63 # 10000)%Q
  /\ round4 (py_mean [(1667 # 10000)%Q; 0%Q]) = (833 # 10000)%Q
  /\ round4 (float_div (185 # 100) 8) = (2313 # 10000)%Q
  /\ round4 (float_div 1 32) = (312 # 10000)%Q.
Proof. repeat split; vm_compute; reflexivity. Qed.

(** Truthiness of a string and of an optional string ([None] and [""] are
    falsy). *)
Definition truthy (s : string) : bool := negb (String.eqb s "").

Definition truthy_opt (o : option string) : bool :=
  match o with Some s => truthy s | None => false end.

(** [value or ""] *)
Definition or_empty (o : option string) : string :=
  match o with Some s => if truthy s then s else "" | None => "" end.

(** ** schemas.py *)

Module Schemas.

Definition SCHEMA_VERSION : string := "1.0.0".
Definition PARSER_VERSION : string := "swiftc-dump-parse-v1".
Definition CACHE_VERSION : string := "1.0.0".

Definition DEFAULT_IMPACT_DEPTH : Z := 2.
Definition LAW_HARD_BLOCK_CALLER_THRESHOLD : Z := 100.
Definition AMBIGUITY_CONFIDENCE_THRESHOLD : Q := (75 # 100)%Q.

Definition CULTURE_VIEW : string := "View".
Definition CULTURE_LAW : string := "Law".
Definition CULTURE_AUDITOR : string := "Auditor".
Definition CULTURE_CITIZEN : string := "Citizen".

Definition SYMBOL_KIND_TYPE : string := "type".
Definition SYMBOL_KIND_FUNCTION : string := "function".
Definition SYMBOL_KIND_VARIABLE : string := "variable".

Definition EDGE_RESOLUTION_RESOLVED : string := "resolved".
Definition EDGE_RESOLUTION_AMBIGUOUS : string := "ambiguous".
Definition EDGE_RESOLUTION_EXTERNAL : string := "external".

Definition VISIBILITY_PUBLIC : string := "public".
Definition VISIBILITY_OPEN : string := "open".
Definition PUBLIC_VISIBILITIES : list string := [VISIBILITY_PUBLIC; VISIBILITY_OPEN].

Definition is_public_visibility (value : string) : bool :=
  existsb (String.eqb value) PUBLIC_VISIBILITIES.

Definition graph_top_level_keys : list string :=
  ["meta"; "files"; "symbols"; "edges_calls"; "edges_mutations";
   "edges_depends_on"; "impact"; "indexes"].

End Schemas.
Import Schemas.

(** ** Data model (spec section 3) *)

Record Symbol := mkSymbol {
  sym_id : string;
  sym_name : string;
  sym_signature : string;
  sym_kind : string;
  sym_arity : Z;            (* [symbol.get("arity", 0)]: 0 unless a function *)
  sym_container : string;
  sym_visibility : string;
  sym_file : string;
  sym_line : Z
}.

Record FileRecord := mkFileRecord {
  file_id : string;
  file_path : string;
  file_hash : string;
  file_culture : string;
  file_types : Z;
  file_functions : Z;
  file_variables : Z;
  file_mutation_count : Z
}.

Record CallEvent := mkCallEvent {
  call_source_symbol_id : string;
  call_callee_name : string;
  call_qualifier : option string;
  call_arity : Z;
  call_line : Z
}.

Record CallEdge := mkCallEdge {
  ce_source : string;
  ce_target : option string;
  ce_target_name : string;
  ce_target_candidates : list string;
  ce_resolution : string;
  ce_confidence : Q;
  ce_qualifier : option string;
  ce_arity : Z;
  ce_line : Z
}.

Record MutationEvent := mkMutationEvent {
  mut_source_symbol_id : string;
  mut_target_name : string;
  mut_target_kind : string;
  mut_line : Z;
  mut_confidence : option Q    (* read with [.get("confidence", 0.8)] *)
}.

Record MutationEdge := mkMutationEdge {
  me_source : string;
  me_target_symbol : option string;
  me_target_name : string;
  me_target_candidates : list string;
  me_target_kind : string;
  me_resolution : string;
  me_confidence : Q;
  me_line : Z
}.

Record DepEdge := mkDepEdge {
  dep_source_file : string;
  dep_target_file : string;
  dep_reason : string
}.

Record SymbolImpact := mkSymbolImpact {
  si_direct_callers : Z;
  si_depth2_callers : Z;
  si_fan_out : Z;
  si_mutation_count : Z;
  si_mutation_density : Q;
  si_public_api : bool;
  si_culture_multiplier : Q;
  si_score : Q;
  si_unresolved_count : Z;
  si_unresolved_mean_confidence : Q;
  si_unresolved_min_confidence : Q
}.

Record FileImpact := mkFileImpact {
  fi_symbol_count : Z;
  fi_aggregate_score : Q;
  fi_max_symbol_score : Q;
  fi_total_direct_callers : Z;
  fi_total_depth2_callers : Z;
  fi_total_unresolved : Z
}.

(** A JSON object used as a mapping: keys in insertion order, each once. *)
Definition pydict (V : Type) : Type := list (string * V).

Definition dict_get {V} (d : pydict V) (k : string) : option V :=
  snd <$> List.find (fun p => String.eqb (fst p) k) d.

Record Impact := mkImpact {
  imp_symbols : pydict SymbolImpact;
  imp_files : pydict FileImpact
}.

(** [meta]: the fields a later build reads back with [.get] are optional. *)
Record Meta := mkMeta {
  meta_schema_version : option string;
  meta_parser_version : string;
  meta_generated_at : option string;
  meta_repo_root : string;
  meta_repo_digest : string;
  meta_content_digest : option string;
  meta_build_duration_ms : option Z;
  meta_files_total : Z;
  meta_files_reparsed : option Z;
  meta_files_reused : option Z
}.

(** The persisted document.  A top-level key may be absent from a document
    read back from disk; the code reads each section with [.get(key, [])]. *)
Record Graph := mkGraph {
  g_meta : option Meta;
  g_files : option (list FileRecord);
  g_symbols : option (list Symbol);
  g_edges_calls : option (list CallEdge);
  g_edges_mutations : option (list MutationEdge);
  g_edges_depends_on : option (list DepEdge);
  g_impact : option Impact;
  g_indexes : option (pydict (pydict (list string)))
}.

Definition graph_files (g : Graph) : list FileRecord := default [] (g_files g).
Definition graph_symbols (g : Graph) : list Symbol := default [] (g_symbols g).
Definition graph_edges_calls (g : Graph) : list CallEdge := default [] (g_edges_calls g).
Definition graph_edges_mutations (g : Graph) : list MutationEdge :=
  default [] (g_edges_mutations g).
Definition graph_edges_depends_on (g : Graph) : list DepEdge :=
  default [] (g_edges_depends_on g).
Definition graph_indexes (g : Graph) : pydict (pydict (list string)) :=
  default [] (g_indexes g).
Definition graph_impact_symbols (g : Graph) : pydict SymbolImpact :=
  match g_impact g with Some i => imp_symbols i | None => [] end.
Definition graph_impact_files (g : Graph) : pydict FileImpact :=
  match g_impact g with Some i => imp_files i | None => [] end.

#[export] Instance Q_eq_dec : EqDecision Q.
Proof. solve_decision. Defined.
#[export] Instance Symbol_eq_dec : EqDecision Symbol.
Proof. solve_decision. Defined.
#[export] Instance FileRecord_eq_dec : EqDecision FileRecord.
Proof. solve_decision. Defined.
#[export] Instance CallEdge_eq_dec : EqDecision CallEdge.
Proof. solve_decision. Defined.
#[export] Instance MutationEdge_eq_dec : EqDecision MutationEdge.
Proof. solve_decision. Defined.
#[export] Instance DepEdge_eq_dec : EqDecision DepEdge.
Proof. solve_decision. Defined.

(** ** Dictionary helpers *)

(** [d.get(key, [])] *)
Definition dd_get `{Countable K} {V} (m : gmap K (list V)) (k : K) : list V :=
  default [] (m !! k).

(** [d[key].append(v)] on a [defaultdict(list)] *)
Definition dd_append `{Countable K} {V} (k : K) (v : V) (m : gmap K (list V))
  : gmap K (list V) :=
  <[k := dd_get m k ++ [v]]> m.

(** [d.get(key, set())] *)
Definition adj_get (m : gmap string (gset string)) (k : string) : gset string :=
  default ∅ (m !! k).

(** [d[key].add(v)] on a [defaultdict(set)] *)
Definition adj_add (k v : string) (m : gmap string (gset string))
  : gmap string (gset string) :=
  <[k := {[v]} ∪ adj_get m k]> m.

(** [{key(item): item for item in items}]: a later item replaces an earlier
    one with the same key. *)
Definition dict_by {V} (key : V -> string) (items : list V) : gmap string V :=
  fold_left (fun m item => <[key item := item]> m) items ∅.

Definition nonempty {V} (l : list V) : bool :=
  match l with [] => false | _ :: _ => true end.

(** ** resolve_calls.py *)

Module ResolveCalls.

Record FunctionIndex := mkFunctionIndex {
  by_name_arity : gmap (string * Z) (list Symbol);
  by_container_name_arity : gmap (string * string * Z) (list Symbol);
  by_name : gmap string (list Symbol);
  by_container_name : gmap (string * string) (list Symbol)
}.

Definition empty_index : FunctionIndex := mkFunctionIndex ∅ ∅ ∅ ∅.

Definition is_function (symbol : Symbol) : bool :=
  String.eqb (sym_kind symbol) SYMBOL_KIND_FUNCTION.

(** One iteration of the loop of [_index_functions]. *)
Definition index_symbol (index : FunctionIndex) (symbol : Symbol) : FunctionIndex :=
  if negb (is_function symbol) then index
  else
    let name := sym_name symbol in
    let arity := sym_arity symbol in
    let container := sym_container symbol in
    {| by_name_arity := dd_append (name, arity) symbol (by_name_arity index);
       by_container_name_arity :=
         dd_append (container, name, arity) symbol (by_container_name_arity index);
       by_name := dd_append name symbol (by_name index);
       by_container_name :=
         dd_append (container, name) symbol (by_container_name index) |}.

Definition _index_functions (symbols : list Symbol) : FunctionIndex :=
  fold_left index_symbol symbols empty_index.

Definition pick_unqualified (call : CallEvent) (index : FunctionIndex) : list Symbol :=
  let callee_name := call_callee_name call in
  let arity := call_arity call in
  let candidates := dd_get (by_name_arity index) (callee_name, arity) in
  if nonempty candidates then candidates
  else dd_get (by_name index) callee_name.

Definition _pick_candidates (call : CallEvent) (index : FunctionIndex) : list Symbol :=
  let callee_name := call_callee_name call in
  let arity := call_arity call in
  match call_qualifier call with
  | Some qualifier =>
      if truthy qualifier then
        let candidates :=
          dd_get (by_container_name_arity index) (qualifier, callee_name, arity) in
        if nonempty candidates then candidates
        else
          let candidates :=
            dd_get (by_container_name index) (qualifier, callee_name) in
          if nonempty candidates then candidates
          else pick_unqualified call index
      else pick_unqualified call index
  | None => pick_unqualified call index
  end.

(** [max(0.1, round(1.0 / n, 4))] *)
Definition ambiguity_confidence (n : nat) : Q :=
  py_max (1 # 10)%Q (round4 (1 / inject_Z (Z.of_nat n))%Q).

(** The body of the loop of [resolve_calls]: the edge appended for one call. *)
Definition resolve_call (index : FunctionIndex) (call : CallEvent) : CallEdge :=
  let source_symbol_id := call_source_symbol_id call in
  let candidates := _pick_candidates call index in
  let callee_name := call_callee_name call in
  let qualifier := call_qualifier call in
  match candidates with
  | [target] =>
      {| ce_source := source_symbol_id;
         ce_target := Some (sym_id target);
         ce_target_name := callee_name;
         ce_target_candidates := [sym_id target];
         ce_resolution := EDGE_RESOLUTION_RESOLVED;
         ce_confidence := 1%Q;
         ce_qualifier := qualifier;
         ce_arity := call_arity call;
         ce_line := call_line call |}
  | _ :: _ :: _ =>
      let candidate_ids := sorted_by id (map sym_id candidates) in
      {| ce_source := source_symbol_id;
         ce_target := None;
         ce_target_name := callee_name;
         ce_target_candidates := candidate_ids;
         ce_resolution := EDGE_RESOLUTION_AMBIGUOUS;
         ce_confidence := ambiguity_confidence (length candidate_ids);
         ce_qualifier := qualifier;
         ce_arity := call_arity call;
         ce_line := call_line call |}
  | [] =>
      {| ce_source := source_symbol_id;
         ce_target := None;
         ce_target_name := callee_name;
         ce_target_candidates := [];
         ce_resolution := EDGE_RESOLUTION_EXTERNAL;
         ce_confidence := 0%Q;
         ce_qualifier := qualifier;
         ce_arity := call_arity call;
         ce_line := call_line call |}
  end.

Definition call_edge_sort_key (item : CallEdge)
  : string * string * string * string * Z :=
  (ce_source item, ce_resolution item, or_empty (ce_target item),
   ce_target_name item, ce_line item).

Definition resolve_calls (symbols : list Symbol) (calls : list CallEvent)
  : list CallEdge :=
  let index := _index_functions symbols in
  sorted_by call_edge_sort_key (map (resolve_call index) calls).

End ResolveCalls.
Import ResolveCalls.

(** ** classify_culture.py *)

Definition culture_multiplier (culture : string) : Q :=
  if String.eqb culture CULTURE_LAW then (14 # 10)%Q
  else if String.eqb culture CULTURE_VIEW then (8 # 10)%Q
  else if String.eqb culture CULTURE_AUDITOR then (2 # 10)%Q
  else 1%Q.

(** ** indexer.py: mutation resolution *)

Module MutationResolver.

Definition is_variable (symbol : Symbol) : bool :=
  String.eqb (sym_kind symbol) SYMBOL_KIND_VARIABLE.

Record VariableIndex := mkVariableIndex {
  variable_index_file_name : gmap (string * string) (list Symbol);
  variable_index_file_container_name :
    gmap (string * string * string) (list Symbol)
}.

Definition index_variable (index : VariableIndex) (symbol : Symbol) : VariableIndex :=
  if negb (is_variable symbol) then index
  else
    let file_path := sym_file symbol in
    let name := sym_name symbol in
    let container := sym_container symbol in
    {| variable_index_file_name :=
         dd_append (file_path, name) symbol (variable_index_file_name index);
       variable_index_file_container_name :=
         dd_append (file_path, container, name) symbol
           (variable_index_file_container_name index) |}.

Definition index_variables (symbols : list Symbol) : VariableIndex :=
  fold_left index_variable symbols (mkVariableIndex ∅ ∅).

(** The body of the loop over mutation events: [None] is the [continue]
    taken when the event's source is not a known symbol. *)
Definition resolve_mutation (symbols_by_id : gmap string Symbol)
    (index : VariableIndex) (event : MutationEvent) : option MutationEdge :=
  let source := mut_source_symbol_id event in
  match symbols_by_id !! source with
  | None => None
  | Some source_symbol =>
      let source_file := sym_file source_symbol in
      let source_container := sym_container source_symbol in
      let target_name := mut_target_name event in
      let candidates :=
        dd_get (variable_index_file_container_name index)
          (source_file, source_container, target_name) in
      let candidates :=
        if nonempty candidates then candidates
        else dd_get (variable_index_file_name index) (source_file, target_name) in
      match candidates with
      | [target_symbol] =>
          Some {| me_source := source;
                  me_target_symbol := Some (sym_id target_symbol);
                  me_target_name := target_name;
                  me_target_candidates := [sym_id target_symbol];
                  me_target_kind := mut_target_kind event;
                  me_resolution := EDGE_RESOLUTION_RESOLVED;
                  me_confidence := 1%Q;
                  me_line := mut_line event |}
      | _ :: _ :: _ =>
          let ids := sorted_by id (map sym_id candidates) in
          Some {| me_source := source;
                  me_target_symbol := None;
                  me_target_name := target_name;
                  me_target_candidates := ids;
                  me_target_kind := mut_target_kind event;
                  me_resolution := EDGE_RESOLUTION_AMBIGUOUS;
                  me_confidence := ambiguity_confidence (length ids);
                  me_line := mut_line event |}
      | [] =>
          Some {| me_source := source;
                  me_target_symbol := None;
                  me_target_name := target_name;
                  me_target_candidates := [];
                  me_target_kind := mut_target_kind event;
                  me_resolution := EDGE_RESOLUTION_EXTERNAL;
                  me_confidence := default (8 # 10)%Q (mut_confidence event);
                  me_line := mut_line event |}
      end
  end.

Definition mutation_edge_sort_key (item : MutationEdge)
  : string * string * string * string * Z :=
  (me_source item, me_resolution item, or_empty (me_target_symbol item),
   me_target_name item, me_line item).

Definition _resolve_mutation_edges (symbols : list Symbol)
    (mutations : list MutationEvent) : list MutationEdge :=
  let symbols_by_id := dict_by sym_id symbols in
  let index := index_variables symbols in
  sorted_by mutation_edge_sort_key
    (omap (resolve_mutation symbols_by_id index) mutations).

End MutationResolver.
Import MutationResolver.

(** ** impact.py *)

Module ImpactEngine.

(** One iteration of [for caller in reverse_edges.get(node, set())]. *)
Definition visit_caller (depth : Z) (st : gset string * list (string * Z))
    (caller : string) : gset string * list (string * Z) :=
  let '(seen, queue) := st in
  if decide (caller ∈ seen) then (seen, queue)
  else ({[caller]} ∪ seen, queue ++ [(caller, depth + 1)]).

(** The [while queue] loop; [fuel] bounds the number of [popleft]s and
    [None] means the bound was too small. *)
Fixpoint bfs_loop (fuel : nat) (reverse_edges : gmap string (gset string))
    (queue : list (string * Z)) (seen : gset string) : option (gset string) :=
  match fuel with
  | O => None
  | S fuel' =>
      match queue with
      | [] => Some seen
      | (node, depth) :: rest =>
          if 2 <=? depth then bfs_loop fuel' reverse_edges rest seen
          else
            let '(seen', queue') :=
              fold_left (visit_caller depth)
                (elements (adj_get reverse_edges node)) (seen, rest) in
            bfs_loop fuel' reverse_edges queue' seen'
      end
  end.

(** Every id that occurs as a caller. *)
Definition all_callers (reverse_edges : gmap string (gset string)) : gset string :=
  ⋃ (snd <$> map_to_list reverse_edges).

(** Each id enters the queue at most once, so this many [popleft]s suffice
    (lemma [bfs_loop_terminates]). *)
Definition bfs_fuel (reverse_edges : gmap string (gset string)) : nat :=
  (2 + size (all_callers reverse_edges))%nat.

Definition _reverse_reachable_depth_two (target : string)
    (reverse_edges : gmap string (gset string)) : option (gset string) :=
  bfs_loop (bfs_fuel reverse_edges) reverse_edges [(target, 0)] ∅.

Record EdgeScan := mkEdgeScan {
  callers : gmap string (gset string);
  callees : gmap string (gset string);
  unresolved_outbound : gmap string (list Q);
  unresolved_inbound : gmap string (list Q)
}.

Definition is_unresolved (resolution : string) : bool :=
  String.eqb resolution EDGE_RESOLUTION_AMBIGUOUS
  || String.eqb resolution EDGE_RESOLUTION_EXTERNAL.

(** One iteration of [for edge in edges_calls]. *)
Definition scan_call_edge (acc : EdgeScan) (edge : CallEdge) : EdgeScan :=
  let source := ce_source edge in
  let resolution := ce_resolution edge in
  let target := or_empty (ce_target edge) in
  if String.eqb resolution "resolved" && truthy source && truthy_opt (ce_target edge)
  then
    {| callers := adj_add target source (callers acc);
       callees := adj_add source target (callees acc);
       unresolved_outbound := unresolved_outbound acc;
       unresolved_inbound := unresolved_inbound acc |}
  else if is_unresolved resolution && truthy source then
    {| callers := callers acc;
       callees := callees acc;
       unresolved_outbound :=
         dd_append source (ce_confidence edge) (unresolved_outbound acc);
       unresolved_inbound :=
         fold_left (fun m candidate => dd_append candidate (ce_confidence edge) m)
           (ce_target_candidates edge) (unresolved_inbound acc) |}
  else acc.

Definition scan_call_edges (edges_calls : list CallEdge) : EdgeScan :=
  fold_left scan_call_edge edges_calls (mkEdgeScan ∅ ∅ ∅ ∅).

(** One iteration of [for edge in edges_mutations]. *)
Definition count_mutation (m : gmap string Z) (edge : MutationEdge) : gmap string Z :=
  let source := me_source edge in
  if truthy source then <[source := default 0 (m !! source) + 1]> m else m.

Definition count_mutations (edges_mutations : list MutationEdge) : gmap string Z :=
  fold_left count_mutation edges_mutations ∅.

Definition base_score (direct_callers depth2_callers fan_out mutation_count : Z)
    (public_api : bool) : Q :=
  (inject_Z direct_callers * 1
   + inject_Z depth2_callers * (5 # 10)
   + inject_Z fan_out * (7 # 10)
   + inject_Z mutation_count * (35 # 100)
   + (if public_api then 2 else 0))%Q.

(** The body of [for symbol in symbols]: the metrics stored under the
    symbol's id. *)
Definition symbol_metric (scan : EdgeScan) (mutation_count_by_symbol : gmap string Z)
    (culture_by_file : gmap string string) (symbol : Symbol) : option SymbolImpact :=
  let sid := sym_id symbol in
  let file_path := sym_file symbol in
  let culture := default "Citizen" (culture_by_file !! file_path) in
  let direct_callers := Z.of_nat (size (adj_get (callers scan) sid)) in
  reached ← _reverse_reachable_depth_two sid (callers scan);
  let depth2_callers := Z.of_nat (size reached) in
  let fan_out := Z.of_nat (size (adj_get (callees scan) sid)) in
  let mutation_count := default 0 (mutation_count_by_symbol !! sid) in
  let mutation_density := round4 (int_div mutation_count (Z.max 1 (fan_out + 1))) in
  let public_api := is_public_visibility (sym_visibility symbol) in
  let unresolved_scores :=
    dd_get (unresolved_outbound scan) sid ++ dd_get (unresolved_inbound scan) sid in
  let unresolved_count := Z.of_nat (length unresolved_scores) in
  let unresolved_mean_confidence :=
    if nonempty unresolved_scores then round4 (py_mean unresolved_scores) else 1%Q in
  let unresolved_min_confidence :=
    match unresolved_scores with
    | x :: rest => round4 (to_double (py_min_list x rest))
    | [] => 1%Q
    end in
  let score :=
    round4 (base_score direct_callers depth2_callers fan_out mutation_count public_api
            * culture_multiplier culture)%Q in
  Some {| si_direct_callers := direct_callers;
          si_depth2_callers := depth2_callers;
          si_fan_out := fan_out;
          si_mutation_count := mutation_count;
          si_mutation_density := mutation_density;
          si_public_api := public_api;
          si_culture_multiplier := culture_multiplier culture;
          si_score := score;
          si_unresolved_count := unresolved_count;
          si_unresolved_mean_confidence := unresolved_mean_confidence;
          si_unresolved_min_confidence := unresolved_min_confidence |}.

(** [symbol_metrics[sid] = {...}] for each symbol in turn. *)
Fixpoint symbol_metrics_loop (scan : EdgeScan) (mutation_count_by_symbol : gmap string Z)
    (culture_by_file : gmap string string) (symbols : list Symbol)
    (symbol_metrics : gmap string SymbolImpact) : option (gmap string SymbolImpact) :=
  match symbols with
  | [] => Some symbol_metrics
  | symbol :: rest =>
      m ← symbol_metric scan mutation_count_by_symbol culture_by_file symbol;
      symbol_metrics_loop scan mutation_count_by_symbol culture_by_file rest
        (<[sym_id symbol := m]> symbol_metrics)
  end.

Definition py_max_list (x : Q) (l : list Q) : Q :=
  fold_left (fun m y => if Qle_bool y m then m else y) l x.

Definition file_metric (symbol_metrics : gmap string SymbolImpact)
    (sids : list string) : FileImpact :=
  let present := omap (fun sid => symbol_metrics !! sid) sids in
  let scores := map si_score present in
  let direct := map si_direct_callers present in
  let depth2 := map si_depth2_callers present in
  let unresolved := map si_unresolved_count present in
  {| fi_symbol_count := Z.of_nat (length sids);
     fi_aggregate_score := round4 (Qsum scores);
     fi_max_symbol_score :=
       match scores with
       | x :: rest => round4 (py_max_list x rest)
       | [] => 0%Q
       end;
     fi_total_direct_callers := fold_left Z.add direct 0;
     fi_total_depth2_callers := fold_left Z.add depth2 0;
     fi_total_unresolved := fold_left Z.add unresolved 0 |}.

(** [{key: d[key] for key in sorted(d)}] *)
Definition sorted_items {V} (d : gmap string V) : pydict V :=
  sorted_by fst (map_to_list d).

Definition compute_impact (symbols : list Symbol) (edges_calls : list CallEdge)
    (edges_mutations : list MutationEdge) (culture_by_file : gmap string string)
  : option Impact :=
  let scan := scan_call_edges edges_calls in
  let mutation_count_by_symbol := count_mutations edges_mutations in
  symbol_metrics ←
    symbol_metrics_loop scan mutation_count_by_symbol culture_by_file symbols ∅;
  let symbols_by_file :=
    fold_left (fun m symbol => dd_append (sym_file symbol) (sym_id symbol) m)
      symbols (∅ : gmap string (list string)) in
  let file_metrics := file_metric symbol_metrics <$> symbols_by_file in
  Some {| imp_symbols := sorted_items symbol_metrics;
          imp_files := sorted_items file_metrics |}.

Definition build_dependency_edges (symbols_by_id : gmap string Symbol)
    (edges_calls : list CallEdge) : list DepEdge :=
  let edges : gset (string * string) :=
    fold_left
      (fun edges edge =>
         if negb (String.eqb (ce_resolution edge) "resolved") then edges
         else
           let source := ce_source edge in
           let target := or_empty (ce_target edge) in
           if negb (truthy source) || negb (truthy target) then edges
           else
             match symbols_by_id !! source, symbols_by_id !! target with
             | Some source_symbol, Some target_symbol =>
                 let source_file := sym_file source_symbol in
                 let target_file := sym_file target_symbol in
                 if negb (String.eqb source_file target_file)
                 then {[(source_file, target_file)]} ∪ edges
                 else edges
             | _, _ => edges
             end)
      edges_calls ∅ in
  map (fun '(source, target) => mkDepEdge source target "call")
    (sorted_by id (elements edges)).

End ImpactEngine.
Import ImpactEngine.

(** ** graph_store.py *)

Module GraphStore.

(** [sorted(set(values))] *)
Definition _sorted_unique (values : list string) : list string :=
  sorted_by id (elements (list_to_set values : gset string)).

Definition normalize_call_key (item : CallEdge)
  : string * string * string * string * Z :=
  (ce_source item, ce_resolution item, or_empty (ce_target item),
   ce_target_name item, ce_line item).

Definition normalize_mutation_key (item : MutationEdge)
  : string * string * string * Z :=
  (me_source item, or_empty (me_target_symbol item), me_target_name item,
   me_line item).

Definition normalize_dep_key (item : DepEdge) : string * string :=
  (dep_source_file item, dep_target_file item).

(** [{key: d[key] for key in sorted(d)}] and [sorted(d.items())] on a
    mapping (whose keys are distinct). *)
Definition key_sorted {V} (d : pydict V) : pydict V := sorted_by fst d.

Definition normalize_index (value : pydict (list string)) : pydict (list string) :=
  map (fun '(sub_key, sub_value) => (sub_key, _sorted_unique sub_value))
    (key_sorted value).

Definition normalize_graph (graph : Graph) : Graph :=
  {| g_meta := g_meta graph;
     g_files := Some (sorted_by file_path (graph_files graph));
     g_symbols := Some (sorted_by sym_id (graph_symbols graph));
     g_edges_calls := Some (sorted_by normalize_call_key (graph_edges_calls graph));
     g_edges_mutations :=
       Some (sorted_by normalize_mutation_key (graph_edges_mutations graph));
     g_edges_depends_on :=
       Some (sorted_by normalize_dep_key (graph_edges_depends_on graph));
     g_impact :=
       Some {| imp_symbols := key_sorted (graph_impact_symbols graph);
               imp_files := key_sorted (graph_impact_files graph) |};
     g_indexes :=
       Some (map (fun '(key, value) => (key, normalize_index value))
               (key_sorted (graph_indexes graph))) |}.

(** JSON values; an object lists its members in the order they are written. *)
Unset Elimination Schemes.
Inductive json :=
| JNull
| JBool (b : bool)
| JInt (n : Z)
| JFloat (q : Q)
| JStr (s : string)
| JArr (items : list json)
| JObj (members : list (string * json)).
Set Elimination Schemes.

Definition j_opt {V} (f : V -> json) (o : option V) : json :=
  match o with Some v => f v | None => JNull end.

Definition j_strs (l : list string) : json := JArr (map JStr l).

Definition j_dict {V} (f : V -> json) (d : pydict V) : json :=
  JObj (map (fun '(k, v) => (k, f v)) d).

Definition json_of_symbol (s : Symbol) : json :=
  JObj [("id", JStr (sym_id s)); ("name", JStr (sym_name s));
        ("signature", JStr (sym_signature s)); ("kind", JStr (sym_kind s));
        ("arity", JInt (sym_arity s)); ("container", JStr (sym_container s));
        ("visibility", JStr (sym_visibility s)); ("file", JStr (sym_file s));
        ("line", JInt (sym_line s))].

Definition json_of_file (f : FileRecord) : json :=
  JObj [("id", JStr (file_id f)); ("path", JStr (file_path f));
        ("hash", JStr (file_hash f)); ("culture", JStr (file_culture f));
        ("atom_counts",
         JObj [("types", JInt (file_types f));
               ("functions", JInt (file_functions f));
               ("variables", JInt (file_variables f))]);
        ("mutation_count", JInt (file_mutation_count f))].

Definition json_of_call_edge (e : CallEdge) : json :=
  JObj [("source", JStr (ce_source e)); ("target", j_opt JStr (ce_target e));
        ("target_name", JStr (ce_target_name e));
        ("target_candidates", j_strs (ce_target_candidates e));
        ("resolution", JStr (ce_resolution e));
        ("confidence", JFloat (ce_confidence e));
        ("qualifier", j_opt JStr (ce_qualifier e));
        ("arity", JInt (ce_arity e)); ("line", JInt (ce_line e))].

Definition json_of_mutation_edge (e : MutationEdge) : json :=
  JObj [("source", JStr (me_source e));
        ("target_symbol", j_opt JStr (me_target_symbol e));
        ("target_name", JStr (me_target_name e));
        ("target_candidates", j_strs (me_target_candidates e));
        ("target_kind", JStr (me_target_kind e));
        ("resolution", JStr (me_resolution e));
        ("confidence", JFloat (me_confidence e));
        ("line", JInt (me_line e))].

Definition json_of_dep_edge (e : DepEdge) : json :=
  JObj [("source_file", JStr (dep_source_file e));
        ("target_file", JStr (dep_target_file e));
        ("reason", JStr (dep_reason e))].

Definition json_of_symbol_impact (m : SymbolImpact) : json :=
  JObj [("direct_callers", JInt (si_direct_callers m));
        ("depth2_callers", JInt (si_depth2_callers m));
        ("fan_out", JInt (si_fan_out m));
        ("mutation_count", JInt (si_mutation_count m));
        ("mutation_density", JFloat (si_mutation_density m));
        ("public_api", JBool (si_public_api m));
        ("culture_multiplier", JFloat (si_culture_multiplier m));
        ("score", JFloat (si_score m));
        ("unresolved_count", JInt (si_unresolved_count m));
        ("unresolved_mean_confidence", JFloat (si_unresolved_mean_confidence m));
        ("unresolved_min_confidence", JFloat (si_unresolved_min_confidence m))].

Definition json_of_file_impact (m : FileImpact) : json :=
  JObj [("symbol_count", JInt (fi_symbol_count m));
        ("aggregate_score", JFloat (fi_aggregate_score m));
        ("max_symbol_score", JFloat (fi_max_symbol_score m));
        ("total_direct_callers", JInt (fi_total_direct_callers m));
        ("total_depth2_callers", JInt (fi_total_depth2_callers m));
        ("total_unresolved", JInt (fi_total_unresolved m))].

Definition json_of_impact (i : Impact) : json :=
  JObj [("symbols", j_dict json_of_symbol_impact (imp_symbols i));
        ("files", j_dict json_of_file_impact (imp_files i))].

Definition json_of_meta (m : Meta) : json :=
  JObj ([("parser_version", JStr (meta_parser_version m));
         ("repo_root", JStr (meta_repo_root m));
         ("repo_digest", JStr (meta_repo_digest m));
         ("files_total", JInt (meta_files_total m))]
        ++ option_list (pair "schema_version" <$> (JStr <$> meta_schema_version m))
        ++ option_list (pair "generated_at" <$> (JStr <$> meta_generated_at m))
        ++ option_list (pair "content_digest" <$> (JStr <$> meta_content_digest m))
        ++ option_list (pair "build_duration_ms" <$> (JInt <$> meta_build_duration_ms m))
        ++ option_list (pair "files_reparsed" <$> (JInt <$> meta_files_reparsed m))
        ++ option_list (pair "files_reused" <$> (JInt <$> meta_files_reused m))).

(** A member for each top-level key the document has. *)
Definition member {V} (key : string) (f : V -> json) (o : option V)
  : list (string * json) :=
  option_list (pair key <$> (f <$> o)).

Definition json_of_graph (g : Graph) : json :=
  JObj (member "meta" json_of_meta (g_meta g)
        ++ member "files" (fun l => JArr (map json_of_file l)) (g_files g)
        ++ member "symbols" (fun l => JArr (map json_of_symbol l)) (g_symbols g)
        ++ member "edges_calls" (fun l => JArr (map json_of_call_edge l))
             (g_edges_calls g)
        ++ member "edges_mutations" (fun l => JArr (map json_of_mutation_edge l))
             (g_edges_mutations g)
        ++ member "edges_depends_on" (fun l => JArr (map json_of_dep_edge l))
             (g_edges_depends_on g)
        ++ member "impact" json_of_impact (g_impact g)
        ++ member "indexes" (j_dict (j_dict j_strs)) (g_indexes g)).

(** [json.dumps(..., sort_keys=True)]: every object is written with its
    members in key order. *)
Fixpoint sort_keys (j : json) : json :=
  match j with
  | JArr items => JArr (map sort_keys items)
  | JObj members =>
      JObj (sorted_by fst (map (fun p => (fst p, sort_keys (snd p))) members))
  | _ => j
  end.

(** The document [write_json] writes: the text is the 2-space-indented
    rendering of this tree followed by a newline, so two payloads are
    written as the same bytes when their trees are equal. *)
Definition write_json (payload : Graph) : json := sort_keys (json_of_graph payload).

Definition save_graph (graph : Graph) : json := write_json (normalize_graph graph).

End GraphStore.
Import GraphStore.

(** ** query_tools.py *)

Module QueryTools.

Record GraphQueryEngine := mkEngine {
  graph : Graph;
  symbol_by_id : gmap string Symbol;
  file_by_id : gmap string FileRecord;
  impact_symbols : pydict SymbolImpact;
  edges_calls : list CallEdge;
  forward : gmap string (gset string);
  reverse : gmap string (gset string);
  symbols_by_name : pydict (list string);
  symbols_by_file : pydict (list string);
  files_by_culture : pydict (list string)
}.

(** One iteration of the adjacency loop of [__init__]. *)
Definition add_resolved_edge
    (adj : gmap string (gset string) * gmap string (gset string)) (edge : CallEdge)
  : gmap string (gset string) * gmap string (gset string) :=
  if negb (String.eqb (ce_resolution edge) EDGE_RESOLUTION_RESOLVED) then adj
  else
    let source := ce_source edge in
    let target := or_empty (ce_target edge) in
    if truthy source && truthy target
    then (adj_add source target (fst adj), adj_add target source (snd adj))
    else adj.

(** [GraphQueryEngine(graph)] *)
Definition new_engine (g : Graph) : GraphQueryEngine :=
  let adj := fold_left add_resolved_edge (graph_edges_calls g) (∅, ∅) in
  let indexes := graph_indexes g in
  {| graph := g;
     symbol_by_id := dict_by sym_id (graph_symbols g);
     file_by_id := dict_by file_id (graph_files g);
     impact_symbols := graph_impact_symbols g;
     edges_calls := graph_edges_calls g;
     forward := fst adj;
     reverse := snd adj;
     symbols_by_name := default [] (dict_get indexes "symbols_by_name");
     symbols_by_file := default [] (dict_get indexes "symbols_by_file");
     files_by_culture := default [] (dict_get indexes "files_by_culture") |}.

Record Guardrail := mkGuardrail {
  gr_symbol_id : string;
  gr_symbol_name : string;
  gr_signature : string;
  gr_culture : string;
  gr_direct_callers : Z;
  gr_depth2_callers : Z;
  gr_fan_out : Z;
  gr_unresolved_count : Z;
  gr_unresolved_min_confidence : Q;
  gr_guardrail : string;
  gr_hard_block : bool;
  gr_message : string;
  gr_reason : string;
  gr_do : list string;
  gr_dont : list string
}.

(** The [if]/[elif] chain of [refactor_guardrail]: the tag and the reason. *)
Definition guardrail_decision (culture : string) (direct_callers fan_out : Z)
    (unresolved_count : Z) (unresolved_min_conf : Q) : string * string :=
  if String.eqb culture CULTURE_AUDITOR then
    ("auditor_advisory", "Auditor symbols are excluded from hard signature blocks.")
  else if (0 <? unresolved_count)
          && Qltb unresolved_min_conf AMBIGUITY_CONFIDENCE_THRESHOLD then
    ("high_risk_manual_review",
     "Low-confidence ambiguous resolution detected; fail-closed policy requires "
     +:+ "manual review before refactor.")
  else if String.eqb culture CULTURE_LAW
          && (LAW_HARD_BLOCK_CALLER_THRESHOLD <=? direct_callers) then
    ("hard_block_signature_change",
     "Law symbol exceeds caller threshold; signature changes are blocked by policy.")
  else if String.eqb culture CULTURE_VIEW then
    ("view_soft_warn",
     "View symbol: report impact radius and avoid broad cascading edits.")
  else if 40 <=? direct_callers + fan_out then
    ("citizen_high_surface",
     "Citizen symbol has high connectivity; stage refactor with compatibility shims.")
  else
    ("allow_change_with_tests", "No hard policy triggers hit.").

(** [refactor_guardrail(symbol_id)]; [None] is the [KeyError] raised for an
    unknown symbol id. *)
Definition refactor_guardrail (self : GraphQueryEngine) (symbol_id : string)
  : option Guardrail :=
  match symbol_by_id self !! symbol_id with
  | None => None
  | Some symbol =>
      let culture :=
        match file_by_id self !! sym_file symbol with
        | Some file_record => file_culture file_record
        | None => "Citizen"
        end in
      let metrics := dict_get (impact_symbols self) symbol_id in
      let direct_callers := default 0 (si_direct_callers <$> metrics) in
      let fan_out := default 0 (si_fan_out <$> metrics) in
      let unresolved_count := default 0 (si_unresolved_count <$> metrics) in
      let unresolved_min_conf :=
        default 1%Q (si_unresolved_min_confidence <$> metrics) in
      let '(guardrail, reason) :=
        guardrail_decision culture direct_callers fan_out unresolved_count
          unresolved_min_conf in
      Some {| gr_symbol_id := symbol_id;
              gr_symbol_name := sym_name symbol;
              gr_signature := sym_signature symbol;
              gr_culture := culture;
              gr_direct_callers := direct_callers;
              gr_depth2_callers := default 0 (si_depth2_callers <$> metrics);
              gr_fan_out := fan_out;
              gr_unresolved_count := unresolved_count;
              gr_unresolved_min_confidence := unresolved_min_conf;
              gr_guardrail := guardrail;
              gr_hard_block := String.eqb guardrail "hard_block_signature_change";
              gr_message :=
                sym_name symbol +:+ " is classified as " +:+ culture +:+ " with "
                +:+ pretty direct_callers +:+ " direct callers; guardrail="
                +:+ guardrail +:+ ".";
              gr_reason := reason;
              gr_do :=
                ["Use impact_radius before editing connected symbols.";
                 "Prefer additive changes over signature breaks.";
                 "Run focused tests on touched reducers/views."];
              gr_dont :=
                ["Do not change signatures when hard_block is true.";
                 "Do not ignore ambiguous-call warnings."] |}
  end.

(** One iteration of [for nxt in adjacency.get(node, set())] in [_bfs]. *)
Definition visit_next (current_depth : Z)
    (st : gset string * gmap string Z * list (string * Z)) (nxt : string)
  : gset string * gmap string Z * list (string * Z) :=
  let '(seen, distances, queue) := st in
  if decide (nxt ∈ seen) then st
  else ({[nxt]} ∪ seen, <[nxt := current_depth + 1]> distances,
        queue ++ [(nxt, current_depth + 1)]).

Fixpoint _bfs_loop (fuel : nat) (adjacency : gmap string (gset string)) (depth : Z)
    (queue : list (string * Z)) (seen : gset string) (distances : gmap string Z)
  : option (gmap string Z) :=
  match fuel with
  | O => None
  | S fuel' =>
      match queue with
      | [] => Some distances
      | (node, current_depth) :: rest =>
          if depth <=? current_depth
          then _bfs_loop fuel' adjacency depth rest seen distances
          else
            let '(seen', distances', queue') :=
              fold_left (visit_next current_depth)
                (elements (adj_get adjacency node)) (seen, distances, rest) in
            _bfs_loop fuel' adjacency depth queue' seen' distances'
      end
  end.

(** [_bfs(start, reverse, depth)]: the traversal behind [get_callers] and
    [get_callees].  It starts from [seen = {start}]. *)
Definition _bfs (self : GraphQueryEngine) (start : string) (rev : bool) (depth : Z)
  : option (gmap string Z) :=
  let adjacency := if rev then reverse self else forward self in
  _bfs_loop (bfs_fuel adjacency) adjacency depth [(start, 0)] {[start]} ∅.

End QueryTools.
Import QueryTools.

(** ** indexer.py: graph assembly and the consistency check *)

Module Indexer.

Section Build.

(** Library functions the build calls: [hashlib.sha256(...).hexdigest()] and
    [str.lower]. *)
Variable sha256_hex : string -> string.
Variable str_lower : string -> string.

(** extract_atoms.build_symbol_indexes *)
Definition build_symbol_indexes (symbols : list Symbol) : pydict (pydict (list string)) :=
  let symbols_by_name :=
    fold_left (fun m symbol => dd_append (str_lower (sym_name symbol)) (sym_id symbol) m)
      symbols (∅ : gmap string (list string)) in
  let symbols_by_file :=
    fold_left (fun m symbol => dd_append (sym_file symbol) (sym_id symbol) m)
      symbols (∅ : gmap string (list string)) in
  [("symbols_by_name", sorted_items (sorted_by id <$> symbols_by_name));
   ("symbols_by_file", sorted_items (sorted_by id <$> symbols_by_file))].

Definition _build_indexes (symbols : list Symbol) (files : list FileRecord)
    (edges_calls : list CallEdge) : pydict (pydict (list string)) :=
  let indexes := build_symbol_indexes symbols in
  let files_by_culture :=
    fold_left (fun m file_record => dd_append (file_culture file_record) (file_id file_record) m)
      files (∅ : gmap string (list string)) in
  let '(callers_by_symbol, callees_by_symbol, unresolved_calls_by_symbol) :=
    fold_left
      (fun '(callers_by, callees_by, unresolved_by) edge =>
         let source := ce_source edge in
         let target := or_empty (ce_target edge) in
         if String.eqb (ce_resolution edge) EDGE_RESOLUTION_RESOLVED
            && truthy source && truthy target
         then (adj_add target source callers_by, adj_add source target callees_by,
               unresolved_by)
         else if truthy source
         then (callers_by, callees_by,
               dd_append source (ce_target_name edge) unresolved_by)
         else (callers_by, callees_by, unresolved_by))
      edges_calls
      (∅ : gmap string (gset string), ∅ : gmap string (gset string),
       ∅ : gmap string (list string)) in
  indexes
  ++ [("files_by_culture", sorted_items (sorted_by id <$> files_by_culture));
      ("callers_by_symbol",
       sorted_items ((fun v => sorted_by id (elements v)) <$> callers_by_symbol));
      ("callees_by_symbol",
       sorted_items ((fun v => sorted_by id (elements v)) <$> callees_by_symbol));
      ("unresolved_calls_by_symbol",
       sorted_items (sorted_by id <$> unresolved_calls_by_symbol))].

Definition newline : string := String (Ascii.ascii_of_nat 10) EmptyString.

(** The hash over all per-file hashes. *)
Definition content_digest_of (file_hash_pairs : list (string * string)) : string :=
  sha256_hex
    (String.concat newline
       (map (fun '(rel, digest) => rel +:+ ":" +:+ digest)
          (sorted_by id file_hash_pairs))).

(** What [build] has in hand once every file is hashed and extracted. *)
Record BuildState := mkBuildState {
  bs_repo_root : string;
  bs_repo_digest : string;            (* [repo_digest(self.repo_root)] *)
  bs_files_total : Z;                 (* [len(files)] *)
  bs_symbols : list Symbol;
  bs_calls : list CallEvent;
  bs_mutations : list MutationEvent;
  bs_files_payload : list FileRecord;
  bs_culture_by_file : gmap string string;
  bs_file_hash_pairs : list (string * string);
  bs_now : string;                    (* [datetime.now(timezone.utc).isoformat()] *)
  bs_duration_ms : Z;
  bs_files_reparsed : Z;
  bs_files_reused : Z
}.

(** The [meta] block, with the no-op-rebuild rule. *)
Definition build_meta (existing_graph : option Graph) (st : BuildState) : Meta :=
  let duration_ms := bs_duration_ms st in
  let files_reparsed := bs_files_reparsed st in
  let files_reused := bs_files_reused st in
  let content_digest := content_digest_of (bs_file_hash_pairs st) in
  let generated_at := bs_now st in
  let existing_meta := existing_graph ≫= g_meta in
  let unchanged :=
    match existing_meta ≫= meta_content_digest with
    | Some previous => String.eqb previous content_digest
    | None => false
    end in
  let generated_at :=
    if unchanged then default generated_at (existing_meta ≫= meta_generated_at)
    else generated_at in
  let persisted_duration :=
    if unchanged then default duration_ms (existing_meta ≫= meta_build_duration_ms)
    else duration_ms in
  let persisted_reparsed :=
    if unchanged then default files_reparsed (existing_meta ≫= meta_files_reparsed)
    else files_reparsed in
  let persisted_reused :=
    if unchanged then default files_reused (existing_meta ≫= meta_files_reused)
    else files_reused in
  {| meta_schema_version := Some SCHEMA_VERSION;
     meta_parser_version := PARSER_VERSION;
     meta_generated_at := Some generated_at;
     meta_repo_root := bs_repo_root st;
     meta_repo_digest := bs_repo_digest st;
     meta_content_digest := Some content_digest;
     meta_build_duration_ms := Some persisted_duration;
     meta_files_total := bs_files_total st;
     meta_files_reparsed := Some persisted_reparsed;
     meta_files_reused := Some persisted_reused |}.

(** [SemanticIndexer.build] from edge resolution to the assembled graph. *)
Definition build_graph (existing_graph : option Graph) (st : BuildState)
  : option Graph :=
  let symbols := bs_symbols st in
  let edges_calls := resolve_calls symbols (bs_calls st) in
  let edges_mutations := _resolve_mutation_edges symbols (bs_mutations st) in
  let symbols_by_id := dict_by sym_id symbols in
  let edges_depends_on := build_dependency_edges symbols_by_id edges_calls in
  let files_payload := bs_files_payload st in
  let indexes := _build_indexes symbols files_payload edges_calls in
  impact ← compute_impact symbols edges_calls edges_mutations (bs_culture_by_file st);
  Some {| g_meta := Some (build_meta existing_graph st);
          g_files := Some files_payload;
          g_symbols := Some symbols;
          g_edges_calls := Some edges_calls;
          g_edges_mutations := Some edges_mutations;
          g_edges_depends_on := Some edges_depends_on;
          g_impact := Some impact;
          g_indexes := Some indexes |}.

End Build.

(** [key in graph] *)
Definition has_key (g : Graph) (key : string) : bool :=
  if String.eqb key "meta" then bool_decide (is_Some (g_meta g))
  else if String.eqb key "files" then bool_decide (is_Some (g_files g))
  else if String.eqb key "symbols" then bool_decide (is_Some (g_symbols g))
  else if String.eqb key "edges_calls" then bool_decide (is_Some (g_edges_calls g))
  else if String.eqb key "edges_mutations"
    then bool_decide (is_Some (g_edges_mutations g))
  else if String.eqb key "edges_depends_on"
    then bool_decide (is_Some (g_edges_depends_on g))
  else if String.eqb key "impact" then bool_decide (is_Some (g_impact g))
  else if String.eqb key "indexes" then bool_decide (is_Some (g_indexes g))
  else false.

(** [repr] of an optional string without quotes or escapes inside. *)
Definition py_repr (o : option string) : string :=
  match o with Some s => "'" +:+ s +:+ "'" | None => "None" end.

(** schemas.validate_graph_shape *)
Definition validate_graph_shape (g : Graph) : list string :=
  let missing :=
    flat_map (fun key => if has_key g key then []
                         else ["missing top-level key: " +:+ key])
      graph_top_level_keys in
  let schema := g_meta g ≫= meta_schema_version in
  missing
  ++ (if bool_decide (schema = Some SCHEMA_VERSION) then []
      else ["schema_version mismatch: expected " +:+ SCHEMA_VERSION +:+ ", got "
            +:+ py_repr schema])
  ++ (match g_symbols g with Some _ => [] | None => ["symbols must be a list"] end)
  ++ (match g_edges_calls g with Some _ => [] | None => ["edges_calls must be a list"] end)
  ++ (match g_files g with Some _ => [] | None => ["files must be a list"] end).

Definition call_edge_errors (symbol_ids : gset string) (edge : CallEdge) : list string :=
  let source := ce_source edge in
  let target := or_empty (ce_target edge) in
  (if truthy source && negb (bool_decide (source ∈ symbol_ids))
   then ["call edge source missing symbol: " +:+ source] else [])
  ++ (if truthy target && negb (bool_decide (target ∈ symbol_ids))
      then ["call edge target missing symbol: " +:+ target] else []).

Definition dep_edge_errors (file_ids : gset string) (edge : DepEdge) : list string :=
  (if negb (bool_decide (dep_source_file edge ∈ file_ids))
   then ["dependency edge source file missing: " +:+ dep_source_file edge] else [])
  ++ (if negb (bool_decide (dep_target_file edge ∈ file_ids))
      then ["dependency edge target file missing: " +:+ dep_target_file edge] else []).

Definition index_errors (symbol_ids : gset string) (sid_list : list string)
  : list string :=
  flat_map (fun sid => if bool_decide (sid ∈ symbol_ids) then []
                       else ["index references missing symbol: " +:+ sid])
    sid_list.

(** The checks [doctor_check] runs on a loaded graph. *)
Definition doctor_errors (g : Graph) : list string :=
  let errors := validate_graph_shape g in
  let symbol_ids : gset string := list_to_set (map sym_id (graph_symbols g)) in
  let file_ids : gset string := list_to_set (map file_id (graph_files g)) in
  errors
  ++ flat_map (call_edge_errors symbol_ids) (graph_edges_calls g)
  ++ flat_map (dep_edge_errors file_ids) (graph_edges_depends_on g)
  ++ flat_map (fun entry => index_errors symbol_ids (snd entry))
       (default [] (dict_get (graph_indexes g) "symbols_by_file")).

(** [doctor_check(repo_root, strict)]; [persisted] is the graph document on
    disk, if there is one, and [graph_file] its path. *)
Definition doctor_check (graph_file : string) (persisted : option Graph) (strict : bool)
  : bool * list string :=
  match persisted with
  | None =>
      if strict then (false, ["graph file missing: " +:+ graph_file])
      else (true, ["graph file missing: " +:+ graph_file +:+ " (skipped)"])
  | Some g =>
      let errors := doctor_errors g in
      (Nat.eqb (length errors) 0, errors)
  end.

End Indexer.
Import Indexer.

(** * Properties *)

(** ** Sorting *)

Section SortedFacts.
Context {A K : Type} `{PyOrd K}.
Variable key : A -> K.

#[local] Abbreviation ins := (insert_by key).
#[local] Abbreviation srt := (sorted_by key).
#[local] Abbreviation kle := (key_le key).

Lemma insert_by_perm x l : ins x l ≡ₚ x :: l.
Proof.
  induction l as [|y l IH]; simpl; [done|].
  destruct (py_le (key x) (key y)); [done|].
  rewrite IH. apply perm_swap.
Qed.

Lemma sorted_by_perm l : srt l ≡ₚ l.
Proof.
  induction l as [|x l IH]; simpl; [done|].
  rewrite insert_by_perm. by rewrite IH.
Qed.

Lemma sorted_by_length l : length (srt l) = length l.
Proof. apply Permutation_length, sorted_by_perm. Qed.

Lemma sorted_by_elem x l : x ∈ srt l <-> x ∈ l.
Proof. by rewrite sorted_by_perm. Qed.

Lemma insert_by_sorted x l : Sorted kle l -> Sorted kle (ins x l).
Proof.
  induction 1 as [|y l Hs IH Hhd]; simpl.
  - repeat constructor.
  - destruct (py_le (key x) (key y)) eqn:E.
    + constructor; [by constructor|]. by constructor.
    + constructor; [done|].
      apply neg_le_le in E.
      destruct Hhd as [|z l Hyz]; simpl.
      * by constructor.
      * destruct (py_le (key x) (key z)); by constructor.
Qed.

Lemma sorted_by_sorted l : Sorted kle (srt l).
Proof.
  induction l as [|x l IH]; simpl; [constructor|]. by apply insert_by_sorted.
Qed.

#[local] Instance key_le_trans : Transitive kle.
Proof. intros x y z. unfold kle. apply py_le_trans. Qed.

(** Two orderings of the same items sort to the same list as soon as the
    key tells distinct items apart. *)
Lemma sorted_by_permutation_invariant l1 l2 :
  l1 ≡ₚ l2 ->
  (forall x y, x ∈ l1 -> y ∈ l1 -> key x = key y -> x = y) ->
  srt l1 = srt l2.
Proof.
  intros Hp Hinj.
  apply (Sorted_unique_strong kle); try apply sorted_by_sorted.
  - intros x y Hx Hy Hxy Hyx.
    apply (proj1 (sorted_by_elem _ _)) in Hx.
    apply (proj1 (sorted_by_elem _ _)) in Hy.
    rewrite <- Hp in Hy. apply Hinj; [done..|].
    by apply py_le_antisym.
  - by rewrite !sorted_by_perm.
Qed.

Lemma sorted_by_idem l : srt (srt l) = srt l.
Proof.
  assert (Hs : forall l', Sorted kle l' -> srt l' = l').
  { induction 1 as [|y l' Hs IH Hhd]; simpl; [done|].
    rewrite IH. destruct Hhd as [|z l' Hyz]; simpl; [done|].
    unfold kle in Hyz. by rewrite Hyz. }
  apply Hs, sorted_by_sorted.
Qed.
End SortedFacts.

(** ** Dictionaries *)

Section DictFacts.
Context `{Countable K} {V : Type}.

Lemma dd_get_append (m : gmap K (list V)) (k k' : K) (v : V) :
  dd_get (dd_append k' v m) k
  = dd_get m k ++ (if decide (k' = k) then [v] else []).
Proof.
  unfold dd_append, dd_get at 1. destruct (decide (k' = k)) as [->|Hne].
  - by rewrite lookup_insert_eq.
  - rewrite lookup_insert_ne by done. by rewrite app_nil_r.
Qed.

(** A [defaultdict(list)] filled by a loop groups the items by key, in
    input order. *)
Lemma dd_fold_group {A} (keep : A -> bool) (kf : A -> K) (vf : A -> V)
    (l : list A) (m : gmap K (list V)) (k : K) :
  dd_get (fold_left (fun m x => if keep x then dd_append (kf x) (vf x) m else m) l m) k
  = dd_get m k
    ++ map vf (List.filter (fun x => keep x && bool_decide (kf x = k)) l).
Proof.
  revert m. induction l as [|x l IH]; intros m; simpl.
  - by rewrite app_nil_r.
  - rewrite IH. destruct (keep x); simpl; [|done].
    rewrite dd_get_append. rewrite <- app_assoc. f_equal.
    destruct (decide (kf x = k)) as [Heq|Hne].
    + by rewrite bool_decide_eq_true_2.
    + by rewrite bool_decide_eq_false_2.
Qed.
End DictFacts.

Lemma dict_by_lookup {V} (key : V -> string) (items : list V) (k : string) :
  dict_by key items !! k
  = last (List.filter (fun item => bool_decide (key item = k)) items).
Proof.
  unfold dict_by.
  assert (Hgen : forall m : gmap string V,
    fold_left (fun m item => <[key item := item]> m) items m !! k
    = match last (List.filter (fun item => bool_decide (key item = k)) items) with
      | Some v => Some v
      | None => m !! k
      end).
  { induction items as [|x items IH]; intros m; simpl; [done|].
    rewrite IH. destruct (decide (key x = k)) as [Heq|Hne].
    - rewrite bool_decide_eq_true_2 by done.
      rewrite last_cons. rewrite Heq, lookup_insert_eq.
      by destruct (last _).
    - rewrite bool_decide_eq_false_2 by done.
      by rewrite lookup_insert_ne. }
  rewrite Hgen, lookup_empty. by destruct (last _).
Qed.

Lemma dict_by_Some {V} (key : V -> string) (items : list V) (k : string) (v : V) :
  dict_by key items !! k = Some v -> v ∈ items /\ key v = k.
Proof.
  rewrite dict_by_lookup. intros Hl.
  apply last_Some_elem_of in Hl. apply list_elem_of_In, filter_In in Hl.
  destruct Hl as [Hin Hk]. apply bool_decide_eq_true in Hk.
  split; [by apply list_elem_of_In|done].
Qed.

Lemma dict_by_is_Some {V} (key : V -> string) (items : list V) (k : string) :
  is_Some (dict_by key items !! k) <-> k ∈ map key items.
Proof.
  split.
  - intros [v Hv]. apply dict_by_Some in Hv as [Hin <-].
    apply list_elem_of_fmap. eauto.
  - intros Hin. apply list_elem_of_fmap in Hin as (v & -> & Hin).
    rewrite dict_by_lookup.
    destruct (last _) eqn:E; [eauto|].
    apply last_None in E.
    assert (Hf : In v (List.filter (fun item => bool_decide (key item = key v)) items)).
    { apply filter_In. split; [by apply list_elem_of_In|by apply bool_decide_eq_true]. }
    rewrite E in Hf. destruct Hf.
Qed.

Lemma dict_by_NoDup {V} (key : V -> string) (items : list V) (v : V) :
  NoDup (map key items) -> v ∈ items -> dict_by key items !! key v = Some v.
Proof.
  intros Hnd Hin. destruct (dict_by_is_Some key items (key v)) as [_ Hs].
  destruct Hs as [w Hw]; [apply list_elem_of_fmap; eauto|].
  rewrite Hw. f_equal. apply dict_by_Some in Hw as [Hwin Hk].
  apply list_elem_of_lookup in Hwin as [i Hi], Hin as [j Hj].
  assert (i = j) as ->.
  { eapply NoDup_lookup; [exact Hnd|..]; rewrite list_lookup_fmap.
    - by rewrite Hi.
    - rewrite Hj. simpl. by rewrite Hk. }
  congruence.
Qed.

(** ** Call resolution: candidate narrowing *)

Section Narrowing.

(** The narrowing order in the specification's words: a lookup key fixes the
    callee name and, optionally, the qualifier (the candidate's container)
    and the arity; only function symbols match a key. *)
Definition key_matches (qualifier : option string) (arity : option Z) (name : string)
    (symbol : Symbol) : bool :=
  is_function symbol
  && String.eqb (sym_name symbol) name
  && match qualifier with
     | Some q => String.eqb (sym_container symbol) q
     | None => true
     end
  && match arity with
     | Some a => Z.eqb (sym_arity symbol) a
     | None => true
     end.

Definition key_lookup (symbols : list Symbol) (qualifier : option string)
    (arity : option Z) (name : string) : list Symbol :=
  List.filter (key_matches qualifier arity name) symbols.

Fixpoint first_nonempty {A} (results : list (list A)) : list A :=
  match results with
  | [] => []
  | r :: rest => if nonempty r then r else first_nonempty rest
  end.

(** Most to least specific; the two qualified keys exist only for a call
    that has a qualifier. *)
Definition narrowing_order (symbols : list Symbol) (call : CallEvent)
  : list (list Symbol) :=
  let name := call_callee_name call in
  let arity := call_arity call in
  match call_qualifier call with
  | Some q =>
      if truthy q
      then [key_lookup symbols (Some q) (Some arity) name;
            key_lookup symbols (Some q) None name;
            key_lookup symbols None (Some arity) name;
            key_lookup symbols None None name]
      else [key_lookup symbols None (Some arity) name;
            key_lookup symbols None None name]
  | None =>
      [key_lookup symbols None (Some arity) name;
       key_lookup symbols None None name]
  end.

Lemma index_functions_fold (l : list Symbol) (idx : FunctionIndex) :
  let idx' := fold_left index_symbol l idx in
  by_name_arity idx'
  = fold_left (fun m x => if is_function x
                          then dd_append (sym_name x, sym_arity x) x m else m)
      l (by_name_arity idx)
  /\ by_container_name_arity idx'
     = fold_left (fun m x => if is_function x
                             then dd_append (sym_container x, sym_name x, sym_arity x) x m
                             else m)
         l (by_container_name_arity idx)
  /\ by_name idx'
     = fold_left (fun m x => if is_function x then dd_append (sym_name x) x m else m)
         l (by_name idx)
  /\ by_container_name idx'
     = fold_left (fun m x => if is_function x
                             then dd_append (sym_container x, sym_name x) x m else m)
         l (by_container_name idx).
Proof.
  revert idx. induction l as [|x l IH]; intros idx; simpl; [done|].
  destruct (IH (index_symbol idx x)) as (H1 & H2 & H3 & H4).
  rewrite H1, H2, H3, H4. unfold index_symbol.
  by destruct (is_function x).
Qed.

Ltac eqb_cases :=
  repeat match goal with
  | |- context [String.eqb ?a ?b] => destruct (String.eqb_spec a b); subst
  | |- context [Z.eqb ?a ?b] => destruct (Z.eqb_spec a b); subst
  | |- context [bool_decide ?P] => destruct (bool_decide_reflect P)
  end; simpl; try congruence; try done.

Lemma by_name_arity_lookup symbols name arity :
  dd_get (by_name_arity (_index_functions symbols)) (name, arity)
  = key_lookup symbols None (Some arity) name.
Proof.
  unfold _index_functions.
  destruct (index_functions_fold symbols empty_index) as (-> & _).
  rewrite (dd_fold_group is_function (fun x => (sym_name x, sym_arity x)) id).
  simpl. rewrite map_id. apply filter_ext. intros x.
  unfold key_matches. destruct (is_function x); simpl; [|done]. eqb_cases.
Qed.

Lemma by_container_name_arity_lookup symbols q name arity :
  dd_get (by_container_name_arity (_index_functions symbols)) (q, name, arity)
  = key_lookup symbols (Some q) (Some arity) name.
Proof.
  unfold _index_functions.
  destruct (index_functions_fold symbols empty_index) as (_ & -> & _).
  rewrite (dd_fold_group is_function
             (fun x => (sym_container x, sym_name x, sym_arity x)) id).
  simpl. rewrite map_id. apply filter_ext. intros x.
  unfold key_matches. destruct (is_function x); simpl; [|done]. eqb_cases.
Qed.

Lemma by_name_lookup symbols name :
  dd_get (by_name (_index_functions symbols)) name
  = key_lookup symbols None None name.
Proof.
  unfold _index_functions.
  destruct (index_functions_fold symbols empty_index) as (_ & _ & -> & _).
  rewrite (dd_fold_group is_function sym_name id).
  simpl. rewrite map_id. apply filter_ext. intros x.
  unfold key_matches. destruct (is_function x); simpl; [|done]. eqb_cases.
Qed.

Lemma by_container_name_lookup symbols q name :
  dd_get (by_container_name (_index_functions symbols)) (q, name)
  = key_lookup symbols (Some q) None name.
Proof.
  unfold _index_functions.
  destruct (index_functions_fold symbols empty_index) as (_ & _ & _ & ->).
  rewrite (dd_fold_group is_function (fun x => (sym_container x, sym_name x)) id).
  simpl. rewrite map_id. apply filter_ext. intros x.
  unfold key_matches. destruct (is_function x); simpl; [|done]. eqb_cases.
Qed.

Lemma key_lookup_functions symbols qualifier arity name :
  Forall (fun s => sym_kind s = SYMBOL_KIND_FUNCTION)
    (key_lookup symbols qualifier arity name).
Proof.
  apply Forall_forall. intros s Hs.
  apply list_elem_of_In, filter_In in Hs as [_ Hm].
  unfold key_matches, is_function in Hm.
  rewrite !andb_true_iff in Hm. destruct Hm as [[[Hf _] _] _].
  by apply String.eqb_eq in Hf.
Qed.

Lemma first_nonempty_Forall {A} (P : A -> Prop) (results : list (list A)) :
  Forall (Forall P) results -> Forall P (first_nonempty results).
Proof.
  induction 1 as [|r rest Hr _ IH]; simpl; [constructor|].
  by destruct (nonempty r).
Qed.

(** C3. For every call event, the candidates used for resolution are the
    result of the first non-empty lookup among the keys (qualifier, callee
    name, arity), (qualifier, callee name), (callee name, arity), (callee
    name), tried in that order; a qualifier that matches nothing falls
    through to the unqualified keys; and every candidate is a function
    symbol. *)
Theorem pick_candidates_narrowing (symbols : list Symbol) (call : CallEvent) :
  _pick_candidates call (_index_functions symbols)
  = first_nonempty (narrowing_order symbols call)
  /\ Forall (fun s => sym_kind s = SYMBOL_KIND_FUNCTION)
       (_pick_candidates call (_index_functions symbols)).
Proof.
  assert (Heq : _pick_candidates call (_index_functions symbols)
                = first_nonempty (narrowing_order symbols call)).
  { assert (Hlast : forall r : list Symbol, (if nonempty r then r else []) = r)
      by (by intros []).
    unfold _pick_candidates, pick_unqualified, narrowing_order.
    rewrite by_name_arity_lookup, by_name_lookup.
    destruct (call_qualifier call) as [q|]; simpl.
    - rewrite by_container_name_arity_lookup, by_container_name_lookup.
      destruct (truthy q); simpl; by rewrite Hlast.
    - by rewrite Hlast. }
  split; [exact Heq|]. rewrite Heq.
  apply first_nonempty_Forall. unfold narrowing_order.
  destruct (call_qualifier call) as [q|]; [destruct (truthy q)|];
    repeat constructor; apply key_lookup_functions.
Qed.

End Narrowing.

(** ** Call resolution: one classified edge per call *)

Section CallEdges.

(** The confidence the specification gives an ambiguous edge. *)
Definition reciprocal_confidence (n : nat) : Q :=
  py_max (1 # 10)%Q (1 / inject_Z (Z.of_nat n))%Q.

(** The edge of a call, given the candidates the narrowing yields. *)
Definition classified (rounded : bool) (candidates : list Symbol) (e : CallEdge) : Prop :=
  match candidates with
  | [] =>
      ce_resolution e = EDGE_RESOLUTION_EXTERNAL
      /\ (ce_confidence e == 0)%Q
      /\ ce_target e = None
      /\ ce_target_candidates e = []
  | [target] =>
      ce_resolution e = EDGE_RESOLUTION_RESOLVED
      /\ (ce_confidence e == 1)%Q
      /\ ce_target e = Some (sym_id target)
      /\ ce_target_candidates e = [sym_id target]
  | _ :: _ :: _ =>
      ce_resolution e = EDGE_RESOLUTION_AMBIGUOUS
      /\ (ce_confidence e ==
          if rounded
          then py_max (1 # 10) (round4 (1 / inject_Z (Z.of_nat (length candidates))))
          else reciprocal_confidence (length candidates))%Q
      /\ ce_target e = None
      /\ ce_target_candidates e = sorted_by id (map sym_id candidates)
      /\ Sorted (fun a b => String.leb a b = true) (ce_target_candidates e)
  end.

(** C2 as the specification states it, with the unrounded reciprocal. *)
Definition resolution_with_exact_reciprocal : Prop :=
  forall (symbols : list Symbol) (call : CallEvent),
    Forall (classified false (_pick_candidates call (_index_functions symbols)))
      (resolve_calls symbols [call]).

Definition three_overloads : list Symbol :=
  [mkSymbol "a.swift::A::f()::L1" "f" "f()" "function" 0 "A" "internal" "a.swift" 1;
   mkSymbol "b.swift::B::f()::L1" "f" "f()" "function" 0 "B" "internal" "b.swift" 1;
   mkSymbol "c.swift::C::f()::L1" "f" "f()" "function" 0 "C" "internal" "c.swift" 1].

Definition call_f : CallEvent :=
  mkCallEvent "d.swift::D::run()::L1" "f" None 0 7.

Example three_overloads_confidence :
  map ce_confidence (resolve_calls three_overloads [call_f]) = [(3333 # 10000)%Q].
Proof. reflexivity. Qed.

Lemma resolve_calls_perm symbols calls :
  resolve_calls symbols calls
  ≡ₚ map (resolve_call (_index_functions symbols)) calls.
Proof. apply sorted_by_perm. Qed.

Lemma resolve_call_classified index call :
  classified true (_pick_candidates call index) (resolve_call index call).
Proof.
  unfold resolve_call, classified.
  destruct (_pick_candidates call index) as [|t [|t' rest]];
    lazy beta iota zeta;
    cbn [ce_resolution ce_confidence ce_target ce_target_candidates];
    [done|done|].
  rewrite sorted_by_length, length_map.
  repeat split; try done.
  exact (sorted_by_sorted (A:=string) (K:=string) id _).
Qed.

(** With ten or more candidates the confidence is the floor 0.1. *)
Lemma ambiguity_confidence_floor (n : nat) :
  (10 <= n)%nat -> (ambiguity_confidence n == 1 # 10)%Q.
Proof.
  intros Hn. unfold ambiguity_confidence, py_max.
  assert (Hle : (round4 (1 / inject_Z (Z.of_nat n)) <= 1 # 10)%Q).
  { unfold round4, round_half_even.
    destruct n as [|n]; [lia|].
    set (p := Pos.of_succ_nat n).
    assert (Hp : Z.of_nat (S n) = Z.pos p) by (unfold p; lia).
    rewrite Hp. unfold Qle, Qdiv, Qmult, Qinv, inject_Z. simpl.
    rewrite Pos.mul_1_r, Pos.mul_1_l.
    change (1 * 1 * 10000) with 10000.
    assert (Hp10 : 10 <= Z.pos p) by lia.
    assert (Hdm := Z.div_mod 10000 (Z.pos p) ltac:(lia)).
    assert (Hmb := Z.mod_pos_bound 10000 (Z.pos p) ltac:(lia)).
    set (f := 10000 / Z.pos p) in *. set (r := 10000 mod Z.pos p) in *.
    assert (Hf : f <= 1000) by nia.
    assert (Hf1 : 2 * r < Z.pos p -> f * 10 <= 10000) by lia.
    assert (Hedge : f = 1000 -> r = 0) by nia.
    repeat match goal with
           | |- context [Z.ltb ?a ?b] => destruct (Z.ltb_spec a b)
           | |- context [Z.even ?a] => destruct (Z.even a)
           end; lia. }
  apply Qle_bool_iff in Hle. by rewrite Hle.
Qed.

(** The rounding moves the confidence by at most half a unit in the fourth
    decimal place. *)
Lemma ambiguity_confidence_close (n : nat) :
  (2 <= n)%nat ->
  (Qabs (ambiguity_confidence n - reciprocal_confidence n) <= 1 # 20000)%Q.
Proof.
  intros Hn. destruct (le_lt_dec 10 n) as [Hbig|Hsmall].
  - rewrite (ambiguity_confidence_floor n Hbig).
    unfold reciprocal_confidence, py_max.
    assert (Hle : (1 / inject_Z (Z.of_nat n) <= 1 # 10)%Q).
    { destruct n as [|n]; [lia|].
      set (p := Pos.of_succ_nat n).
      assert (Hp : Z.of_nat (S n) = Z.pos p) by (unfold p; lia).
      rewrite Hp. unfold Qle, Qdiv, Qmult, Qinv, inject_Z. simpl. lia. }
    apply Qle_bool_iff in Hle. rewrite Hle. by vm_compute.
  - do 10 (destruct n as [|n]; [try lia; by vm_compute|]). lia.
Qed.

(** C2, amended. For every call event, call resolution produces exactly one
    edge (the edge list is the sorted list of the per-call edges): with
    exactly one candidate the edge is [resolved] with confidence 1.0 and
    carries that target id; with more than one it is [ambiguous] with
    confidence max(0.1, round(1/candidate-count, 4)), carries the sorted
    candidate-id list and has no single target; with none it is [external]
    with confidence 0.0 and no target.  The rounded confidence is within
    0.00005 of max(0.1, 1/candidate-count). *)
Theorem resolve_calls_one_edge_per_call (symbols : list Symbol) (calls : list CallEvent) :
  let index := _index_functions symbols in
  resolve_calls symbols calls ≡ₚ map (resolve_call index) calls
  /\ length (resolve_calls symbols calls) = length calls
  /\ Forall (fun call =>
               classified true (_pick_candidates call index) (resolve_call index call))
       calls
  /\ forall n : nat,
       (Qabs (ambiguity_confidence (S (S n)) - reciprocal_confidence (S (S n)))
        <= 1 # 20000)%Q.
Proof.
  simpl. repeat split.
  - apply resolve_calls_perm.
  - rewrite resolve_calls_perm. by rewrite length_map.
  - apply Forall_forall. intros call _. apply resolve_call_classified.
  - intros n. apply ambiguity_confidence_close. lia.
Qed.

(** C2 as stated fails: with three candidates the code's confidence is
    0.3333, not 1/3. *)
Lemma resolve_calls_exact_reciprocal_fails : ~ resolution_with_exact_reciprocal.
Proof.
  intros Hall. specialize (Hall three_overloads call_f).
  apply Forall_inv in Hall.
  change (_pick_candidates call_f (_index_functions three_overloads))
    with three_overloads in Hall.
  destruct Hall as (_ & Hconf & _).
  vm_compute in Hconf. discriminate.
Qed.

End CallEdges.

(** ** Mutation resolution: orphan events *)

Section MutationOrphans.

(** The event's source symbol id is in the symbol table. *)
Definition known_source (symbols : list Symbol) (event : MutationEvent) : bool :=
  bool_decide (mut_source_symbol_id event ∈ map sym_id symbols).

Lemma resolve_mutation_None symbols index event :
  known_source symbols event = false ->
  resolve_mutation (dict_by sym_id symbols) index event = None.
Proof.
  intros Hk. apply bool_decide_eq_false in Hk. unfold resolve_mutation.
  destruct (dict_by sym_id symbols !! mut_source_symbol_id event) eqn:E; [|done].
  exfalso. apply Hk. apply dict_by_is_Some. eauto.
Qed.

Lemma resolve_mutation_Some symbols index event :
  known_source symbols event = true ->
  exists edge,
    resolve_mutation (dict_by sym_id symbols) index event = Some edge
    /\ me_source edge = mut_source_symbol_id event.
Proof.
  intros Hk. apply bool_decide_eq_true in Hk.
  apply dict_by_is_Some in Hk as [s Hs]. unfold resolve_mutation. rewrite Hs.
  destruct (if nonempty _ then _ else _) as [|t [|t' rest]]; eauto.
Qed.

Lemma omap_resolve_mutation symbols index mutations :
  let f := resolve_mutation (dict_by sym_id symbols) index in
  omap f mutations = omap f (List.filter (known_source symbols) mutations)
  /\ length (omap f mutations)
     = length (List.filter (known_source symbols) mutations)
  /\ Forall (fun e => me_source e ∈ map sym_id symbols) (omap f mutations).
Proof.
  intros f. induction mutations as [|ev l (IH1 & IH2 & IH3)].
  - repeat split. constructor.
  - cbn [List.filter omap list_omap].
    destruct (known_source symbols ev) eqn:Hk.
    + destruct (resolve_mutation_Some symbols index ev Hk) as (edge & He & Hsrc).
      cbn [omap list_omap]. fold f in He. rewrite He.
      cbn [length]. rewrite <- IH1, IH2. repeat split.
      constructor; [|done]. rewrite Hsrc. by apply bool_decide_eq_true in Hk.
    + pose proof (resolve_mutation_None symbols index ev Hk) as Hn.
      fold f in Hn. by rewrite Hn.
Qed.

Definition lone_function : list Symbol :=
  [mkSymbol "a.swift::A::run()::L1" "run" "run()" "function" 0 "A" "internal"
     "a.swift" 1].

Definition orphan_event : MutationEvent :=
  mkMutationEvent "gone.swift::G::old()::L9" "count" "variable" 12 (Some (8 # 10)%Q).

(** C10. Mutation resolution drops orphan events: an event whose source
    symbol id is not in the symbol table emits no edge (the edge list is
    the one obtained from the events with a known source, one edge each),
    so there can be strictly fewer mutation edges than mutation events, and
    the source of every emitted edge is an existing symbol id. *)
Theorem resolve_mutation_edges_drop_orphans
    (symbols : list Symbol) (mutations : list MutationEvent) :
  _resolve_mutation_edges symbols mutations
  = _resolve_mutation_edges symbols (List.filter (known_source symbols) mutations)
  /\ length (_resolve_mutation_edges symbols mutations)
     = length (List.filter (known_source symbols) mutations)
  /\ (length (_resolve_mutation_edges symbols mutations) <= length mutations)%nat
  /\ Forall (fun e => me_source e ∈ map sym_id symbols)
       (_resolve_mutation_edges symbols mutations)
  /\ (length (_resolve_mutation_edges lone_function [orphan_event])
      < length [orphan_event])%nat.
Proof.
  unfold _resolve_mutation_edges.
  destruct (omap_resolve_mutation symbols (index_variables symbols) mutations)
    as (H1 & H2 & H3).
  simpl in H1, H2, H3. repeat split.
  - by rewrite H1.
  - by rewrite sorted_by_length.
  - rewrite sorted_by_length, H2. apply filter_length_le.
  - apply Forall_forall. intros e He.
    apply (proj1 (sorted_by_elem _ _ _)) in He.
    by eapply Forall_forall in H3.
  - vm_compute. lia.
Qed.

End MutationOrphans.

(** ** Impact engine: the traversal returns *)

Section Traversal.

Lemma adj_get_all_callers (reverse_edges : gmap string (gset string)) (node : string) :
  adj_get reverse_edges node ⊆ all_callers reverse_edges.
Proof.
  unfold adj_get, all_callers.
  destruct (reverse_edges !! node) as [s|] eqn:E; simpl; [|set_solver].
  intros x Hx. apply elem_of_union_list. exists s. split; [|done].
  apply list_elem_of_fmap. exists (node, s). split; [done|].
  by apply elem_of_map_to_list.
Qed.

(** Visiting callers keeps (queue length + ids not yet seen) unchanged. *)
Lemma visit_callers_measure (U : gset string) (depth : Z) (cs : list string)
    (seen : gset string) (queue : list (string * Z)) :
  (forall c, c ∈ cs -> c ∈ U) ->
  (length (snd (fold_left (visit_caller depth) cs (seen, queue)))
   + size (U ∖ fst (fold_left (visit_caller depth) cs (seen, queue)))
   = length queue + size (U ∖ seen))%nat.
Proof.
  revert seen queue. induction cs as [|c cs IH]; intros seen queue HU; [done|].
  assert (HU' : forall c', c' ∈ cs -> c' ∈ U) by (intros; apply HU; set_solver).
  cbn [fold_left]. unfold visit_caller at 2 4.
  destruct (decide (c ∈ seen)) as [Hin|Hnin].
  - by apply IH.
  - rewrite (IH ({[c]} ∪ seen) (queue ++ [(c, depth + 1)]) HU').
    rewrite length_app. cbn [length].
    assert (Hc : c ∈ U) by (apply HU; set_solver).
    assert (Hsplit : U ∖ seen = {[c]} ∪ U ∖ ({[c]} ∪ seen)).
    { apply set_eq. intros x. destruct (decide (x = c)) as [->|]; set_solver. }
    rewrite Hsplit.
    rewrite (size_union (C:=gset string) {[c]} (U ∖ ({[c]} ∪ seen))) by set_solver.
    rewrite size_singleton. lia.
Qed.

Lemma bfs_loop_terminates (reverse_edges : gmap string (gset string)) (fuel : nat)
    (queue : list (string * Z)) (seen : gset string) :
  (length queue + size (all_callers reverse_edges ∖ seen) < fuel)%nat ->
  is_Some (bfs_loop fuel reverse_edges queue seen).
Proof.
  revert queue seen. induction fuel as [|fuel IH]; intros queue seen Hlt; [lia|].
  simpl. destruct queue as [|[node depth] rest]; [eauto|].
  simpl in Hlt. destruct (2 <=? depth).
  - apply IH. lia.
  - pose proof (visit_callers_measure (all_callers reverse_edges) depth
                  (elements (adj_get reverse_edges node)) seen rest) as Hm.
    destruct (fold_left _ _ _) as [seen' queue']. cbn [fst snd] in Hm.
    apply IH. rewrite Hm; [lia|].
    intros c Hc. apply elem_of_elements in Hc.
    by apply (adj_get_all_callers reverse_edges node).
Qed.

Lemma reverse_reachable_total (target : string)
    (reverse_edges : gmap string (gset string)) :
  is_Some (_reverse_reachable_depth_two target reverse_edges).
Proof.
  apply bfs_loop_terminates. unfold bfs_fuel. simpl.
  rewrite difference_empty_L. lia.
Qed.

Lemma symbol_metric_total scan counts cultures symbol :
  is_Some (symbol_metric scan counts cultures symbol).
Proof.
  unfold symbol_metric.
  destruct (reverse_reachable_total (sym_id symbol) (callers scan)) as [r ->].
  simpl. eauto.
Qed.

Lemma symbol_metrics_loop_total scan counts cultures symbols acc :
  is_Some (symbol_metrics_loop scan counts cultures symbols acc).
Proof.
  revert acc. induction symbols as [|s symbols IH]; intros acc; simpl; [eauto|].
  destruct (symbol_metric_total scan counts cultures s) as [m ->]. simpl. apply IH.
Qed.

Lemma compute_impact_total symbols edges_calls edges_mutations cultures :
  is_Some (compute_impact symbols edges_calls edges_mutations cultures).
Proof.
  unfold compute_impact.
  destruct (symbol_metrics_loop_total (scan_call_edges edges_calls)
              (count_mutations edges_mutations) cultures symbols ∅) as [m ->].
  simpl. eauto.
Qed.

Lemma symbol_metrics_loop_other scan counts cultures symbols acc res k :
  symbol_metrics_loop scan counts cultures symbols acc = Some res ->
  k ∉ map sym_id symbols -> res !! k = acc !! k.
Proof.
  revert acc. induction symbols as [|s symbols IH]; intros acc Hres Hk; simpl in *.
  - by injection Hres as <-.
  - destruct (symbol_metric scan counts cultures s) as [m|]; [|done]. simpl in Hres.
    rewrite (IH _ Hres) by set_solver.
    apply lookup_insert_ne. set_solver.
Qed.

Lemma symbol_metrics_loop_lookup scan counts cultures symbols acc res s :
  NoDup (map sym_id symbols) ->
  symbol_metrics_loop scan counts cultures symbols acc = Some res ->
  s ∈ symbols ->
  res !! sym_id s = symbol_metric scan counts cultures s.
Proof.
  revert acc. induction symbols as [|x symbols IH]; intros acc Hnd Hres Hin;
    [by apply elem_of_nil in Hin|].
  simpl in Hnd, Hres. apply NoDup_cons in Hnd as [Hx Hnd].
  destruct (symbol_metric scan counts cultures x) as [m|] eqn:Hm; [|done].
  simpl in Hres. apply elem_of_cons in Hin as [->|Hin].
  - rewrite (symbol_metrics_loop_other _ _ _ _ _ _ _ Hres Hx).
    by rewrite lookup_insert_eq.
  - by eapply IH.
Qed.

Lemma dict_get_elem {V} (d : pydict V) (k : string) (v : V) :
  NoDup (map fst d) -> dict_get d k = Some v <-> (k, v) ∈ d.
Proof.
  unfold dict_get. induction d as [|[k' v'] d IH]; intros Hnd; simpl.
  - split; [done|]. intros Hin. by apply elem_of_nil in Hin.
  - simpl in Hnd. apply NoDup_cons in Hnd as [Hk' Hnd].
    destruct (String.eqb_spec k' k) as [->|Hne]; simpl.
    + split.
      * intros [= ->]. by left.
      * intros Hin. apply elem_of_cons in Hin as [[= ->]|Hin]; [done|].
        exfalso. apply Hk'. apply list_elem_of_fmap. by exists (k, v).
    + rewrite (IH Hnd). split.
      * intros Hin. by right.
      * intros Hin. apply elem_of_cons in Hin as [[= -> ->]|Hin]; [done|done].
Qed.

Lemma sorted_items_NoDup {V} (m : gmap string V) : NoDup (map fst (sorted_items m)).
Proof.
  unfold sorted_items.
  assert (Hp : map fst (sorted_by fst (map_to_list m)) ≡ₚ map fst (map_to_list m)).
  { apply Permutation_map, sorted_by_perm. }
  rewrite Hp. apply NoDup_fst_map_to_list.
Qed.

Lemma dict_get_sorted_items {V} (m : gmap string V) (k : string) :
  dict_get (sorted_items m) k = m !! k.
Proof.
  apply option_eq. intros v.
  rewrite (dict_get_elem _ _ _ (sorted_items_NoDup m)).
  unfold sorted_items. rewrite sorted_by_elem. apply elem_of_map_to_list.
Qed.

End Traversal.

(** ** Impact engine: what the traversal returns *)

Section TraversalResult.
Variable reverse_edges : gmap string (gset string).

(** Callers of the queue entries that will still be expanded. *)
Definition pending_callers (queue : list (string * Z)) : gset string :=
  ⋃ (map (fun entry => if 2 <=? snd entry then ∅ else adj_get reverse_edges (fst entry))
       queue).

Lemma visit_callers_fresh (depth : Z) (cs : list string) (seen : gset string)
    (queue : list (string * Z)) :
  NoDup cs -> (forall c, c ∈ cs -> c ∉ seen) ->
  fold_left (visit_caller depth) cs (seen, queue)
  = (list_to_set cs ∪ seen, queue ++ map (fun c => (c, depth + 1)) cs).
Proof.
  revert seen queue. induction cs as [|c cs IH]; intros seen queue Hnd Hnew.
  - cbn. rewrite app_nil_r. f_equal. set_solver.
  - apply NoDup_cons in Hnd as [Hc Hnd].
    cbn [fold_left]. unfold visit_caller at 2.
    rewrite decide_False by (apply Hnew; set_solver).
    rewrite IH; [|done|].
    + cbn [map]. rewrite <- app_assoc. f_equal. set_solver.
    + intros x Hx. specialize (Hnew x). set_solver.
Qed.

Lemma visit_callers_seen (depth : Z) (cs : list string) (seen : gset string)
    (queue : list (string * Z)) :
  exists extra,
    fold_left (visit_caller depth) cs (seen, queue)
    = (list_to_set cs ∪ seen, queue ++ extra)
    /\ Forall (fun entry => snd entry = depth + 1) extra.
Proof.
  revert seen queue. induction cs as [|c cs IH]; intros seen queue.
  - exists []. cbn. rewrite app_nil_r. split; [f_equal; set_solver|constructor].
  - cbn [fold_left]. unfold visit_caller at 2.
    destruct (decide (c ∈ seen)) as [Hin|Hnin].
    + destruct (IH seen queue) as (extra & -> & Hd).
      exists extra. split; [f_equal; set_solver|done].
    + destruct (IH ({[c]} ∪ seen) (queue ++ [(c, depth + 1)])) as (extra & -> & Hd).
      exists ((c, depth + 1) :: extra). rewrite <- app_assoc.
      split; [f_equal; set_solver|by constructor].
Qed.

Lemma pending_callers_app q1 q2 :
  pending_callers (q1 ++ q2) = pending_callers q1 ∪ pending_callers q2.
Proof. unfold pending_callers. rewrite map_app. apply leibniz_equiv, union_list_app. Qed.

Lemma pending_callers_done q :
  Forall (fun entry => snd entry = 2) q -> pending_callers q = ∅.
Proof.
  unfold pending_callers. induction 1 as [|[n d] q Hd _ IH]; [done|].
  cbn in Hd. subst d. cbn. rewrite IH. set_solver.
Qed.

Lemma bfs_loop_cons (fuel : nat) (node : string) (depth : Z)
    (rest : list (string * Z)) (seen : gset string) :
  bfs_loop (S fuel) reverse_edges ((node, depth) :: rest) seen
  = if 2 <=? depth then bfs_loop fuel reverse_edges rest seen
    else
      let '(seen', queue') :=
        fold_left (visit_caller depth) (elements (adj_get reverse_edges node))
          (seen, rest) in
      bfs_loop fuel reverse_edges queue' seen'.
Proof. reflexivity. Qed.

(** Once the start symbol is expanded, the loop adds the callers of the
    depth-1 entries to what was seen and nothing else. *)
Lemma bfs_loop_drain (fuel : nat) (queue : list (string * Z)) (seen r : gset string) :
  Forall (fun entry => 1 <= snd entry) queue ->
  bfs_loop fuel reverse_edges queue seen = Some r ->
  r = seen ∪ pending_callers queue.
Proof.
  revert queue seen. induction fuel as [|fuel IH]; intros queue seen Hq Hr; [done|].
  cbn [bfs_loop] in Hr. destruct queue as [|[node depth] rest].
  - injection Hr as <-. unfold pending_callers. cbn. set_solver.
  - apply Forall_cons in Hq as [Hd Hq]. cbn [snd] in Hd.
    change ((node, depth) :: rest) with ([(node, depth)] ++ rest).
    rewrite pending_callers_app. unfold pending_callers at 1. cbn [map fst snd].
    destruct (2 <=? depth) eqn:Hdepth.
    + rewrite (IH _ _ Hq Hr). cbn. set_solver.
    + destruct (visit_callers_seen depth (elements (adj_get reverse_edges node))
                  seen rest) as (extra & Hfold & Hextra).
      rewrite Hfold in Hr. apply Z.leb_gt in Hdepth.
      assert (Hextra2 : Forall (fun entry => snd entry = 2) extra).
      { eapply Forall_impl; [exact Hextra|]. intros e He. cbn in He. lia. }
      apply IH in Hr.
      * rewrite Hr, pending_callers_app, (pending_callers_done extra Hextra2).
        rewrite list_to_set_elements_L. cbn. set_solver.
      * apply Forall_app. split; [done|].
        eapply Forall_impl; [exact Hextra2|]. intros e He. cbn in He. lia.
Qed.

(** The set returned for [target]: its callers and their callers.  Nothing
    removes [target] from it. *)
Lemma reverse_reachable_depth_two_result (target : string) :
  _reverse_reachable_depth_two target reverse_edges
  = Some (adj_get reverse_edges target
          ∪ ⋃ (adj_get reverse_edges <$> elements (adj_get reverse_edges target))).
Proof.
  destruct (reverse_reachable_total target reverse_edges) as [r Hr].
  rewrite Hr. f_equal.
  unfold _reverse_reachable_depth_two, bfs_fuel in Hr.
  change (2 + ?n)%nat with (S (S n)) in Hr.
  rewrite bfs_loop_cons in Hr. change (2 <=? 0) with false in Hr. cbv iota in Hr.
  rewrite visit_callers_fresh in Hr;
    [|apply NoDup_elements|intros; apply not_elem_of_empty].
  apply bfs_loop_drain in Hr.
  - rewrite Hr, list_to_set_elements_L. unfold pending_callers.
    rewrite app_nil_l, map_map. cbn [fst snd].
    change (2 <=? 0 + 1) with false. cbv iota.
    rewrite union_empty_r_L. done.
  - rewrite app_nil_l. apply Forall_forall. intros e He.
    apply list_elem_of_fmap in He as (c & -> & _). cbn. lia.
Qed.

(** The symbol is counted among its own depth-2 callers exactly when it
    calls itself or lies on a call cycle of length 2. *)
Lemma reverse_reachable_contains_target (target : string) (r : gset string) :
  _reverse_reachable_depth_two target reverse_edges = Some r ->
  target ∈ r
  <-> target ∈ adj_get reverse_edges target
      \/ exists caller, caller ∈ adj_get reverse_edges target
                        /\ target ∈ adj_get reverse_edges caller.
Proof.
  rewrite reverse_reachable_depth_two_result. intros [= <-].
  rewrite elem_of_union, elem_of_union_list. split.
  - intros [Hd|(X & HX & Hin)]; [by left|right].
    apply list_elem_of_fmap in HX as (c & -> & Hc).
    exists c. split; [by apply elem_of_elements|done].
  - intros [Hd|(c & Hc & Hin)]; [by left|right].
    exists (adj_get reverse_edges c). split; [|done].
    apply list_elem_of_fmap. exists c. split; [done|by apply elem_of_elements].
Qed.

End TraversalResult.

(** ** Impact engine: the composite score *)

Section CompositeScore.

(** The score formula in the specification's words. *)
Definition composite_score (direct_callers depth2_callers fan_out mutation_count : Z)
    (visibility culture : string) : Q :=
  round4
    ((inject_Z direct_callers * 1
      + inject_Z depth2_callers * (5 # 10)
      + inject_Z fan_out * (7 # 10)
      + inject_Z mutation_count * (35 # 100)
      + (if bool_decide (visibility = "public" \/ visibility = "open")
         then 2 else 0))
     * (if bool_decide (culture = "Law") then 14 # 10
        else if bool_decide (culture = "View") then 8 # 10
        else if bool_decide (culture = "Auditor") then 2 # 10
        else 1))%Q.




Definition chain_symbols : list Symbol :=
  [mkSymbol "A" "a" "a()" "function" 0 "global" "public" "/tmp/law.swift" 1;
   mkSymbol "B" "b" "b()" "function" 0 "global" "internal" "/tmp/citizen.swift" 1;
   mkSymbol "C" "c" "c()" "function" 0 "global" "internal" "/tmp/citizen.swift" 5].

Definition resolved_call (source target : string) : CallEdge :=
  mkCallEdge source (Some target) target [target] "resolved" 1%Q None 0 1.

Definition chain_calls : list CallEdge := [resolved_call "B" "A"; resolved_call "C" "B"].

Definition chain_cultures : gmap string string :=
  <["/tmp/law.swift" := "Law"]> (<["/tmp/citizen.swift" := "Citizen"]> ∅).

(** The chain C -> B -> A of the impact test: A has one direct caller, two
    depth-2 callers and score (1 + 1 + 2) x 1.4. *)
Example chain_impact_of_A :
  (fun m => (si_direct_callers m, si_depth2_callers m, si_score m))
    <$> (compute_impact chain_symbols chain_calls [] chain_cultures
         ≫= fun impact => dict_get (imp_symbols impact) "A")
  = Some (1, 2, (56000 # 10000)%Q).
Proof. reflexivity. Qed.

End CompositeScore.

(** ** Impact engine: depth-2 callers on a call cycle *)

Section DepthTwo.

(** Depth-2 callers in the specification's words: what is reachable in at
    most two hops of reverse resolved-call adjacency, without the symbol
    itself. *)
Definition callers_within_two (reverse_edges : gmap string (gset string))
    (target : string) : gset string :=
  (adj_get reverse_edges target
   ∪ ⋃ (adj_get reverse_edges <$> elements (adj_get reverse_edges target)))
  ∖ {[target]}.

Definition cycle_symbols : list Symbol :=
  [mkSymbol "A" "ping" "ping()" "function" 0 "global" "internal" "/tmp/a.swift" 1;
   mkSymbol "B" "pong" "pong()" "function" 0 "global" "internal" "/tmp/b.swift" 1].

(** A calls B and B calls A. *)
Definition cycle_calls : list CallEdge := [resolved_call "A" "B"; resolved_call "B" "A"].

Definition cycle_graph : Graph :=
  {| g_meta := None;
     g_files := Some [];
     g_symbols := Some cycle_symbols;
     g_edges_calls := Some cycle_calls;
     g_edges_mutations := Some [];
     g_edges_depends_on := Some [];
     g_impact := compute_impact cycle_symbols cycle_calls [] ∅;
     g_indexes := Some [] |}.

(** C4 at its failing input. On the cycle A <-> B the traversal of the
    impact engine returns both B and A itself as depth-2 callers of A, and
    the impact table records 2, where the specification's set is {B}; the
    query engine's own traversal over the same edges starts from
    [seen = {start}] and returns B only. *)
Theorem depth2_callers_count_symbol_on_cycle :
  _reverse_reachable_depth_two "A" (callers (scan_call_edges cycle_calls))
  = Some ({["A"]} ∪ {["B"]})
  /\ (si_depth2_callers <$> dict_get (graph_impact_symbols cycle_graph) "A") = Some 2
  /\ callers_within_two (callers (scan_call_edges cycle_calls)) "A" = {["B"]}
  /\ _bfs (new_engine cycle_graph) "A" true 2 = Some {["B" := 1]}.
Proof. repeat split; by vm_compute. Qed.

End DepthTwo.

(** ** Refactor guardrail *)

Section GuardrailPolicy.

(** The decision tree in the specification's words. *)
Definition policy_tag (culture : string) (direct_callers fan_out unresolved_count : Z)
    (unresolved_min_conf : Q) : string :=
  if bool_decide (culture = "Auditor") then "auditor_advisory"
  else if bool_decide (0 < unresolved_count)
          && Qltb unresolved_min_conf (75 # 100)%Q
  then "high_risk_manual_review"
  else if bool_decide (culture = "Law") && bool_decide (100 <= direct_callers)
  then "hard_block_signature_change"
  else if bool_decide (culture = "View") then "view_soft_warn"
  else if bool_decide (culture = "Citizen")
          && bool_decide (40 <= direct_callers + fan_out)
  then "citizen_high_surface"
  else "allow_change_with_tests".

Lemma eqb_decide (a b : string) : String.eqb a b = bool_decide (a = b).
Proof.
  destruct (String.eqb_spec a b).
  - by rewrite bool_decide_eq_true_2.
  - by rewrite bool_decide_eq_false_2.
Qed.

Lemma ltb_decide (a b : Z) : (a <? b) = bool_decide (a < b).
Proof.
  destruct (Z.ltb_spec a b).
  - by rewrite bool_decide_eq_true_2.
  - rewrite bool_decide_eq_false_2; [done|lia].
Qed.

Lemma leb_decide (a b : Z) : (a <=? b) = bool_decide (a <= b).
Proof.
  destruct (Z.leb_spec a b).
  - by rewrite bool_decide_eq_true_2.
  - rewrite bool_decide_eq_false_2; [done|lia].
Qed.

(** The code's chain with its tests written as decisions. *)
Lemma guardrail_decision_tag culture direct_callers fan_out unresolved_count conf :
  fst (guardrail_decision culture direct_callers fan_out unresolved_count conf)
  = if bool_decide (culture = "Auditor") then "auditor_advisory"
    else if bool_decide (0 < unresolved_count) && Qltb conf (75 # 100)%Q
    then "high_risk_manual_review"
    else if bool_decide (culture = "Law") && bool_decide (100 <= direct_callers)
    then "hard_block_signature_change"
    else if bool_decide (culture = "View") then "view_soft_warn"
    else if bool_decide (40 <= direct_callers + fan_out) then "citizen_high_surface"
    else "allow_change_with_tests".
Proof.
  unfold guardrail_decision, CULTURE_AUDITOR, CULTURE_LAW, CULTURE_VIEW,
    LAW_HARD_BLOCK_CALLER_THRESHOLD, AMBIGUITY_CONFIDENCE_THRESHOLD.
  rewrite !eqb_decide, ltb_decide, !leb_decide.
  repeat match goal with
         | |- context [if ?b then _ else _] => destruct b
         end; reflexivity.
Qed.

(** The code agrees with the policy whenever rule 5 is not reached by a
    symbol that is not Citizen. *)
Lemma guardrail_decision_policy culture direct_callers fan_out unresolved_count conf :
  culture = "Citizen" \/ direct_callers + fan_out < 40
  \/ culture = "Auditor" \/ culture = "View"
  \/ (0 < unresolved_count /\ Qltb conf (75 # 100)%Q = true)
  \/ (culture = "Law" /\ 100 <= direct_callers) ->
  fst (guardrail_decision culture direct_callers fan_out unresolved_count conf)
  = policy_tag culture direct_callers fan_out unresolved_count conf.
Proof.
  intros Hcase. rewrite guardrail_decision_tag. unfold policy_tag.
  destruct (Qltb conf (75 # 100)) eqn:Hq; repeat case_bool_decide;
    cbn [andb]; try reflexivity; exfalso;
    destruct Hcase as [?|[?|[?|[?|[[? ?]|[? ?]]]]]];
    first [lia | congruence].
Qed.

(** The hard-block tag is produced by rule 3 only, and low-confidence
    unresolved evidence on a symbol that is not Auditor always yields
    manual review. *)
Lemma guardrail_decision_hard_block culture direct_callers fan_out unresolved_count conf :
  fst (guardrail_decision culture direct_callers fan_out unresolved_count conf)
  = "hard_block_signature_change"
  <-> culture = "Law" /\ 100 <= direct_callers
      /\ ~ (0 < unresolved_count /\ Qltb conf (75 # 100)%Q = true).
Proof.
  rewrite guardrail_decision_tag.
  destruct (Qltb conf (75 # 100)) eqn:Hq; repeat case_bool_decide;
    cbn [andb]; (split; [try discriminate; intros _|intros (? & ? & Hn)]);
    first [done | lia | congruence | by (exfalso; apply Hn) | idtac].
  all: repeat split; try done; try lia; intros [? ?]; first [lia|congruence].
Qed.

Lemma guardrail_decision_fail_closed culture direct_callers fan_out unresolved_count conf :
  culture <> "Auditor" -> 0 < unresolved_count -> Qltb conf (75 # 100)%Q = true ->
  fst (guardrail_decision culture direct_callers fan_out unresolved_count conf)
  = "high_risk_manual_review".
Proof.
  intros Hc Hu Hq. rewrite guardrail_decision_tag, Hq.
  by rewrite bool_decide_eq_false_2, bool_decide_eq_true_2.
Qed.

(** refactor_guardrail answers for every symbol of the graph, with the tag
    of the decision chain on the metrics it reports, and sets [hard_block]
    exactly for the hard-block tag. *)
Lemma refactor_guardrail_known (g : Graph) (symbol : Symbol) :
  symbol ∈ graph_symbols g ->
  exists r,
    refactor_guardrail (new_engine g) (sym_id symbol) = Some r
    /\ gr_guardrail r
       = fst (guardrail_decision (gr_culture r) (gr_direct_callers r) (gr_fan_out r)
                (gr_unresolved_count r) (gr_unresolved_min_confidence r))
    /\ gr_hard_block r = bool_decide (gr_guardrail r = "hard_block_signature_change").
Proof.
  intros Hin. unfold refactor_guardrail. cbn [symbol_by_id new_engine].
  destruct (dict_by_is_Some sym_id (graph_symbols g) (sym_id symbol)) as [_ Hs].
  destruct Hs as [s ->]; [apply list_elem_of_fmap; eauto|].
  destruct (guardrail_decision _ _ _ _ _) as [tag reason] eqn:Hdec.
  eexists. split; [reflexivity|].
  cbn [gr_guardrail gr_culture gr_direct_callers gr_fan_out gr_unresolved_count
       gr_unresolved_min_confidence gr_hard_block].
  rewrite Hdec. split; [done|apply eqb_decide].
Qed.

(** A Law symbol with 50 direct callers and no unresolved evidence. *)
Definition law_graph : Graph :=
  {| g_meta := None;
     g_files := Some [mkFileRecord "/tmp/law.swift" "Config/law.swift" "h" "Law" 0 1 0 0];
     g_symbols :=
       Some [mkSymbol "LAW" "rate" "rate()" "function" 0 "global" "public"
               "/tmp/law.swift" 1];
     g_edges_calls := Some [];
     g_edges_mutations := Some [];
     g_edges_depends_on := Some [];
     g_impact :=
       Some {| imp_symbols :=
                 [("LAW", mkSymbolImpact 50 60 3 0 0%Q true (14 # 10)%Q (88 # 1)%Q
                            0 1%Q 1%Q)];
               imp_files := [] |};
     g_indexes := Some [] |}.

(** C1 at its failing input. The Law symbol with 50 direct callers is
    tagged [citizen_high_surface], with the reason given for Citizen
    symbols, where the policy's rule 5 is for Citizen symbols only and its
    rule 6 gives [allow_change_with_tests]. *)
Theorem guardrail_law_symbol_tagged_citizen :
  (fun r => (gr_culture r, gr_guardrail r, gr_hard_block r, gr_reason r))
    <$> refactor_guardrail (new_engine law_graph) "LAW"
  = Some ("Law", "citizen_high_surface", false,
          "Citizen symbol has high connectivity; stage refactor with compatibility shims.")
  /\ policy_tag "Law" 50 3 0 1%Q = "allow_change_with_tests".
Proof. split; by vm_compute. Qed.

End GuardrailPolicy.

(** ** Guardrail: which unresolved evidence is consulted *)

Section UnresolvedEvidence.

(** The unresolved call evidence on [sid], in the specification's words:
    the confidences of the ambiguous and external call edges that have
    [sid] as source, then of those that list it as a candidate. *)
Definition is_unresolved_call (edge : CallEdge) : bool :=
  is_unresolved (ce_resolution edge) && truthy (ce_source edge).

Definition unresolved_call_scores (edges_calls : list CallEdge) (sid : string)
  : list Q :=
  map ce_confidence
    (List.filter (fun e => is_unresolved_call e && String.eqb (ce_source e) sid)
       edges_calls)
  ++ flat_map
       (fun e =>
          if is_unresolved_call e
          then map (fun _ => ce_confidence e)
                 (List.filter (fun c => String.eqb c sid) (ce_target_candidates e))
          else [])
       edges_calls.

(** C5 as the specification states it: a symbol that is not Auditor and
    whose only unresolved edges are mutation edges, one of them below the
    threshold, is sent to manual review. *)
Definition fail_closed_on_mutation_evidence : Prop :=
  forall (sha256_hex str_lower : string -> string) (st : BuildState) (g : Graph)
         (sid : string) (r : Guardrail),
    build_graph sha256_hex str_lower None st = Some g ->
    unresolved_call_scores (graph_edges_calls g) sid = [] ->
    Exists (fun e => me_source e = sid
                     /\ is_unresolved (me_resolution e) = true
                     /\ Qltb (me_confidence e) AMBIGUITY_CONFIDENCE_THRESHOLD = true)
      (graph_edges_mutations g) ->
    refactor_guardrail (new_engine g) sid = Some r ->
    gr_culture r <> CULTURE_AUDITOR ->
    gr_guardrail r = "high_risk_manual_review".

(** [bump] assigns to [count]; two functions of the same file each declare
    a local [count], so the mutation edge is ambiguous with confidence 0.5. *)
Definition counter_state : BuildState :=
  {| bs_repo_root := "/repo";
     bs_repo_digest := "no-git";
     bs_files_total := 1;
     bs_symbols :=
       [mkSymbol "/repo/a.swift::A::bump()::L3" "bump" "bump()" "function" 0 "A"
          "internal" "/repo/a.swift" 3;
        mkSymbol "/repo/a.swift::one()::count::L10" "count" "count" "variable" 0
          "one()" "internal" "/repo/a.swift" 10;
        mkSymbol "/repo/a.swift::two()::count::L20" "count" "count" "variable" 0
          "two()" "internal" "/repo/a.swift" 20];
     bs_calls := [];
     bs_mutations :=
       [mkMutationEvent "/repo/a.swift::A::bump()::L3" "count" "variable" 4
          (Some (8 # 10)%Q)];
     bs_files_payload :=
       [mkFileRecord "/repo/a.swift" "a.swift" "h1" "Citizen" 1 1 2 1];
     bs_culture_by_file := {["/repo/a.swift" := "Citizen"]};
     bs_file_hash_pairs := [("a.swift", "h1")];
     bs_now := "2024-01-01T00:00:00+00:00";
     bs_duration_ms := 5;
     bs_files_reparsed := 1;
     bs_files_reused := 0 |}.

Definition counter_graph : Graph :=
  default (mkGraph None None None None None None None None)
    (build_graph id id None counter_state).

Example counter_graph_mutation_edge :
  map (fun e => (me_source e, me_resolution e, me_confidence e))
    (graph_edges_mutations counter_graph)
  = [("/repo/a.swift::A::bump()::L3", "ambiguous", (5000 # 10000)%Q)].
Proof. by vm_compute. Qed.

(** C5 as stated fails: the only unresolved edge of [bump] is an ambiguous
    mutation edge with confidence 0.5, and the guardrail allows the change. *)
Lemma mutation_evidence_not_consulted : ~ fail_closed_on_mutation_evidence.
Proof.
  intros Hclaim.
  pose (r := default (mkGuardrail "" "" "" "" 0 0 0 0 0%Q "" false "" "" [] [])
               (refactor_guardrail (new_engine counter_graph)
                  "/repo/a.swift::A::bump()::L3")).
  assert (Hr : gr_guardrail r = "allow_change_with_tests") by (by vm_compute).
  specialize (Hclaim id id counter_state counter_graph
                "/repo/a.swift::A::bump()::L3" r).
  rewrite Hclaim in Hr;
    [discriminate|by vm_compute|by vm_compute| |by vm_compute|by vm_compute].
  vm_compute. apply Exists_cons_hd. by repeat split.
Qed.

Lemma scan_call_edge_unresolved (acc : EdgeScan) (e : CallEdge) :
  scan_call_edge acc e
  = if is_unresolved_call e
    then {| callers := callers acc;
            callees := callees acc;
            unresolved_outbound :=
              dd_append (ce_source e) (ce_confidence e) (unresolved_outbound acc);
            unresolved_inbound :=
              fold_left (fun m candidate => dd_append candidate (ce_confidence e) m)
                (ce_target_candidates e) (unresolved_inbound acc) |}
    else {| callers := callers (scan_call_edge acc e);
            callees := callees (scan_call_edge acc e);
            unresolved_outbound := unresolved_outbound acc;
            unresolved_inbound := unresolved_inbound acc |}.
Proof.
  unfold scan_call_edge, is_unresolved_call, is_unresolved,
    EDGE_RESOLUTION_AMBIGUOUS, EDGE_RESOLUTION_EXTERNAL.
  destruct (String.eqb_spec (ce_resolution e) "resolved") as [->|_].
  - cbn [String.eqb Ascii.eqb Bool.eqb orb andb].
    by destruct (truthy (ce_source e) && truthy_opt (ce_target e)), acc.
  - cbn [andb].
    by destruct ((String.eqb (ce_resolution e) "ambiguous"
                  || String.eqb (ce_resolution e) "external")
                 && truthy (ce_source e)), acc.
Qed.

(** The two [defaultdict]s of unresolved confidences hold exactly the
    unresolved call evidence. *)
Lemma scan_unresolved_scores sid edges acc :
  dd_get (unresolved_outbound (fold_left scan_call_edge edges acc)) sid
  = dd_get (unresolved_outbound acc) sid
    ++ map ce_confidence
         (List.filter (fun e => is_unresolved_call e && String.eqb (ce_source e) sid)
            edges)
  /\ dd_get (unresolved_inbound (fold_left scan_call_edge edges acc)) sid
     = dd_get (unresolved_inbound acc) sid
       ++ flat_map
            (fun e =>
               if is_unresolved_call e
               then map (fun _ => ce_confidence e)
                      (List.filter (fun c => String.eqb c sid) (ce_target_candidates e))
               else [])
            edges.
Proof.
  revert acc. induction edges as [|e edges IH]; intros acc.
  - cbn. by rewrite !app_nil_r.
  - cbn [fold_left List.filter flat_map]. destruct (IH (scan_call_edge acc e)) as [-> ->].
    rewrite scan_call_edge_unresolved.
    destruct (is_unresolved_call e); cbn [andb unresolved_outbound unresolved_inbound].
    + split.
      * rewrite dd_get_append, <- app_assoc. f_equal.
        destruct (String.eqb_spec (ce_source e) sid) as [Heq|Hne].
        -- by rewrite decide_True.
        -- by rewrite decide_False.
      * rewrite (dd_fold_group (fun _ => true) id (fun _ => ce_confidence e)).
        rewrite <- app_assoc. do 2 f_equal. cbn [andb].
        f_equal. apply filter_ext. intros c. rewrite eqb_decide.
        apply bool_decide_ext. naive_solver.
    + by rewrite app_nil_l.
Qed.

Lemma symbol_metrics_loop_inv scan counts cultures symbols acc res k m :
  symbol_metrics_loop scan counts cultures symbols acc = Some res ->
  res !! k = Some m ->
  acc !! k = Some m
  \/ exists s, s ∈ symbols /\ sym_id s = k
               /\ symbol_metric scan counts cultures s = Some m.
Proof.
  revert acc. induction symbols as [|x symbols IH]; intros acc Hres Hk; simpl in Hres.
  - injection Hres as <-. by left.
  - destruct (symbol_metric scan counts cultures x) as [mx|] eqn:Hx; [|done].
    simpl in Hres. destruct (IH _ Hres Hk) as [Hacc|(s & Hin & Hid & Hs)].
    + destruct (decide (sym_id x = k)) as [Heq|Hne].
      * rewrite Heq, lookup_insert_eq in Hacc. injection Hacc as ->.
        right. exists x. split; [by left|done].
      * rewrite lookup_insert_ne in Hacc by done. by left.
    + right. exists s. split; [by right|done].
Qed.

Lemma symbol_metrics_loop_dom scan counts cultures symbols acc res k :
  symbol_metrics_loop scan counts cultures symbols acc = Some res ->
  k ∈ map sym_id symbols -> is_Some (res !! k).
Proof.
  revert acc. induction symbols as [|y symbols IH]; intros acc Hres Hk;
    [by apply elem_of_nil in Hk|].
  cbn [symbol_metrics_loop] in Hres.
  destruct (symbol_metric scan counts cultures y) as [my|]; [|done].
  cbn [mbind option_bind] in Hres.
  destruct (decide (k ∈ map sym_id symbols)) as [Hlater|Hlast]; [by eapply IH|].
  cbn [map] in Hk. apply elem_of_cons in Hk as [->|Hk]; [|done].
  rewrite (symbol_metrics_loop_other _ _ _ _ _ _ _ Hres Hlast).
  rewrite lookup_insert_eq. eauto.
Qed.

Lemma guardrail_decision_no_evidence culture direct_callers fan_out conf :
  fst (guardrail_decision culture direct_callers fan_out 0 conf)
  <> "high_risk_manual_review".
Proof.
  unfold guardrail_decision. simpl.
  repeat match goal with
         | |- context [if ?b then _ else _] => destruct b
         end; simpl; discriminate.
Qed.

(** The minimum-confidence statistic of a list of confidences: 1.0 for no
    evidence, else the minimum, rounded to 4 places. *)
Definition min_confidence (scores : list Q) : Q :=
  match scores with
  | [] => 1%Q
  | x :: rest => round4 (to_double (py_min_list x rest))
  end.

(** The manual-review tag is produced by rule 2 only. *)
Lemma guardrail_decision_manual_review culture direct_callers fan_out unresolved_count
    conf :
  fst (guardrail_decision culture direct_callers fan_out unresolved_count conf)
  = "high_risk_manual_review"
  <-> culture <> "Auditor" /\ 0 < unresolved_count /\ Qltb conf (75 # 100)%Q = true.
Proof.
  rewrite guardrail_decision_tag.
  destruct (Qltb conf (75 # 100)) eqn:Hq; repeat case_bool_decide;
    cbn [andb]; (split; [try discriminate; intros _|intros (? & ? & ?)]);
    first [done | lia | congruence | idtac].
Qed.

(** The record of a symbol of the build holds the count and the minimum of
    the unresolved call evidence on it. *)
Lemma impact_unresolved_statistics (symbols : list Symbol) (edges_calls : list CallEdge)
    (edges_mutations : list MutationEdge) (culture_by_file : gmap string string)
    (g : Graph) (sid : string) :
  g_impact g = compute_impact symbols edges_calls edges_mutations culture_by_file ->
  (sid ∈ map sym_id symbols ->
   exists m,
     dict_get (graph_impact_symbols g) sid = Some m
     /\ si_unresolved_count m
        = Z.of_nat (length (unresolved_call_scores edges_calls sid))
     /\ si_unresolved_min_confidence m
        = min_confidence (unresolved_call_scores edges_calls sid))
  /\ (unresolved_call_scores edges_calls sid = [] ->
      default 0 (si_unresolved_count <$> dict_get (graph_impact_symbols g) sid) = 0).
Proof.
  intros Himpact.
  assert (Hscores : forall s, sym_id s = sid ->
            dd_get (unresolved_outbound (scan_call_edges edges_calls)) (sym_id s)
            ++ dd_get (unresolved_inbound (scan_call_edges edges_calls)) (sym_id s)
            = unresolved_call_scores edges_calls sid).
  { intros s ->. unfold scan_call_edges.
    destruct (scan_unresolved_scores sid edges_calls (mkEdgeScan ∅ ∅ ∅ ∅))
      as [-> ->].
    done. }
  unfold graph_impact_symbols. rewrite Himpact. unfold compute_impact.
  destruct (symbol_metrics_loop_total (scan_call_edges edges_calls)
              (count_mutations edges_mutations) culture_by_file symbols ∅)
    as [metrics Hloop].
  rewrite Hloop. cbn [mbind option_bind imp_symbols from_option id].
  rewrite dict_get_sorted_items.
  destruct (metrics !! sid) as [m|] eqn:Hm.
  - destruct (symbol_metrics_loop_inv _ _ _ _ _ _ _ _ Hloop Hm)
      as [Hacc|(s & _ & Hid & Hs)]; [by rewrite lookup_empty in Hacc|].
    unfold symbol_metric in Hs.
    destruct (_reverse_reachable_depth_two _ _); [|done].
    cbn [mbind option_bind] in Hs. injection Hs as <-.
    cbn [fmap option_fmap option_map from_option id si_unresolved_count
         si_unresolved_min_confidence].
    rewrite (Hscores s Hid). split.
    + intros _. eexists. split; [reflexivity|].
      cbn [si_unresolved_count si_unresolved_min_confidence]. done.
    + by intros ->.
  - cbn [fmap option_fmap option_map from_option id]. split; [|done].
    intros Hin. apply list_elem_of_fmap in Hin as (s & -> & Hin).
    destruct (symbol_metrics_loop_dom _ _ _ _ _ _ (sym_id s) Hloop) as [m Hm'].
    { apply list_elem_of_fmap. eauto. }
    by rewrite Hm in Hm'.
Qed.

(** C5, amended. The unresolved statistics the guardrail consults come from
    call edges only.  For a symbol of the build, the unresolved count it
    reports is the number of ambiguous and external call edges touching the
    symbol (as source or as candidate) and the minimum confidence it
    reports is the least confidence of those edges (1.0 when there is
    none), whatever the mutation edges are; it answers
    high_risk_manual_review exactly when the symbol is not Auditor, some
    such call edge touches it and that minimum is below 0.75.  A symbol
    that no such call edge touches has unresolved count 0 and is not given
    high_risk_manual_review. *)
Theorem guardrail_consults_call_edges_only
    (symbols : list Symbol) (edges_calls : list CallEdge)
    (edges_mutations : list MutationEdge) (culture_by_file : gmap string string)
    (g : Graph) (sid : string) (r : Guardrail) :
  g_impact g = compute_impact symbols edges_calls edges_mutations culture_by_file ->
  refactor_guardrail (new_engine g) sid = Some r ->
  (sid ∈ map sym_id symbols ->
   gr_unresolved_count r
   = Z.of_nat (length (unresolved_call_scores edges_calls sid))
   /\ gr_unresolved_min_confidence r
      = min_confidence (unresolved_call_scores edges_calls sid)
   /\ (gr_guardrail r = "high_risk_manual_review"
       <-> gr_culture r <> "Auditor"
           /\ unresolved_call_scores edges_calls sid <> []
           /\ Qltb (min_confidence (unresolved_call_scores edges_calls sid))
                (75 # 100)%Q = true))
  /\ (unresolved_call_scores edges_calls sid = [] ->
      gr_unresolved_count r = 0 /\ gr_guardrail r <> "high_risk_manual_review").
Proof.
  intros Himpact Hr.
  destruct (impact_unresolved_statistics symbols edges_calls edges_mutations
              culture_by_file g sid Himpact) as [Hknown Hnone].
  unfold refactor_guardrail in Hr.
  destruct (symbol_by_id (new_engine g) !! sid) as [symbol|]; [|done].
  cbn [impact_symbols new_engine] in Hr.
  destruct (guardrail_decision _ _ _ _ _) as [tag reason] eqn:Hdec.
  injection Hr as <-.
  cbn [gr_unresolved_count gr_unresolved_min_confidence gr_guardrail gr_culture].
  split.
  - intros Hin. destruct (Hknown Hin) as (m & Hm & Hcount & Hmin).
    rewrite Hm in Hdec |- *.
    cbn [fmap option_fmap option_map from_option id] in Hdec |- *.
    split; [done|]. split; [done|].
    replace tag with (fst (tag, reason)) by done. rewrite <- Hdec.
    rewrite guardrail_decision_manual_review, Hcount, Hmin.
    destruct (unresolved_call_scores edges_calls sid) as [|x scores].
    + cbn [length]. split; [intros (_ & ? & _); lia|intros (_ & ? & _); done].
    + cbn [length]. split; intros (? & _ & ?); (split; [done|split; [|done]]);
        [done|lia].
  - intros Hempty. specialize (Hnone Hempty). split; [exact Hnone|].
    rewrite Hnone in Hdec.
    pose proof (guardrail_decision_no_evidence
                  (match file_by_id (new_engine g) !! sym_file symbol with
                   | Some file_record => file_culture file_record
                   | None => "Citizen"
                   end)
                  (default 0 (si_direct_callers <$> dict_get (graph_impact_symbols g) sid))
                  (default 0 (si_fan_out <$> dict_get (graph_impact_symbols g) sid))
                  (default 1%Q (si_unresolved_min_confidence
                                <$> dict_get (graph_impact_symbols g) sid))) as Hno.
    by rewrite Hdec in Hno.
Qed.

(** [f] calls [g], which two functions declare: the call edge is ambiguous
    with confidence 0.5 and lists both as candidates. *)
Definition review_symbols : list Symbol :=
  [mkSymbol "F" "f" "f()" "function" 0 "global" "internal" "/repo/a.swift" 1;
   mkSymbol "G1" "g" "g()" "function" 0 "A" "internal" "/repo/a.swift" 5;
   mkSymbol "G2" "g" "g()" "function" 0 "B" "internal" "/repo/a.swift" 9].

Definition review_calls : list CallEdge :=
  [mkCallEdge "F" None "g" ["G1"; "G2"] "ambiguous" (5000 # 10000)%Q None 0 2].

Definition review_graph : Graph :=
  {| g_meta := None;
     g_files := Some [];
     g_symbols := Some review_symbols;
     g_edges_calls := Some review_calls;
     g_edges_mutations := Some [];
     g_edges_depends_on := Some [];
     g_impact := compute_impact review_symbols review_calls [] ∅;
     g_indexes := Some [] |}.

(** The candidate [G1] of the ambiguous call is sent to manual review on the
    evidence of that one call edge; the symbol [bump] of [counter_graph],
    whose only unresolved edge is a mutation edge, is not. *)
Lemma guardrail_consults_call_edges_only_witness :
  (exists r,
     refactor_guardrail (new_engine review_graph) "G1" = Some r
     /\ gr_unresolved_count r = 1
     /\ gr_unresolved_min_confidence r = (5000 # 10000)%Q
     /\ gr_guardrail r = "high_risk_manual_review")
  /\ exists r,
       refactor_guardrail (new_engine counter_graph) "/repo/a.swift::A::bump()::L3"
       = Some r
       /\ gr_unresolved_count r = 0
       /\ gr_guardrail r <> "high_risk_manual_review".
Proof.
  split.
  - destruct (refactor_guardrail (new_engine review_graph) "G1") as [r|] eqn:Hr;
      [|vm_compute in Hr; discriminate].
    exists r. split; [reflexivity|].
    destruct (guardrail_consults_call_edges_only review_symbols review_calls [] ∅
                review_graph "G1" r eq_refl Hr) as [Hknown _].
    destruct Hknown as (Hcount & Hmin & Htag).
    { apply (bool_decide_unpack _). vm_compute. exact I. }
    split; [exact Hcount|]. split; [exact Hmin|].
    apply Htag. split; [|split; [discriminate|vm_compute; reflexivity]].
    vm_compute in Hr. injection Hr as <-. discriminate.
  - eexists. split; [vm_compute; reflexivity|].
    refine (proj2 (guardrail_consults_call_edges_only (bs_symbols counter_state) []
                     (graph_edges_mutations counter_graph)
                     (bs_culture_by_file counter_state)
                     counter_graph "/repo/a.swift::A::bump()::L3" _ _ _) _);
      vm_compute; reflexivity.
Defined.

End UnresolvedEvidence.

(** ** No-op rebuild *)

Section NoOpRebuild.
Variable sha256_hex : string -> string.
Variable str_lower : string -> string.

Lemma build_graph_meta existing st :
  exists g,
    build_graph sha256_hex str_lower existing st = Some g
    /\ g_meta g = Some (build_meta sha256_hex existing st).
Proof.
  unfold build_graph.
  destruct (compute_impact_total (bs_symbols st)
              (resolve_calls (bs_symbols st) (bs_calls st))
              (_resolve_mutation_edges (bs_symbols st) (bs_mutations st))
              (bs_culture_by_file st)) as [impact ->].
  simpl. eauto.
Qed.

(** C8. When the previously persisted graph carries a content digest equal
    to the digest of this build (the hash over all per-file hashes), the new
    graph's meta carries the previous [generated_at], [build_duration_ms],
    [files_reparsed] and [files_reused] unchanged; when the digests differ,
    it carries this build's own timestamp and counters. *)
Theorem noop_rebuild_preserves_meta (existing : Graph) (previous : Meta)
    (st : BuildState) (generated_at : string) (duration reparsed reused : Z) :
  g_meta existing = Some previous ->
  meta_generated_at previous = Some generated_at ->
  meta_build_duration_ms previous = Some duration ->
  meta_files_reparsed previous = Some reparsed ->
  meta_files_reused previous = Some reused ->
  exists g m,
    build_graph sha256_hex str_lower (Some existing) st = Some g
    /\ g_meta g = Some m
    /\ meta_content_digest m
       = Some (content_digest_of sha256_hex (bs_file_hash_pairs st))
    /\ if bool_decide (meta_content_digest previous
                       = Some (content_digest_of sha256_hex (bs_file_hash_pairs st)))
       then meta_generated_at m = Some generated_at
            /\ meta_build_duration_ms m = Some duration
            /\ meta_files_reparsed m = Some reparsed
            /\ meta_files_reused m = Some reused
       else meta_generated_at m = Some (bs_now st)
            /\ meta_build_duration_ms m = Some (bs_duration_ms st)
            /\ meta_files_reparsed m = Some (bs_files_reparsed st)
            /\ meta_files_reused m = Some (bs_files_reused st).
Proof.
  intros Hmeta Hga Hdur Hrep Hreu.
  destruct (build_graph_meta (Some existing) st) as (g & Hg & Hm).
  exists g, (build_meta sha256_hex (Some existing) st).
  split; [done|]. split; [done|]. split; [done|].
  unfold build_meta. cbn [mbind option_bind]. rewrite Hmeta.
  cbn [mbind option_bind meta_generated_at meta_build_duration_ms
       meta_files_reparsed meta_files_reused].
  rewrite Hga, Hdur, Hrep, Hreu.
  destruct (meta_content_digest previous) as [d|]; cbn [default].
  - rewrite eqb_decide.
    destruct (decide (d = content_digest_of sha256_hex (bs_file_hash_pairs st)))
      as [->|Hne].
    + by rewrite !bool_decide_eq_true_2.
    + rewrite (bool_decide_eq_false_2 (d = _)) by done.
      by rewrite (bool_decide_eq_false_2 (Some d = _)) by congruence.
  - by rewrite bool_decide_eq_false_2.
Qed.

End NoOpRebuild.

(** The graph persisted by an earlier build of [counter_state]'s files. *)
Definition previous_meta : Meta :=
  {| meta_schema_version := Some SCHEMA_VERSION;
     meta_parser_version := PARSER_VERSION;
     meta_generated_at := Some "2023-06-01T12:00:00+00:00";
     meta_repo_root := "/repo";
     meta_repo_digest := "no-git";
     meta_content_digest := Some "a.swift:h1";
     meta_build_duration_ms := Some 731;
     meta_files_total := 1;
     meta_files_reparsed := Some 1;
     meta_files_reused := Some 0 |}.

Definition previous_graph : Graph :=
  {| g_meta := Some previous_meta;
     g_files := g_files counter_graph;
     g_symbols := g_symbols counter_graph;
     g_edges_calls := g_edges_calls counter_graph;
     g_edges_mutations := g_edges_mutations counter_graph;
     g_edges_depends_on := g_edges_depends_on counter_graph;
     g_impact := g_impact counter_graph;
     g_indexes := g_indexes counter_graph |}.

(** A rebuild of the same files, with the digest taken as the joined text
    itself: the earlier timestamp and counters are kept. *)
Lemma noop_rebuild_preserves_meta_witness :
  exists g m,
    build_graph id id (Some previous_graph) counter_state = Some g
    /\ g_meta g = Some m
    /\ meta_content_digest m = Some "a.swift:h1"
    /\ meta_generated_at m = Some "2023-06-01T12:00:00+00:00"
    /\ meta_build_duration_ms m = Some 731
    /\ meta_files_reparsed m = Some 1
    /\ meta_files_reused m = Some 0.
Proof.
  destruct (noop_rebuild_preserves_meta id id previous_graph previous_meta
              counter_state "2023-06-01T12:00:00+00:00" 731 1 0
              eq_refl eq_refl eq_refl eq_refl eq_refl)
    as (g & m & Hg & Hm & Hd & Hkeep).
  exists g, m. repeat split; try done. all: apply Hkeep.
Defined.

(** ** Consistency check *)

Section Doctor.

Definition symbol_ids_of (g : Graph) : gset string :=
  list_to_set (map sym_id (graph_symbols g)).

Definition file_ids_of (g : Graph) : gset string :=
  list_to_set (map file_id (graph_files g)).

(** An endpoint that is present names an existing id. *)
Definition endpoint_ok (ids : gset string) (endpoint : string) : Prop :=
  truthy endpoint = true -> endpoint ∈ ids.

Definition index_values (g : Graph) (name : string) : list string :=
  flat_map snd (default [] (dict_get (graph_indexes g) name)).

(** What the consistency check looks at. *)
Definition checked_references_exist (g : Graph) : Prop :=
  Forall (fun e => endpoint_ok (symbol_ids_of g) (ce_source e)
                   /\ endpoint_ok (symbol_ids_of g) (or_empty (ce_target e)))
    (graph_edges_calls g)
  /\ Forall (fun e => dep_source_file e ∈ file_ids_of g
                      /\ dep_target_file e ∈ file_ids_of g)
       (graph_edges_depends_on g)
  /\ Forall (fun sid => sid ∈ symbol_ids_of g) (index_values g "symbols_by_file").

(** What the specification says it guarantees: every endpoint of every
    edge kind and every id listed in an index. *)
Definition all_references_exist (g : Graph) : Prop :=
  checked_references_exist g
  /\ Forall (fun e => endpoint_ok (symbol_ids_of g) (me_source e)
                      /\ endpoint_ok (symbol_ids_of g) (or_empty (me_target_symbol e)))
       (graph_edges_mutations g)
  /\ Forall (fun sid => sid ∈ symbol_ids_of g)
       (index_values g "symbols_by_name" ++ index_values g "callers_by_symbol"
        ++ index_values g "callees_by_symbol")
  /\ Forall (fun fid => fid ∈ file_ids_of g) (index_values g "files_by_culture").

(** C9 as the specification states it: success means no dangling reference
    (equivalently, a dangling reference means an error message). *)
Definition doctor_complete : Prop :=
  forall (graph_file : string) (g : Graph) (strict : bool),
    doctor_check graph_file (Some g) strict = (true, []) -> all_references_exist g.

Definition shape_ok (g : Graph) : Prop :=
  is_Some (g_meta g) /\ is_Some (g_files g) /\ is_Some (g_symbols g)
  /\ is_Some (g_edges_calls g) /\ is_Some (g_edges_mutations g)
  /\ is_Some (g_edges_depends_on g) /\ is_Some (g_impact g)
  /\ is_Some (g_indexes g)
  /\ g_meta g ≫= meta_schema_version = Some SCHEMA_VERSION.

Lemma flat_map_nil {A B} (f : A -> list B) (l : list A) :
  flat_map f l = [] <-> Forall (fun x => f x = []) l.
Proof.
  induction l as [|x l IH]; simpl.
  - split; [constructor|done].
  - rewrite Forall_cons, <- IH. split.
    + intros Happ. by apply app_eq_nil in Happ.
    + intros [-> ->]. done.
Qed.

Lemma validate_graph_shape_ok g : validate_graph_shape g = [] <-> shape_ok g.
Proof.
  unfold validate_graph_shape, shape_ok.
  destruct g as [meta files symbols calls muts deps impact indexes].
  cbn [g_meta g_files g_symbols g_edges_calls g_edges_mutations g_edges_depends_on
       g_impact g_indexes].
  split.
  - intros Herr. apply app_eq_nil in Herr as [Hmiss Herr].
    apply app_eq_nil in Herr as [Hschema _].
    destruct (bool_decide_reflect (meta ≫= meta_schema_version = Some SCHEMA_VERSION))
      as [Hs|Hs]; [|done].
    destruct meta, files, symbols, calls, muts, deps, impact, indexes;
      first [by vm_compute in Hmiss | repeat split; eauto].
  - intros (Hm & Hf & Hs & Hc & Hmu & Hd & Hi & Hx & Hv).
    destruct Hm as [m ->], Hf as [f ->], Hs as [s ->], Hc as [c ->],
      Hmu as [mu ->], Hd as [d ->], Hi as [i ->], Hx as [x ->].
    rewrite bool_decide_eq_true_2 by done. reflexivity.
Qed.

Lemma call_edge_errors_nil ids e :
  call_edge_errors ids e = []
  <-> endpoint_ok ids (ce_source e) /\ endpoint_ok ids (or_empty (ce_target e)).
Proof.
  unfold call_edge_errors, endpoint_ok.
  destruct (truthy (ce_source e)), (truthy (or_empty (ce_target e))); cbn [andb];
    repeat case_bool_decide; cbn [negb app]; split;
    try done; try (intros [? ?]; exfalso; auto); intros; split; auto; done.
Qed.

Lemma dep_edge_errors_nil ids e :
  dep_edge_errors ids e = []
  <-> dep_source_file e ∈ ids /\ dep_target_file e ∈ ids.
Proof.
  unfold dep_edge_errors. repeat case_bool_decide; cbn [negb app]; split;
    try done; intros [? ?]; done.
Qed.

Lemma index_errors_nil ids sids :
  index_errors ids sids = [] <-> Forall (fun sid => sid ∈ ids) sids.
Proof.
  unfold index_errors. rewrite flat_map_nil. apply Forall_iff. intros sid.
  case_bool_decide; split; done.
Qed.

Lemma Forall_flat_map {A B} (P : B -> Prop) (f : A -> list B) (l : list A) :
  Forall P (flat_map f l) <-> Forall (fun x => Forall P (f x)) l.
Proof.
  induction l as [|x l IH]; simpl.
  - split; constructor.
  - by rewrite Forall_app, Forall_cons, IH.
Qed.

Lemma doctor_errors_nil g :
  doctor_errors g = [] <-> shape_ok g /\ checked_references_exist g.
Proof.
  unfold doctor_errors, checked_references_exist, index_values.
  fold (symbol_ids_of g). fold (file_ids_of g).
  rewrite !app_nil, !flat_map_nil, Forall_flat_map, validate_graph_shape_ok.
  setoid_rewrite call_edge_errors_nil. setoid_rewrite dep_edge_errors_nil.
  setoid_rewrite index_errors_nil. tauto.
Qed.

(** C9, amended. doctor_check reports success on a persisted graph exactly
    when the document has its eight top-level keys and the expected schema
    version, every present source and target of every call edge is an
    existing symbol id, both files of every dependency edge are existing
    file ids, and every id listed in the [symbols_by_file] index is an
    existing symbol id; a dangling reference of one of these kinds produces
    an error message.  Mutation edges and the other indexes are not
    checked. *)
Theorem doctor_check_checks (graph_file : string) (g : Graph) (strict : bool) :
  (doctor_check graph_file (Some g) strict = (true, [])
   <-> shape_ok g /\ checked_references_exist g)
  /\ (fst (doctor_check graph_file (Some g) strict) = false
      <-> snd (doctor_check graph_file (Some g) strict) <> []).
Proof.
  cbn [doctor_check fst snd]. split.
  - rewrite <- doctor_errors_nil. split.
    + by intros [= _ ->].
    + by intros ->.
  - destruct (doctor_errors g); by cbn.
Qed.

(** A complete build of [counter_state] plus one mutation edge whose source
    is not a symbol of the graph. *)
Definition dangling_mutation_graph : Graph :=
  {| g_meta := Some previous_meta;
     g_files := g_files counter_graph;
     g_symbols := g_symbols counter_graph;
     g_edges_calls := g_edges_calls counter_graph;
     g_edges_mutations :=
       Some [mkMutationEdge "/repo/gone.swift::G::old()::L9" None "count" []
               "variable" "external" (8 # 10)%Q 12];
     g_edges_depends_on := g_edges_depends_on counter_graph;
     g_impact := g_impact counter_graph;
     g_indexes := g_indexes counter_graph |}.

Example doctor_passes_dangling_mutation :
  doctor_check "/repo/.semantic-index/graph.json" (Some dangling_mutation_graph) true
  = (true, []).
Proof. by vm_compute. Qed.

(** C9 as stated fails: the check passes although the source of a mutation
    edge is no symbol of the graph. *)
Lemma doctor_misses_dangling_mutation : ~ doctor_complete.
Proof.
  intros Hclaim.
  destruct (Hclaim "/repo/.semantic-index/graph.json" dangling_mutation_graph true
              doctor_passes_dangling_mutation) as (_ & Hmut & _).
  apply Forall_inv in Hmut as [Hsrc _].
  assert (Hin : "/repo/gone.swift::G::old()::L9"
                ∈ symbol_ids_of dangling_mutation_graph) by (by apply Hsrc).
  by vm_compute in Hin.
Qed.

End Doctor.

(** ** Graph normalization and build order *)

Section Determinism.

(** Two items of a section with the same sort key are the same item. *)
Definition key_determines {A K} (key : A -> K) (l : list A) : Prop :=
  Forall (fun x => Forall (fun y => key x = key y -> x = y) l) l.

(** The mapping a JSON object denotes. *)
Definition mapping_of {V} (d : pydict V) : gmap string V := list_to_map d.

Definition index_mapping_of (d : pydict (pydict (list string)))
  : gmap string (gmap string (list string)) :=
  mapping_of (map (fun '(key, value) => (key, mapping_of value)) d).

(** Every mapping of the document lists each key once. *)
Record mappings_well_formed (g : Graph) : Prop := {
  wf_impact_symbols : NoDup (map fst (graph_impact_symbols g));
  wf_impact_files : NoDup (map fst (graph_impact_files g));
  wf_indexes : NoDup (map fst (graph_indexes g));
  wf_index_values : Forall (fun entry => NoDup (map fst (snd entry))) (graph_indexes g)
}.

(** The same snapshot, built in another order: the same meta block, every
    list section a permutation, every mapping the same mapping. *)
Record same_snapshot (g1 g2 : Graph) : Prop := {
  same_meta : g_meta g1 = g_meta g2;
  same_files : graph_files g1 ≡ₚ graph_files g2;
  same_symbols : graph_symbols g1 ≡ₚ graph_symbols g2;
  same_edges_calls : graph_edges_calls g1 ≡ₚ graph_edges_calls g2;
  same_edges_mutations : graph_edges_mutations g1 ≡ₚ graph_edges_mutations g2;
  same_edges_depends_on : graph_edges_depends_on g1 ≡ₚ graph_edges_depends_on g2;
  same_impact_symbols :
    mapping_of (graph_impact_symbols g1) = mapping_of (graph_impact_symbols g2);
  same_impact_files :
    mapping_of (graph_impact_files g1) = mapping_of (graph_impact_files g2);
  same_indexes :
    index_mapping_of (graph_indexes g1) = index_mapping_of (graph_indexes g2)
}.

(** The sort keys of [normalize_graph] tell the items of each section apart. *)
Record sort_keys_determine_items (g : Graph) : Prop := {
  det_files : key_determines file_path (graph_files g);
  det_symbols : key_determines sym_id (graph_symbols g);
  det_edges_calls : key_determines normalize_call_key (graph_edges_calls g);
  det_edges_mutations :
    key_determines normalize_mutation_key (graph_edges_mutations g);
  det_edges_depends_on : key_determines normalize_dep_key (graph_edges_depends_on g)
}.

(** C7 as the specification states it: any two orderings of the same
    snapshot are persisted as the same document. *)
Definition normalization_order_independent : Prop :=
  forall g1 g2 : Graph,
    same_snapshot g1 g2 -> mappings_well_formed g1 -> mappings_well_formed g2 ->
    save_graph g1 = save_graph g2.

Lemma sorted_by_key_determines {A K} `{PyOrd K} (key : A -> K) (l1 l2 : list A) :
  l1 ≡ₚ l2 -> key_determines key l1 -> sorted_by key l1 = sorted_by key l2.
Proof.
  intros Hp Hdet. apply sorted_by_permutation_invariant; [done|].
  intros x y Hx Hy. unfold key_determines in Hdet.
  rewrite Forall_forall in Hdet. specialize (Hdet x Hx).
  rewrite Forall_forall in Hdet. by apply Hdet.
Qed.

Lemma NoDup_keys_determine {V} (d : pydict V) :
  NoDup (map fst d) -> key_determines fst d.
Proof.
  intros Hnd. apply Forall_forall. intros x Hx. apply Forall_forall. intros y Hy Hk.
  apply list_elem_of_lookup in Hx as [i Hi], Hy as [j Hj].
  assert (i = j) as ->.
  { eapply NoDup_lookup; [exact Hnd|..]; rewrite list_lookup_fmap.
    - by rewrite Hi.
    - rewrite Hj. simpl. by rewrite Hk. }
  congruence.
Qed.

Lemma key_sorted_same_mapping {V} (d1 d2 : pydict V) :
  NoDup (map fst d1) -> NoDup (map fst d2) -> mapping_of d1 = mapping_of d2 ->
  key_sorted d1 = key_sorted d2.
Proof.
  intros Hn1 Hn2 Hm. apply sorted_by_key_determines.
  - by apply (list_to_map_inj (M:=gmap string)).
  - by apply NoDup_keys_determine.
Qed.

Lemma insert_by_map {A B K} `{PyOrd K} (f : A -> B) (key : B -> K) (key' : A -> K)
    (x : A) (l : list A) :
  (forall a, key (f a) = key' a) ->
  map f (insert_by key' x l) = insert_by key (f x) (map f l).
Proof.
  intros Hk. induction l as [|y l IH]; simpl; [done|].
  rewrite !Hk. destruct (py_le (key' x) (key' y)); simpl; [done|]. by rewrite IH.
Qed.

Lemma sorted_by_map {A B K} `{PyOrd K} (f : A -> B) (key : B -> K) (key' : A -> K)
    (l : list A) :
  (forall a, key (f a) = key' a) ->
  map f (sorted_by key' l) = sorted_by key (map f l).
Proof.
  intros Hk. induction l as [|x l IH]; simpl; [done|].
  by rewrite (insert_by_map f key key'), IH.
Qed.

(** Normalizing one index depends on the mapping it denotes only. *)
Definition normalize_mapping (m : gmap string (list string)) : pydict (list string) :=
  map (fun '(sub_key, sub_value) => (sub_key, _sorted_unique sub_value))
    (sorted_items m).

Lemma normalize_index_mapping (value : pydict (list string)) :
  NoDup (map fst value) ->
  normalize_index value = normalize_mapping (mapping_of value).
Proof.
  intros Hnd. unfold normalize_index, normalize_mapping, sorted_items, key_sorted.
  f_equal. apply sorted_by_key_determines.
  - symmetry. by apply (map_to_list_to_map (M:=gmap string)).
  - by apply NoDup_keys_determine.
Qed.

Lemma normalize_indexes_same (d1 d2 : pydict (pydict (list string))) :
  NoDup (map fst d1) -> NoDup (map fst d2) ->
  Forall (fun entry => NoDup (map fst (snd entry))) d1 ->
  Forall (fun entry => NoDup (map fst (snd entry))) d2 ->
  index_mapping_of d1 = index_mapping_of d2 ->
  map (fun '(key, value) => (key, normalize_index value)) (key_sorted d1)
  = map (fun '(key, value) => (key, normalize_index value)) (key_sorted d2).
Proof.
  intros Hn1 Hn2 Hv1 Hv2 Hm.
  set (f := (fun '(key, value) => (key, mapping_of value))
            : string * pydict (list string) -> string * gmap string (list string)).
  set (h := (fun '(key, m) => (key, normalize_mapping m))
            : string * gmap string (list string) -> string * pydict (list string)).
  assert (Hfst : forall a, fst (f a) = fst a) by (by intros []).
  assert (Hfactor : forall d : pydict (pydict (list string)),
            Forall (fun entry => NoDup (map fst (snd entry))) d ->
            map (fun '(key, value) => (key, normalize_index value)) (key_sorted d)
            = map h (map f (key_sorted d))).
  { intros d Hd. rewrite map_map. apply map_ext_in. intros [k v] Hin.
    simpl. f_equal. apply normalize_index_mapping.
    apply list_elem_of_In, sorted_by_elem in Hin.
    rewrite Forall_forall in Hd. exact (Hd _ Hin). }
  rewrite (Hfactor d1 Hv1), (Hfactor d2 Hv2). f_equal.
  unfold key_sorted. rewrite !(sorted_by_map f fst fst) by done.
  assert (Hk1 : map fst (map f d1) = map fst d1).
  { rewrite map_map. apply map_ext. intros a. apply Hfst. }
  assert (Hk2 : map fst (map f d2) = map fst d2).
  { rewrite map_map. apply map_ext. intros a. apply Hfst. }
  apply (key_sorted_same_mapping (map f d1) (map f d2)).
  - by rewrite Hk1.
  - by rewrite Hk2.
  - exact Hm.
Qed.

(** C7, amended. For any two orderings of the same snapshot (every list
    section a permutation, every impact and index mapping the same mapping
    in any key order), normalize_graph followed by the key-sorted JSON
    serialization produces the same document, provided the sort key of each
    list section tells its items apart: items that differ only outside the
    sort key keep their input order. *)
Theorem normalize_graph_order_independent (g1 g2 : Graph) :
  same_snapshot g1 g2 ->
  mappings_well_formed g1 -> mappings_well_formed g2 ->
  sort_keys_determine_items g1 ->
  normalize_graph g1 = normalize_graph g2 /\ save_graph g1 = save_graph g2.
Proof.
  intros [Hmeta Hf Hs Hc Hm Hd His Hif Hix] [W1 W2 W3 W4] [W1' W2' W3' W4']
    [Df Ds Dc Dm Dd].
  assert (Hnorm : normalize_graph g1 = normalize_graph g2).
  { unfold normalize_graph. rewrite Hmeta.
    rewrite (sorted_by_key_determines file_path _ _ Hf Df).
    rewrite (sorted_by_key_determines sym_id _ _ Hs Ds).
    rewrite (sorted_by_key_determines normalize_call_key _ _ Hc Dc).
    rewrite (sorted_by_key_determines normalize_mutation_key _ _ Hm Dm).
    rewrite (sorted_by_key_determines normalize_dep_key _ _ Hd Dd).
    rewrite (key_sorted_same_mapping _ _ W1 W1' His).
    rewrite (key_sorted_same_mapping _ _ W2 W2' Hif).
    by rewrite (normalize_indexes_same _ _ W3 W3' W4 W4' Hix). }
  split; [exact Hnorm|]. unfold save_graph. by rewrite Hnorm.
Qed.

(** Two calls of [log] on one line of [go], with one and with two
    arguments: both edges are external and have the same sort key. *)
Definition log_call (arity : Z) : CallEdge :=
  mkCallEdge "/repo/f.swift::F::go()::L1" None "log" [] "external" 0%Q None arity 7.

Definition graph_with_calls (calls : list CallEdge) : Graph :=
  {| g_meta := Some previous_meta;
     g_files := Some [];
     g_symbols := Some [];
     g_edges_calls := Some calls;
     g_edges_mutations := Some [];
     g_edges_depends_on := Some [];
     g_impact := Some (mkImpact [] []);
     g_indexes := Some [] |}.

Example same_key_edges_keep_input_order :
  map ce_arity (graph_edges_calls (normalize_graph (graph_with_calls [log_call 1; log_call 2])))
  = [1; 2]
  /\ map ce_arity
       (graph_edges_calls (normalize_graph (graph_with_calls [log_call 2; log_call 1])))
     = [2; 1].
Proof. split; reflexivity. Qed.

(** C7 as stated fails: the two orderings of these two edges are persisted
    as different documents. *)
Lemma normalization_depends_on_order : ~ normalization_order_independent.
Proof.
  intros Hclaim.
  specialize (Hclaim (graph_with_calls [log_call 1; log_call 2])
                     (graph_with_calls [log_call 2; log_call 1])).
  assert (Hwf : forall calls, mappings_well_formed (graph_with_calls calls)).
  { intros calls. constructor; cbn; constructor. }
  assert (Hsame : same_snapshot (graph_with_calls [log_call 1; log_call 2])
                    (graph_with_calls [log_call 2; log_call 1])).
  { constructor; try reflexivity. apply perm_swap. }
  specialize (Hclaim Hsame (Hwf _) (Hwf _)).
  vm_compute in Hclaim. discriminate Hclaim.
Qed.

Lemma mapping_of_perm {V} (d1 d2 : pydict V) :
  NoDup (map fst d1) -> d1 ≡ₚ d2 -> mapping_of d1 = mapping_of d2.
Proof. intros Hnd Hp. by apply (list_to_map_proper (M:=gmap string)). Qed.

(** [counter_graph] with its symbols and its impact entries listed in the
    opposite order. *)
Definition reordered_counter_graph : Graph :=
  {| g_meta := g_meta counter_graph;
     g_files := g_files counter_graph;
     g_symbols := Some (rev (graph_symbols counter_graph));
     g_edges_calls := g_edges_calls counter_graph;
     g_edges_mutations := g_edges_mutations counter_graph;
     g_edges_depends_on := g_edges_depends_on counter_graph;
     g_impact :=
       Some {| imp_symbols := rev (graph_impact_symbols counter_graph);
               imp_files := rev (graph_impact_files counter_graph) |};
     g_indexes := g_indexes counter_graph |}.

Lemma reordered_counter_graph_same :
  same_snapshot counter_graph reordered_counter_graph.
Proof.
  constructor.
  - reflexivity.
  - apply Permutation_refl.
  - apply Permutation_rev.
  - apply Permutation_refl.
  - apply Permutation_refl.
  - apply Permutation_refl.
  - apply mapping_of_perm; [|apply Permutation_rev].
    apply (bool_decide_unpack _). vm_compute. exact I.
  - apply mapping_of_perm; [|apply Permutation_rev].
    apply (bool_decide_unpack _). vm_compute. exact I.
  - reflexivity.
Qed.

Lemma normalize_graph_order_independent_witness :
  graph_symbols counter_graph <> graph_symbols reordered_counter_graph
  /\ normalize_graph counter_graph = normalize_graph reordered_counter_graph
  /\ save_graph counter_graph = save_graph reordered_counter_graph.
Proof.
  split; [by vm_compute|].
  apply normalize_graph_order_independent.
  - exact reordered_counter_graph_same.
  - constructor; apply (bool_decide_unpack _); vm_compute; exact I.
  - constructor; apply (bool_decide_unpack _); vm_compute; exact I.
  - constructor; unfold key_determines; apply (bool_decide_unpack _);
      vm_compute; exact I.
Defined.

End Determinism.

(** * Further properties of the code *)

(** ** graph_store.py: normalization is a canonical form *)

Section NormalForm.

Lemma sorted_by_fixed {A K} `{PyOrd K} (key : A -> K) (l : list A) :
  Sorted (key_le key) l -> sorted_by key l = l.
Proof.
  induction 1 as [|y l' Hs IH Hhd]; simpl; [done|].
  rewrite IH. destruct Hhd as [|z l' Hyz]; simpl; [done|].
  unfold key_le in Hyz. by rewrite Hyz.
Qed.

Lemma sorted_by_perm_total {A} `{PyOrd A} (l1 l2 : list A) :
  l1 ≡ₚ l2 -> sorted_by id l1 = sorted_by id l2.
Proof.
  intros Hp. apply sorted_by_permutation_invariant; [done|]. by intros x y _ _.
Qed.

Lemma sorted_unique_idem (values : list string) :
  _sorted_unique (_sorted_unique values) = _sorted_unique values.
Proof.
  unfold _sorted_unique.
  set (distinct := elements (list_to_set values : gset string)).
  assert (Hnd : NoDup (sorted_by id distinct)).
  { rewrite sorted_by_perm. apply NoDup_elements. }
  rewrite (sorted_by_perm_total _ (sorted_by id distinct))
    by (by apply elements_list_to_set).
  apply sorted_by_idem.
Qed.

(** X1. [_sorted_unique] returns the distinct values, each once, in ascending
    order, and is a no-op on its own output. *)
Theorem sorted_unique_canonical (values : list string) :
  (forall x, x ∈ _sorted_unique values <-> x ∈ values)
  /\ NoDup (_sorted_unique values)
  /\ Sorted (fun a b => String.leb a b = true) (_sorted_unique values)
  /\ _sorted_unique (_sorted_unique values) = _sorted_unique values.
Proof.
  split; [|split; [|split; [|apply sorted_unique_idem]]]; unfold _sorted_unique.
  - intros x. rewrite sorted_by_elem, elem_of_elements. apply elem_of_list_to_set.
  - rewrite sorted_by_perm. apply NoDup_elements.
  - exact (sorted_by_sorted (A:=string) (K:=string) id _).
Qed.

Lemma key_sorted_map {V W} (f : string * V -> string * W) (d : pydict V) :
  (forall p, fst (f p) = fst p) ->
  key_sorted (map f d) = map f (key_sorted d).
Proof. intros Hf. unfold key_sorted. symmetry. by apply sorted_by_map. Qed.

Lemma key_sorted_idem {V} (d : pydict V) : key_sorted (key_sorted d) = key_sorted d.
Proof. apply sorted_by_idem. Qed.

Lemma normalize_index_idem (value : pydict (list string)) :
  normalize_index (normalize_index value) = normalize_index value.
Proof.
  unfold normalize_index.
  rewrite key_sorted_map by (by intros []).
  rewrite key_sorted_idem, map_map.
  apply map_ext. intros [k v]. by rewrite sorted_unique_idem.
Qed.

(** X2. Normalizing a normalized graph changes nothing, so a document read back
    from disk is saved again as the same document; and a normalized graph
    has every top-level section that [normalize_graph] writes. *)
Theorem normalize_graph_idempotent (g : Graph) :
  normalize_graph (normalize_graph g) = normalize_graph g
  /\ save_graph (normalize_graph g) = save_graph g
  /\ is_Some (g_files (normalize_graph g))
  /\ is_Some (g_symbols (normalize_graph g))
  /\ is_Some (g_edges_calls (normalize_graph g))
  /\ is_Some (g_edges_mutations (normalize_graph g))
  /\ is_Some (g_edges_depends_on (normalize_graph g))
  /\ is_Some (g_impact (normalize_graph g))
  /\ is_Some (g_indexes (normalize_graph g)).
Proof.
  assert (Hidem : normalize_graph (normalize_graph g) = normalize_graph g).
  { unfold normalize_graph at 1.
    unfold graph_files, graph_symbols, graph_edges_calls, graph_edges_mutations,
      graph_edges_depends_on, graph_impact_symbols, graph_impact_files, graph_indexes.
    cbn [normalize_graph g_meta g_files g_symbols g_edges_calls g_edges_mutations
         g_edges_depends_on g_impact g_indexes default imp_symbols imp_files].
    unfold id. rewrite !sorted_by_idem, !key_sorted_idem.
    rewrite key_sorted_map by (by intros []).
    rewrite key_sorted_idem, map_map.
    unfold normalize_graph. do 2 f_equal.
    apply map_ext. intros [k v]. by rewrite normalize_index_idem. }
  split; [exact Hidem|]. split; [unfold save_graph; by rewrite Hidem|].
  unfold normalize_graph. cbn. repeat split; eauto.
Qed.

(** X3. [resolve_calls] returns its edges in the order of the normalization
    key, so [normalize_graph] keeps the call edges of a build where the
    resolver put them. *)
Theorem resolve_calls_in_normal_order (symbols : list Symbol) (calls : list CallEvent) :
  Sorted (key_le normalize_call_key) (resolve_calls symbols calls)
  /\ sorted_by normalize_call_key (resolve_calls symbols calls)
     = resolve_calls symbols calls.
Proof.
  split.
  - exact (sorted_by_sorted call_edge_sort_key _).
  - exact (sorted_by_idem call_edge_sort_key _).
Qed.

End NormalForm.

(** ** impact.py: what the counts count *)

Section ImpactCounts.

(** A call edge that enters the adjacency: resolved, with a source and a
    target. *)
Definition is_resolved_call (e : CallEdge) : bool :=
  String.eqb (ce_resolution e) "resolved" && truthy (ce_source e)
  && truthy_opt (ce_target e).

(** The distinct symbols with a resolved call to [target]. *)
Definition resolved_callers_of (edges_calls : list CallEdge) (target : string)
  : gset string :=
  list_to_set
    (map ce_source
       (List.filter
          (fun e => is_resolved_call e && String.eqb (or_empty (ce_target e)) target)
          edges_calls)).

(** The distinct symbols [source] has a resolved call to. *)
Definition resolved_callees_of (edges_calls : list CallEdge) (source : string)
  : gset string :=
  list_to_set
    (map (fun e => or_empty (ce_target e))
       (List.filter (fun e => is_resolved_call e && String.eqb (ce_source e) source)
          edges_calls)).

(** The mutation edges counted for [sid]. *)
Definition mutations_from (edges_mutations : list MutationEdge) (sid : string)
  : list MutationEdge :=
  List.filter (fun e => truthy (me_source e) && String.eqb (me_source e) sid)
    edges_mutations.

Lemma truthy_or_empty (o : option string) : truthy (or_empty o) = truthy_opt o.
Proof. destruct o as [s|]; [|done]. simpl. by destruct (truthy s) eqn:E. Qed.

Lemma adj_get_add (m : gmap string (gset string)) (k v k' : string) :
  adj_get (adj_add k v m) k'
  = if decide (k = k') then {[v]} ∪ adj_get m k' else adj_get m k'.
Proof.
  unfold adj_add, adj_get at 1. destruct (decide (k = k')) as [->|Hne].
  - by rewrite lookup_insert_eq.
  - by rewrite lookup_insert_ne.
Qed.

Lemma scan_call_edge_adjacency (acc : EdgeScan) (e : CallEdge) :
  callers (scan_call_edge acc e)
  = (if is_resolved_call e
     then adj_add (or_empty (ce_target e)) (ce_source e) (callers acc)
     else callers acc)
  /\ callees (scan_call_edge acc e)
     = (if is_resolved_call e
        then adj_add (ce_source e) (or_empty (ce_target e)) (callees acc)
        else callees acc).
Proof.
  unfold scan_call_edge, is_resolved_call.
  destruct (String.eqb (ce_resolution e) "resolved" && truthy (ce_source e)
            && truthy_opt (ce_target e)); [done|].
  by destruct (is_unresolved (ce_resolution e) && truthy (ce_source e)).
Qed.

Lemma scan_adjacency (edges : list CallEdge) (acc : EdgeScan) (sid : string) :
  adj_get (callers (fold_left scan_call_edge edges acc)) sid
  = adj_get (callers acc) sid ∪ resolved_callers_of edges sid
  /\ adj_get (callees (fold_left scan_call_edge edges acc)) sid
     = adj_get (callees acc) sid ∪ resolved_callees_of edges sid.
Proof.
  unfold resolved_callers_of, resolved_callees_of.
  revert acc. induction edges as [|e edges IH]; intros acc.
  - cbn. split; set_solver.
  - cbn [fold_left List.filter]. destruct (IH (scan_call_edge acc e)) as [-> ->].
    destruct (scan_call_edge_adjacency acc e) as [-> ->].
    destruct (is_resolved_call e); cbn [andb]; [|done].
    rewrite !adj_get_add. split.
    + destruct (String.eqb_spec (or_empty (ce_target e)) sid) as [Heq|Hne].
      * rewrite decide_True by done. cbn [map list_to_set]. set_solver.
      * by rewrite decide_False.
    + destruct (String.eqb_spec (ce_source e) sid) as [Heq|Hne].
      * rewrite decide_True by done. cbn [map list_to_set]. set_solver.
      * by rewrite decide_False.
Qed.

Lemma adj_get_empty (sid : string) : adj_get ∅ sid = ∅.
Proof. unfold adj_get. by rewrite lookup_empty. Qed.

Lemma scan_callers (edges : list CallEdge) (sid : string) :
  adj_get (callers (scan_call_edges edges)) sid = resolved_callers_of edges sid.
Proof.
  unfold scan_call_edges.
  destruct (scan_adjacency edges (mkEdgeScan ∅ ∅ ∅ ∅) sid) as [-> _].
  cbn [callers]. rewrite adj_get_empty. set_solver.
Qed.

Lemma scan_callees (edges : list CallEdge) (sid : string) :
  adj_get (callees (scan_call_edges edges)) sid = resolved_callees_of edges sid.
Proof.
  unfold scan_call_edges.
  destruct (scan_adjacency edges (mkEdgeScan ∅ ∅ ∅ ∅) sid) as [_ ->].
  cbn [callees]. rewrite adj_get_empty. set_solver.
Qed.

Lemma count_mutations_from (edges : list MutationEdge) (m : gmap string Z)
    (sid : string) :
  default 0 (fold_left count_mutation edges m !! sid)
  = default 0 (m !! sid) + Z.of_nat (length (mutations_from edges sid)).
Proof.
  unfold mutations_from. revert m.
  induction edges as [|e edges IH]; intros m; cbn [fold_left List.filter length].
  - lia.
  - rewrite IH. unfold count_mutation.
    destruct (truthy (me_source e)); cbn [andb]; [|done].
    destruct (String.eqb_spec (me_source e) sid) as [->|Hne].
    + rewrite lookup_insert_eq. cbn [from_option length id]. unfold id. lia.
    + by rewrite lookup_insert_ne.
Qed.

(** The table [compute_impact] returns has, for every symbol, the record
    the loop body computes for it. *)
Lemma compute_impact_records (symbols : list Symbol) (edges_calls : list CallEdge)
    (edges_mutations : list MutationEdge) (culture_by_file : gmap string string) :
  NoDup (map sym_id symbols) ->
  exists impact,
    compute_impact symbols edges_calls edges_mutations culture_by_file = Some impact
    /\ forall symbol, symbol ∈ symbols ->
         exists m,
           dict_get (imp_symbols impact) (sym_id symbol) = Some m
           /\ symbol_metric (scan_call_edges edges_calls)
                (count_mutations edges_mutations) culture_by_file symbol = Some m.
Proof.
  intros Hnd. unfold compute_impact.
  destruct (symbol_metrics_loop_total (scan_call_edges edges_calls)
              (count_mutations edges_mutations) culture_by_file symbols ∅)
    as [metrics Hloop].
  rewrite Hloop. cbn [mbind option_bind]. eexists. split; [reflexivity|].
  intros symbol Hin. cbn [imp_symbols]. rewrite dict_get_sorted_items.
  rewrite (symbol_metrics_loop_lookup _ _ _ _ _ _ _ Hnd Hloop Hin).
  destruct (symbol_metric_total (scan_call_edges edges_calls)
              (count_mutations edges_mutations) culture_by_file symbol) as [m Hm].
  eauto.
Qed.

(** X4. For every symbol of a build, [direct_callers] is the number of distinct
    symbols with a resolved call to it (a recursive symbol counts itself),
    [fan_out] the number of distinct symbols it has a resolved call to, and
    [mutation_count] the number of mutation edges it is the source of. *)
Theorem impact_counts (symbols : list Symbol) (edges_calls : list CallEdge)
    (edges_mutations : list MutationEdge) (culture_by_file : gmap string string) :
  NoDup (map sym_id symbols) ->
  exists impact,
    compute_impact symbols edges_calls edges_mutations culture_by_file = Some impact
    /\ Forall (fun symbol =>
         exists m,
           dict_get (imp_symbols impact) (sym_id symbol) = Some m
           /\ si_direct_callers m
              = Z.of_nat (size (resolved_callers_of edges_calls (sym_id symbol)))
           /\ si_fan_out m
              = Z.of_nat (size (resolved_callees_of edges_calls (sym_id symbol)))
           /\ si_mutation_count m
              = Z.of_nat (length (mutations_from edges_mutations (sym_id symbol))))
       symbols.
Proof.
  intros Hnd.
  destruct (compute_impact_records symbols edges_calls edges_mutations
              culture_by_file Hnd) as (impact & Himpact & Hrec).
  exists impact. split; [done|]. apply Forall_forall. intros symbol Hin.
  destruct (Hrec symbol Hin) as (m & Hget & Hm). exists m. split; [done|].
  unfold symbol_metric in Hm.
  destruct (_reverse_reachable_depth_two _ _); [|done].
  cbn [mbind option_bind] in Hm. injection Hm as <-.
  cbn [si_direct_callers si_fan_out si_mutation_count].
  rewrite scan_callers, scan_callees. unfold count_mutations.
  rewrite count_mutations_from, lookup_empty. cbn [from_option]. repeat split; lia.
Qed.

Lemma impact_counts_witness :
  exists impact,
    compute_impact chain_symbols chain_calls [] chain_cultures = Some impact
    /\ Forall (fun symbol =>
         exists m,
           dict_get (imp_symbols impact) (sym_id symbol) = Some m
           /\ si_direct_callers m
              = Z.of_nat (size (resolved_callers_of chain_calls (sym_id symbol)))
           /\ si_fan_out m
              = Z.of_nat (size (resolved_callees_of chain_calls (sym_id symbol)))
           /\ si_mutation_count m
              = Z.of_nat (length (mutations_from [] (sym_id symbol))))
       chain_symbols.
Proof.
  apply impact_counts. apply (bool_decide_unpack _). vm_compute. exact I.
Defined.

(** X5. The depth-2 callers of a symbol of a build are its callers and their
    callers, the symbol itself included when it is among them; so there are
    never fewer depth-2 callers than direct callers, and none without a
    direct caller. *)
Theorem impact_depth2_callers (symbols : list Symbol) (edges_calls : list CallEdge)
    (edges_mutations : list MutationEdge) (culture_by_file : gmap string string) :
  NoDup (map sym_id symbols) ->
  exists impact,
    compute_impact symbols edges_calls edges_mutations culture_by_file = Some impact
    /\ Forall (fun symbol =>
         exists m,
           dict_get (imp_symbols impact) (sym_id symbol) = Some m
           /\ si_depth2_callers m
              = Z.of_nat
                  (size (resolved_callers_of edges_calls (sym_id symbol)
                         ∪ ⋃ (resolved_callers_of edges_calls
                              <$> elements (resolved_callers_of edges_calls
                                              (sym_id symbol)))))
           /\ si_direct_callers m <= si_depth2_callers m
           /\ (si_direct_callers m = 0 -> si_depth2_callers m = 0))
       symbols.
Proof.
  intros Hnd.
  destruct (compute_impact_records symbols edges_calls edges_mutations
              culture_by_file Hnd) as (impact & Himpact & Hrec).
  exists impact. split; [done|]. apply Forall_forall. intros symbol Hin.
  destruct (Hrec symbol Hin) as (m & Hget & Hm). exists m. split; [done|].
  unfold symbol_metric in Hm.
  rewrite reverse_reachable_depth_two_result in Hm.
  cbn [mbind option_bind] in Hm. injection Hm as <-.
  cbn [si_direct_callers si_depth2_callers].
  rewrite scan_callers.
  rewrite (list_fmap_ext (adj_get (callers (scan_call_edges edges_calls)))
             (resolved_callers_of edges_calls))
    by (intros; apply scan_callers).
  set (direct := resolved_callers_of edges_calls (sym_id symbol)).
  set (second := ⋃ (resolved_callers_of edges_calls <$> elements direct)).
  split; [done|]. split.
  - apply inj_le, subseteq_size. set_solver.
  - intros Hzero. assert (Hempty : direct = ∅).
    { apply leibniz_equiv, size_empty_iff. lia. }
    subst second. rewrite Hempty, elements_empty. cbn. by rewrite union_empty_r_L, size_empty.
Qed.

Lemma impact_depth2_callers_witness :
  exists impact,
    compute_impact chain_symbols chain_calls [] chain_cultures = Some impact
    /\ Forall (fun symbol =>
         exists m,
           dict_get (imp_symbols impact) (sym_id symbol) = Some m
           /\ si_depth2_callers m
              = Z.of_nat
                  (size (resolved_callers_of chain_calls (sym_id symbol)
                         ∪ ⋃ (resolved_callers_of chain_calls
                              <$> elements (resolved_callers_of chain_calls
                                              (sym_id symbol)))))
           /\ si_direct_callers m <= si_depth2_callers m
           /\ (si_direct_callers m = 0 -> si_depth2_callers m = 0))
       chain_symbols.
Proof.
  apply impact_depth2_callers. apply (bool_decide_unpack _). vm_compute. exact I.
Defined.

(** X6. The query engine builds the same adjacency as the impact engine: its
    reverse map is the callers map and its forward map the callees map, so
    the [direct_callers] of a build's impact table is the size of the
    engine's reverse set of the symbol. *)
Theorem engine_adjacency_is_impact_adjacency (g : Graph) :
  reverse (new_engine g) = callers (scan_call_edges (graph_edges_calls g))
  /\ forward (new_engine g) = callees (scan_call_edges (graph_edges_calls g))
  /\ forall sid,
       adj_get (reverse (new_engine g)) sid
       = resolved_callers_of (graph_edges_calls g) sid
       /\ adj_get (forward (new_engine g)) sid
          = resolved_callees_of (graph_edges_calls g) sid.
Proof.
  assert (Hfold : forall edges acc,
            fold_left add_resolved_edge edges (callees acc, callers acc)
            = (callees (fold_left scan_call_edge edges acc),
               callers (fold_left scan_call_edge edges acc))).
  { induction edges as [|e edges IH]; intros acc; [done|].
    cbn [fold_left]. rewrite <- IH. f_equal.
    destruct (scan_call_edge_adjacency acc e) as [-> ->].
    unfold add_resolved_edge, is_resolved_call, EDGE_RESOLUTION_RESOLVED.
    cbn [fst snd]. rewrite truthy_or_empty.
    destruct (String.eqb (ce_resolution e) "resolved"); cbn [negb andb]; [|done].
    by destruct (truthy (ce_source e) && truthy_opt (ce_target e)). }
  assert (Hadj : reverse (new_engine g)
                 = callers (scan_call_edges (graph_edges_calls g))
                 /\ forward (new_engine g)
                    = callees (scan_call_edges (graph_edges_calls g))).
  { cbn [reverse forward new_engine]. unfold scan_call_edges.
    change (∅, ∅) with (callees (mkEdgeScan ∅ ∅ ∅ ∅), callers (mkEdgeScan ∅ ∅ ∅ ∅)).
    by rewrite Hfold. }
  destruct Hadj as [Hr Hf]. split; [done|]. split; [done|].
  intros sid. rewrite Hr, Hf. split; [apply scan_callers|apply scan_callees].
Qed.

End ImpactCounts.

(** ** Impact engine: the score over the edges of the graph *)

Section ScoreOnGraph.

(** Depth-2 callers in the specification's words, over the call edges: the
    symbols within two resolved calls of [target], without [target]
    itself. *)
Definition depth2_callers_of (edges_calls : list CallEdge) (target : string)
  : gset string :=
  (resolved_callers_of edges_calls target
   ∪ ⋃ (resolved_callers_of edges_calls
        <$> elements (resolved_callers_of edges_calls target)))
  ∖ {[target]}.

(** The composite score of a symbol in the specification's words, with its
    four counts taken from the edges. *)
Definition specified_score (edges_calls : list CallEdge)
    (edges_mutations : list MutationEdge) (culture_by_file : gmap string string)
    (symbol : Symbol) : Q :=
  composite_score
    (Z.of_nat (size (resolved_callers_of edges_calls (sym_id symbol))))
    (Z.of_nat (size (depth2_callers_of edges_calls (sym_id symbol))))
    (Z.of_nat (size (resolved_callees_of edges_calls (sym_id symbol))))
    (Z.of_nat (length (mutations_from edges_mutations (sym_id symbol))))
    (sym_visibility symbol)
    (default "Citizen" (culture_by_file !! sym_file symbol)).

(** C6 at its failing input. On the cycle A <-> B each symbol has one
    direct caller, one depth-2 caller besides itself, fan-out 1 and no
    mutation, is internal and in a Citizen file: the specified score is
    1 x 1.0 + 1 x 0.5 + 1 x 0.7 = 2.2.  The impact table counts the symbol
    among its own depth-2 callers and records 1 + 2 x 0.5 + 0.7 = 2.7. *)
Theorem impact_score_counts_symbol_on_cycle :
  map (fun symbol =>
         (sym_id symbol,
          (fun m => (si_direct_callers m, si_depth2_callers m, si_fan_out m,
                     si_mutation_count m, si_score m))
            <$> dict_get (graph_impact_symbols cycle_graph) (sym_id symbol),
          specified_score cycle_calls [] ∅ symbol))
    cycle_symbols
  = [("A", Some (1, 2, 1, 0, (27000 # 10000)%Q), (22000 # 10000)%Q);
     ("B", Some (1, 2, 1, 0, (27000 # 10000)%Q), (22000 # 10000)%Q)]
  /\ map (fun symbol => size (depth2_callers_of cycle_calls (sym_id symbol)))
       cycle_symbols
     = [1%nat; 1%nat].
Proof. split; by vm_compute. Qed.



End ScoreOnGraph.

(** ** impact.py: dependency edges *)

Section DependencyEdges.
Variable symbols_by_id : gmap string Symbol.

(** A resolved call edge between two known symbols that live in the files
    [source_file] and [target_file]. *)
Definition call_between (e : CallEdge) (source_file target_file : string) : Prop :=
  ce_resolution e = "resolved"
  /\ truthy (ce_source e) = true
  /\ truthy (or_empty (ce_target e)) = true
  /\ exists source_symbol target_symbol,
       symbols_by_id !! ce_source e = Some source_symbol
       /\ symbols_by_id !! or_empty (ce_target e) = Some target_symbol
       /\ sym_file source_symbol = source_file
       /\ sym_file target_symbol = target_file.

(** One iteration of the loop of [build_dependency_edges]. *)
Definition dep_step (edges : gset (string * string)) (edge : CallEdge)
  : gset (string * string) :=
  if negb (String.eqb (ce_resolution edge) "resolved") then edges
  else
    let source := ce_source edge in
    let target := or_empty (ce_target edge) in
    if negb (truthy source) || negb (truthy target) then edges
    else
      match symbols_by_id !! source, symbols_by_id !! target with
      | Some source_symbol, Some target_symbol =>
          let source_file := sym_file source_symbol in
          let target_file := sym_file target_symbol in
          if negb (String.eqb source_file target_file)
          then {[(source_file, target_file)]} ∪ edges
          else edges
      | _, _ => edges
      end.

Lemma build_dependency_edges_fold (edges_calls : list CallEdge) :
  build_dependency_edges symbols_by_id edges_calls
  = map (fun '(source, target) => mkDepEdge source target "call")
      (sorted_by id (elements (fold_left dep_step edges_calls ∅))).
Proof. reflexivity. Qed.

Lemma dep_step_elem (edges : gset (string * string)) (e : CallEdge)
    (sf tf : string) :
  (sf, tf) ∈ dep_step edges e
  <-> (sf, tf) ∈ edges \/ (call_between e sf tf /\ sf <> tf).
Proof.
  unfold dep_step, call_between.
  destruct (String.eqb_spec (ce_resolution e) "resolved") as [Hres|Hres];
    cbn [negb]; [|naive_solver].
  destruct (truthy (ce_source e)); cbn [negb orb]; [|naive_solver].
  destruct (truthy (or_empty (ce_target e))); cbn [negb]; [|naive_solver].
  destruct (symbols_by_id !! ce_source e) as [ss|]; [|naive_solver].
  destruct (symbols_by_id !! or_empty (ce_target e)) as [ts|]; [|naive_solver].
  destruct (String.eqb_spec (sym_file ss) (sym_file ts)) as [Heq|Hne]; cbn [negb].
  - split; [by left|]. intros [?|[(_ & _ & _ & s1 & s2 & [= <-] & [= <-] & <- & <-) Hd]];
      [done|congruence].
  - rewrite elem_of_union, elem_of_singleton. split.
    + intros [[= -> ->]|?]; [right|by left].
      split; [|done]. repeat split; try done. by exists ss, ts.
    + intros [?|[(_ & _ & _ & s1 & s2 & [= <-] & [= <-] & <- & <-) Hd]];
        [by right|by left].
Qed.

Lemma dep_fold_elem (edges_calls : list CallEdge) (acc : gset (string * string))
    (sf tf : string) :
  (sf, tf) ∈ fold_left dep_step edges_calls acc
  <-> (sf, tf) ∈ acc
      \/ (sf <> tf /\ exists e, e ∈ edges_calls /\ call_between e sf tf).
Proof.
  revert acc. induction edges_calls as [|e edges IH]; intros acc; cbn [fold_left].
  - split; [by left|]. intros [?|(_ & e & He & _)]; [done|by apply elem_of_nil in He].
  - rewrite IH, dep_step_elem. split.
    + intros [[?|[Hc Hd]]|(Hd & e' & He' & Hc)].
      * by left.
      * right. split; [done|]. exists e. split; [by left|done].
      * right. split; [done|]. exists e'. split; [by right|done].
    + intros [?|(Hd & e' & He' & Hc)]; [by left; left|].
      apply elem_of_cons in He' as [->|He'].
      * left. by right.
      * right. split; [done|]. by exists e'.
Qed.

(** X7. The dependency edges are exactly the pairs of distinct files joined by
    a resolved call between two known symbols: each pair once, in
    ascending order, tagged ["call"]; a call inside one file, a call that is
    not resolved and a call to or from an unknown symbol give no edge. *)
Theorem dependency_edges_exact (edges_calls : list CallEdge) :
  (forall d,
     d ∈ build_dependency_edges symbols_by_id edges_calls
     <-> dep_reason d = "call"
         /\ dep_source_file d <> dep_target_file d
         /\ exists e, e ∈ edges_calls
                      /\ call_between e (dep_source_file d) (dep_target_file d))
  /\ NoDup (build_dependency_edges symbols_by_id edges_calls)
  /\ Sorted (key_le normalize_dep_key) (build_dependency_edges symbols_by_id edges_calls).
Proof.
  rewrite build_dependency_edges_fold.
  set (pairs := fold_left dep_step edges_calls ∅).
  set (mk := fun '(source, target) => mkDepEdge source target "call").
  assert (Hkey : forall p, normalize_dep_key (mk p) = p) by (by intros []).
  split; [|split].
  - intros d. split.
    + intros Hd. apply list_elem_of_fmap in Hd as ([sf tf] & -> & Hin).
      apply (proj1 (sorted_by_elem _ _ _)) in Hin. apply elem_of_elements in Hin.
      apply dep_fold_elem in Hin as [Hin|[Hne He]]; [set_solver|]. by cbn.
    + intros (Hr & Hne & He). destruct d as [sf tf reason].
      cbn in Hr, Hne, He. subst reason.
      apply list_elem_of_fmap. exists (sf, tf). split; [done|].
      apply sorted_by_elem, elem_of_elements, dep_fold_elem. by right.
  - apply NoDup_fmap_2.
    + intros [a b] [c d] [= -> ->]. done.
    + rewrite sorted_by_perm. apply NoDup_elements.
  - assert (Hs := sorted_by_sorted (A:=string * string) id (elements pairs)).
    induction Hs as [|p l Hs IH Hhd]; cbn [map]; [constructor|].
    constructor; [exact IH|].
    destruct Hhd as [|q l Hpq]; cbn [map]; constructor.
    unfold key_le in *. by rewrite !Hkey.
Qed.

End DependencyEdges.

(** ** indexer.py: mutation resolution *)

Section MutationEdges.

(** A variable of [file] named [name], optionally declared in [container]. *)
Definition variable_matches (file : string) (container : option string)
    (name : string) (symbol : Symbol) : bool :=
  is_variable symbol
  && String.eqb (sym_file symbol) file
  && match container with
     | Some c => String.eqb (sym_container symbol) c
     | None => true
     end
  && String.eqb (sym_name symbol) name.

Definition variable_lookup (symbols : list Symbol) (file : string)
    (container : option string) (name : string) : list Symbol :=
  List.filter (variable_matches file container name) symbols.

(** The candidates of a mutation event raised in [source_symbol]: the
    variables of that name in the source's file and container, else those
    of that name anywhere in the source's file. *)
Definition mutation_candidates (symbols : list Symbol) (source_symbol : Symbol)
    (event : MutationEvent) : list Symbol :=
  first_nonempty
    [variable_lookup symbols (sym_file source_symbol)
       (Some (sym_container source_symbol)) (mut_target_name event);
     variable_lookup symbols (sym_file source_symbol) None (mut_target_name event)].

Lemma index_variables_fold (l : list Symbol) (idx : VariableIndex) :
  variable_index_file_name (fold_left index_variable l idx)
  = fold_left (fun m x => if is_variable x
                          then dd_append (sym_file x, sym_name x) x m else m)
      l (variable_index_file_name idx)
  /\ variable_index_file_container_name (fold_left index_variable l idx)
     = fold_left (fun m x => if is_variable x
                             then dd_append (sym_file x, sym_container x, sym_name x) x m
                             else m)
         l (variable_index_file_container_name idx).
Proof.
  revert idx. induction l as [|x l IH]; intros idx; cbn [fold_left]; [done|].
  destruct (IH (index_variable idx x)) as (-> & ->).
  unfold index_variable. by destruct (is_variable x).
Qed.

Lemma variable_index_lookups symbols file container name :
  dd_get (variable_index_file_container_name (index_variables symbols))
    (file, container, name)
  = variable_lookup symbols file (Some container) name
  /\ dd_get (variable_index_file_name (index_variables symbols)) (file, name)
     = variable_lookup symbols file None name.
Proof.
  unfold index_variables.
  destruct (index_variables_fold symbols (mkVariableIndex ∅ ∅)) as (-> & ->).
  cbn [variable_index_file_name variable_index_file_container_name].
  rewrite (dd_fold_group is_variable
             (fun x => (sym_file x, sym_container x, sym_name x)) id).
  rewrite (dd_fold_group is_variable (fun x => (sym_file x, sym_name x)) id).
  unfold dd_get. rewrite !lookup_empty. cbn [from_option app].
  rewrite !map_id. unfold variable_lookup.
  split; apply filter_ext; intros x; unfold variable_matches;
    destruct (is_variable x); cbn [andb]; try done;
    repeat match goal with
           | |- context [String.eqb ?a ?b] => destruct (String.eqb_spec a b); subst
           | |- context [bool_decide ?P] => destruct (bool_decide_reflect P)
           end; cbn; congruence.
Qed.

Lemma mutation_candidates_variables symbols source_symbol event :
  Forall (fun v => v ∈ symbols
                   /\ sym_kind v = SYMBOL_KIND_VARIABLE
                   /\ sym_file v = sym_file source_symbol
                   /\ sym_name v = mut_target_name event)
    (mutation_candidates symbols source_symbol event).
Proof.
  assert (Hl : forall container,
            Forall (fun v => v ∈ symbols
                             /\ sym_kind v = SYMBOL_KIND_VARIABLE
                             /\ sym_file v = sym_file source_symbol
                             /\ sym_name v = mut_target_name event)
              (variable_lookup symbols (sym_file source_symbol) container
                 (mut_target_name event))).
  { intros container. apply Forall_forall. intros v Hv.
    apply list_elem_of_In, filter_In in Hv as [Hin Hm].
    unfold variable_matches, is_variable in Hm.
    rewrite !andb_true_iff in Hm. destruct Hm as [[[Hk Hf] _] Hn].
    apply String.eqb_eq in Hk, Hf, Hn. by apply list_elem_of_In in Hin. }
  unfold mutation_candidates. apply first_nonempty_Forall.
  repeat constructor; apply Hl.
Qed.

(** X8. Every mutation event whose source is a known symbol yields one edge,
    decided by the variables of the event's target name in the source's own
    file (its own container first): one such variable gives a [resolved]
    edge to it with confidence 1.0, several give an [ambiguous] edge
    carrying their sorted ids, and none gives an [external] edge that keeps
    the event's own confidence (0.8 when it has none).  A mutation is never
    resolved to a function, a type, or a variable of another file. *)
Theorem mutation_edge_classified (symbols : list Symbol) (event : MutationEvent)
    (source_symbol : Symbol) :
  dict_by sym_id symbols !! mut_source_symbol_id event = Some source_symbol ->
  exists edge,
    resolve_mutation (dict_by sym_id symbols) (index_variables symbols) event
    = Some edge
    /\ me_source edge = mut_source_symbol_id event
    /\ me_target_name edge = mut_target_name event
    /\ Forall (fun v => v ∈ symbols
                        /\ sym_kind v = SYMBOL_KIND_VARIABLE
                        /\ sym_file v = sym_file source_symbol
                        /\ sym_name v = mut_target_name event)
         (mutation_candidates symbols source_symbol event)
    /\ match mutation_candidates symbols source_symbol event with
       | [] =>
           me_resolution edge = EDGE_RESOLUTION_EXTERNAL
           /\ me_confidence edge = default (8 # 10)%Q (mut_confidence event)
           /\ me_target_symbol edge = None
           /\ me_target_candidates edge = []
       | [target] =>
           me_resolution edge = EDGE_RESOLUTION_RESOLVED
           /\ me_confidence edge = 1%Q
           /\ me_target_symbol edge = Some (sym_id target)
           /\ me_target_candidates edge = [sym_id target]
       | candidates =>
           me_resolution edge = EDGE_RESOLUTION_AMBIGUOUS
           /\ me_confidence edge = ambiguity_confidence (length candidates)
           /\ me_target_symbol edge = None
           /\ me_target_candidates edge = sorted_by id (map sym_id candidates)
       end.
Proof.
  intros Hsrc. unfold resolve_mutation. rewrite Hsrc.
  destruct (variable_index_lookups symbols (sym_file source_symbol)
              (sym_container source_symbol) (mut_target_name event)) as [-> ->].
  pose proof (mutation_candidates_variables symbols source_symbol event) as Hvars.
  unfold mutation_candidates in *. cbn [first_nonempty] in *.
  replace (if nonempty (variable_lookup symbols (sym_file source_symbol) None
                          (mut_target_name event))
           then variable_lookup symbols (sym_file source_symbol) None
                  (mut_target_name event)
           else [])
    with (variable_lookup symbols (sym_file source_symbol) None
            (mut_target_name event)) in *
    by (by destruct (variable_lookup symbols (sym_file source_symbol) None _)).
  destruct (if nonempty _ then _ else _) as [|t [|t' rest]]; eexists;
    (split; [reflexivity|]);
    cbn [me_source me_target_name me_resolution me_confidence me_target_symbol
         me_target_candidates];
    repeat split; try done.
  by rewrite sorted_by_length, length_map.
Qed.

Lemma mutation_edge_classified_witness :
  exists edge,
    resolve_mutation (dict_by sym_id (bs_symbols counter_state))
      (index_variables (bs_symbols counter_state))
      (mkMutationEvent "/repo/a.swift::A::bump()::L3" "count" "variable" 4 None)
    = Some edge
    /\ me_resolution edge = EDGE_RESOLUTION_AMBIGUOUS
    /\ me_target_symbol edge = None.
Proof.
  destruct (mutation_edge_classified (bs_symbols counter_state)
              (mkMutationEvent "/repo/a.swift::A::bump()::L3" "count" "variable" 4 None)
              (mkSymbol "/repo/a.swift::A::bump()::L3" "bump" "bump()" "function" 0 "A"
                 "internal" "/repo/a.swift" 3))
    as (edge & He & _ & _ & _ & Hclass).
  - vm_compute. reflexivity.
  - exists edge. split; [exact He|]. vm_compute in Hclass. tauto.
Defined.

End MutationEdges.

(** ** query_tools.py: the traversal behind [get_callers] and [get_callees] *)

Section BreadthFirst.

Variable adjacency : gmap string (gset string).
Variable starts : gset string.
Variable depth : Z.

(** [hops k a b]: [b] is reached from [a] by following [k] adjacency edges. *)
Fixpoint hops (k : nat) (a b : string) : Prop :=
  match k with
  | O => a = b
  | S k' => exists c, hops k' a c /\ b ∈ adj_get adjacency c
  end.

(** [k] is the least number of edges leading from [a] to [b]. *)
Definition hop_distance (a b : string) (k : nat) : Prop :=
  hops k a b /\ forall k', hops k' a b -> (k <= k')%nat.

(** [n] is reached from some symbol of [starts] by following [k] edges. *)
Definition reached_in (k : nat) (n : string) : Prop :=
  exists s, s ∈ starts /\ hops k s n.

(** [k] is the least number of edges leading from [starts] to [n]. *)
Definition least_hops (n : string) (k : nat) : Prop :=
  reached_in k n /\ forall k', reached_in k' n -> (k <= k')%nat.

Lemma least_hops_unique n k k' : least_hops n k -> least_hops n k' -> k = k'.
Proof.
  intros [H1 M1] [H2 M2]. specialize (M1 _ H2). specialize (M2 _ H1). lia.
Qed.

(** The depth the loop has recorded for a node: 0 for the start symbols,
    which are in [seen] from the beginning and never enter [distances]. *)
Definition depth_of (distances : gmap string Z) (n : string) : option Z :=
  if decide (n ∈ starts) then Some 0 else distances !! n.

(** The queue holds nodes of one depth followed by nodes of the next. *)
Definition queue_ok (queue : list (string * Z)) : Prop :=
  match queue with
  | [] => True
  | (_, h) :: _ =>
      exists front back,
        queue = front ++ back
        /\ Forall (fun x => x.2 = h) front
        /\ Forall (fun x => x.2 = h + 1) back
  end.

Lemma queue_ok_head n h rest x :
  queue_ok ((n, h) :: rest) -> x ∈ rest -> h <= x.2.
Proof.
  intros (front & back & Heq & Hf & Hb) Hx.
  assert (Hin : x ∈ front ++ back) by (rewrite <- Heq; set_solver).
  apply elem_of_app in Hin as [Hin|Hin].
  - rewrite Forall_forall in Hf. rewrite (Hf _ Hin). lia.
  - rewrite Forall_forall in Hb. rewrite (Hb _ Hin). lia.
Qed.

Lemma queue_ok_step n h rest new :
  queue_ok ((n, h) :: rest) ->
  Forall (fun x => x.2 = h + 1) new ->
  queue_ok (rest ++ new).
Proof.
  intros (front & back & Heq & Hf & Hb) Hnew.
  destruct front as [|a front].
  - cbn [app] in Heq. subst back. apply Forall_cons_1 in Hb as [Hh _].
    cbn in Hh. lia.
  - cbn [app] in Heq. injection Heq as <- ->.
    destruct front as [|[n' h'] front].
    + cbn [app]. unfold queue_ok.
      destruct (back ++ new) as [|[n' h'] q] eqn:E; [done|].
      exists ((n', h') :: q), []. rewrite app_nil_r. split; [done|].
      split; [|constructor].
      assert (Hall : Forall (fun x : string * Z => x.2 = h + 1) (back ++ new))
        by (apply Forall_app; done).
      rewrite E in Hall. pose proof Hall as Hall'.
      apply Forall_cons_1 in Hall' as [Hh _]. cbn in Hh. subst h'. done.
    + apply Forall_cons_1 in Hf as [_ Hf]. pose proof Hf as Hf'.
      apply Forall_cons_1 in Hf' as [Hh _]. cbn in Hh. subst h'.
      cbn [app]. exists ((n', h) :: front), (back ++ new).
      rewrite <- app_assoc. split; [done|]. split; [done|].
      by apply Forall_app.
Qed.

(** What the [for nxt in adjacency.get(node, set())] loop does as a whole. *)
Lemma visit_next_fold (current_depth : Z) (cs : list string) (seen : gset string)
    (distances : gmap string Z) (queue : list (string * Z)) :
  exists distances' new,
    fold_left (visit_next current_depth) cs (seen, distances, queue)
    = (seen ∪ list_to_set cs, distances', queue ++ new)
    /\ (forall x, x ∈ new
                  <-> exists c, x = (c, current_depth + 1) /\ c ∈ cs /\ c ∉ seen)
    /\ (forall n, distances' !! n
                  = if decide (n ∈ cs /\ n ∉ seen) then Some (current_depth + 1)
                    else distances !! n).
Proof.
  revert seen distances queue.
  induction cs as [|c cs IH]; intros seen distances queue.
  - exists distances, []. cbn [fold_left list_to_set].
    rewrite app_nil_r, union_empty_r_L. split; [done|]. split.
    + intros x. split; [by intros ?%elem_of_nil|]. intros (? & _ & ?%elem_of_nil & _). done.
    + intros n. destruct (decide _) as [[?%elem_of_nil _]|]; done.
  - cbn [fold_left list_to_set]. unfold visit_next at 2.
    destruct (decide (c ∈ seen)) as [Hin|Hnin].
    + destruct (IH seen distances queue) as (d' & new & -> & Hnew & Hd).
      exists d', new. split; [f_equal; f_equal; set_solver|]. split.
      * intros x. rewrite Hnew. set_solver.
      * intros n. rewrite Hd.
        destruct (decide (n ∈ cs /\ n ∉ seen)), (decide (n ∈ c :: cs /\ n ∉ seen));
          set_solver.
    + destruct (IH ({[c]} ∪ seen) (<[c := current_depth + 1]> distances)
                  (queue ++ [(c, current_depth + 1)])) as (d' & new & -> & Hnew & Hd).
      exists d', ((c, current_depth + 1) :: new).
      rewrite <- app_assoc. cbn [app].
      split; [f_equal; f_equal; set_solver|]. split.
      * intros x. rewrite elem_of_cons, Hnew. split.
        -- intros [->|(c' & -> & ? & ?)]; [exists c|exists c']; set_solver.
        -- intros (c' & -> & [->|?]%elem_of_cons & ?); [by left|].
           destruct (decide (c' = c)) as [->|]; [by left|].
           right. exists c'. set_solver.
      * intros n. rewrite Hd.
        destruct (decide (n = c)) as [->|Hne].
        -- rewrite lookup_insert_eq.
           destruct (decide (c ∈ cs /\ c ∉ {[c]} ∪ seen)),
                    (decide (c ∈ c :: cs /\ c ∉ seen)); set_solver.
        -- rewrite lookup_insert_ne by done.
           destruct (decide (n ∈ cs /\ n ∉ {[c]} ∪ seen)),
                    (decide (n ∈ c :: cs /\ n ∉ seen)); set_solver.
Qed.

Lemma visit_next_measure (U : gset string) (current_depth : Z) (cs : list string)
    (seen : gset string) (distances : gmap string Z) (queue : list (string * Z)) :
  (forall c, c ∈ cs -> c ∈ U) ->
  (length (fold_left (visit_next current_depth) cs (seen, distances, queue)).2
   + size (U ∖ (fold_left (visit_next current_depth) cs (seen, distances, queue)).1.1)
   = length queue + size (U ∖ seen))%nat.
Proof.
  revert seen distances queue.
  induction cs as [|c cs IH]; intros seen distances queue HU; [done|].
  assert (HU' : forall c', c' ∈ cs -> c' ∈ U) by (intros; apply HU; set_solver).
  cbn [fold_left]. unfold visit_next at 2 4.
  destruct (decide (c ∈ seen)) as [Hin|Hnin].
  - by apply IH.
  - rewrite (IH ({[c]} ∪ seen) _ (queue ++ [(c, current_depth + 1)]) HU').
    rewrite length_app. cbn [length].
    assert (Hc : c ∈ U) by (apply HU; set_solver).
    assert (Hsplit : U ∖ seen = {[c]} ∪ U ∖ ({[c]} ∪ seen)).
    { apply set_eq. intros x. destruct (decide (x = c)) as [->|]; set_solver. }
    rewrite Hsplit.
    rewrite (size_union (C:=gset string) {[c]} (U ∖ ({[c]} ∪ seen))) by set_solver.
    rewrite size_singleton. lia.
Qed.

(** Each id enters the queue at most once, so the loop ends within as many
    [popleft]s as there are queued entries and unseen ids. *)
Lemma _bfs_loop_terminates (universe : gset string) (fuel : nat)
    (queue : list (string * Z)) (seen : gset string) (distances : gmap string Z) :
  (forall node, adj_get adjacency node ⊆ universe) ->
  (length queue + size (universe ∖ seen) < fuel)%nat ->
  is_Some (_bfs_loop fuel adjacency depth queue seen distances).
Proof.
  intros Huniverse. revert queue seen distances.
  induction fuel as [|fuel IH]; intros queue seen distances Hlt; [lia|].
  cbn [_bfs_loop]. destruct queue as [|[node current_depth] rest]; [eauto|].
  cbn [length] in Hlt. destruct (depth <=? current_depth).
  - apply IH. lia.
  - pose proof (visit_next_measure universe current_depth
                  (elements (adj_get adjacency node)) seen distances rest) as Hm.
    destruct (fold_left _ _ _) as [[seen' distances'] queue']. cbn [fst snd] in Hm.
    apply IH. rewrite Hm; [lia|].
    intros c Hc. apply elem_of_elements in Hc. by apply (Huniverse node).
Qed.

(** The loop invariant of [_bfs]. *)
Record bfs_inv (queue : list (string * Z)) (seen : gset string)
    (distances : gmap string Z) : Prop := mk_bfs_inv {
  inv_start : forall s, s ∈ starts -> distances !! s = None;
  inv_seen : forall n, n ∈ seen <-> is_Some (depth_of distances n);
  inv_range : forall n d, distances !! n = Some d -> 0 < d <= depth;
  inv_exact : forall n d,
    depth_of distances n = Some d -> 0 <= d /\ least_hops n (Z.to_nat d);
  inv_queue : forall n d, (n, d) ∈ queue -> depth_of distances n = Some d;
  inv_order : queue_ok queue;
  inv_frontier : forall n d m,
    depth_of distances n = Some d -> d < depth ->
    m ∈ adj_get adjacency n -> m ∉ seen -> (n, d) ∈ queue
}.

(** A path that leaves [seen] crosses its frontier at a node recorded with a
    depth below the path's length. *)
Lemma frontier_crossing queue seen distances k n :
  bfs_inv queue seen distances ->
  reached_in k n -> n ∉ seen ->
  exists p d m, depth_of distances p = Some d /\ d < Z.of_nat k
                /\ m ∈ adj_get adjacency p /\ m ∉ seen.
Proof.
  intros Hinv (s & Hs & Hhops). revert n Hhops.
  induction k as [|k IH]; intros n Hhops Hout.
  - cbn in Hhops. subst n. exfalso. apply Hout, (inv_seen _ _ _ Hinv).
    unfold depth_of. rewrite decide_True by done. eauto.
  - destruct Hhops as (c & Hc & Hn).
    destruct (decide (c ∈ seen)) as [Hin|Hnin].
    + apply (inv_seen _ _ _ Hinv) in Hin as [d Hd].
      destruct (inv_exact _ _ _ Hinv _ _ Hd) as [Hd0 [_ Hmin]].
      assert (Hreach : reached_in k c) by (by exists s).
      specialize (Hmin _ Hreach). exists c, d, n. repeat split; try done. lia.
    + destruct (IH c Hc Hnin) as (p & d & m & ? & ? & ? & ?).
      exists p, d, m. repeat split; try done. lia.
Qed.

(** The state [_bfs] and [impact_radius] start from: the start symbols
    queued at depth 0 and marked as seen. *)
Lemma bfs_inv_init (queue : list (string * Z)) :
  (forall x, x ∈ queue <-> exists s, s ∈ starts /\ x = (s, 0)) ->
  bfs_inv queue starts ∅.
Proof.
  intros Hqueue.
  assert (Hdepth : forall n d, depth_of ∅ n = Some d <-> n ∈ starts /\ d = 0).
  { intros n d. unfold depth_of. destruct (decide (n ∈ starts)).
    - split; [by intros [= <-]|by intros [_ ->]].
    - rewrite lookup_empty. split; [done|tauto]. }
  split.
  - intros s _. apply lookup_empty.
  - intros n. unfold depth_of. destruct (decide (n ∈ starts)).
    + split; [eauto|done].
    + rewrite lookup_empty. split; [done|by intros [? ?]].
  - intros n d. by rewrite lookup_empty.
  - intros n d [Hn ->]%Hdepth. split; [done|]. split.
    + by exists n.
    + intros; lia.
  - intros n d (s & Hs & [= -> ->])%Hqueue. by apply Hdepth.
  - destruct queue as [|[n h] q] eqn:E; [done|].
    exists ((n, h) :: q), []. rewrite app_nil_r. split; [done|].
    split; [|constructor]. rewrite <- E in *.
    assert (Hh : h = 0).
    { destruct (proj1 (Hqueue (n, h))) as (s & _ & [= _ ->]); [|done].
      rewrite E. by left. }
    apply Forall_forall. intros x (s & _ & ->)%Hqueue. by rewrite Hh.
  - intros n d m [Hn ->]%Hdepth _ _ _. apply Hqueue. by exists n.
Qed.

Lemma bfs_inv_skip node current_depth rest seen distances :
  depth <= current_depth ->
  bfs_inv ((node, current_depth) :: rest) seen distances ->
  bfs_inv rest seen distances.
Proof.
  intros Hdeep Hinv. split; try apply Hinv.
  - intros n d Hin. apply (inv_queue _ _ _ Hinv). set_solver.
  - rewrite <- (app_nil_r rest).
    by apply (queue_ok_step node current_depth rest []); [apply Hinv|].
  - intros n d m Hd Hlt Hm Hout.
    pose proof (inv_frontier _ _ _ Hinv n d m Hd Hlt Hm Hout) as Hin.
    apply elem_of_cons in Hin as [[= -> ->]|Hin]; [lia|done].
Qed.

Lemma bfs_inv_expand node current_depth rest seen distances seen' distances' queue' :
  current_depth < depth ->
  bfs_inv ((node, current_depth) :: rest) seen distances ->
  fold_left (visit_next current_depth) (elements (adj_get adjacency node))
    (seen, distances, rest) = (seen', distances', queue') ->
  bfs_inv queue' seen' distances'.
Proof.
  intros Hshallow Hinv Hfold.
  destruct (visit_next_fold current_depth (elements (adj_get adjacency node))
              seen distances rest) as (d' & new & Heq & Hnew & Hd).
  rewrite Heq in Hfold. injection Hfold as <- <- <-.
  assert (Hstart : forall s, s ∈ starts -> s ∈ seen).
  { intros s Hs. apply (inv_seen _ _ _ Hinv). unfold depth_of.
    rewrite decide_True by done. eauto. }
  assert (Hnode : depth_of distances node = Some current_depth).
  { apply (inv_queue _ _ _ Hinv). set_solver. }
  destruct (inv_exact _ _ _ Hinv _ _ Hnode) as [Hcd0 [Hreach Hleast]].
  assert (Hdepth' : forall n,
            depth_of d' n
            = if decide (n ∈ adj_get adjacency node /\ n ∉ seen)
              then Some (current_depth + 1) else depth_of distances n).
  { intros n. unfold depth_of. destruct (decide (n ∈ starts)) as [Hs|].
    - apply Hstart in Hs. destruct (decide _) as [[_ ?]|]; done.
    - rewrite Hd.
      destruct (decide (n ∈ elements (adj_get adjacency node) /\ n ∉ seen)),
               (decide (n ∈ adj_get adjacency node /\ n ∉ seen)); set_solver. }
  assert (Hold : forall n, n ∈ seen -> depth_of d' n = depth_of distances n).
  { intros n Hn. rewrite Hdepth'. destruct (decide _) as [[_ ?]|]; done. }
  split.
  - intros s Hs. rewrite Hd. pose proof (Hstart s Hs).
    destruct (decide _) as [[_ ?]|]; [done|by apply Hinv].
  - intros n. rewrite Hdepth'. rewrite elem_of_union, elem_of_list_to_set, elem_of_elements.
    pose proof (inv_seen _ _ _ Hinv n) as Hs.
    destruct (decide (n ∈ adj_get adjacency node /\ n ∉ seen)) as [[Hn Hout]|Hno].
    + split; [eauto|]. intros _. by right.
    + split; [|intros ?; left; by apply Hs]. intros [?|Hn]; [by apply Hs|].
      apply Hs. destruct (decide (n ∈ seen)); [done|tauto].
  - intros n d. rewrite Hd. destruct (decide _).
    + intros [= <-]. lia.
    + apply Hinv.
  - intros n d. rewrite Hdepth'.
    destruct (decide (n ∈ adj_get adjacency node /\ n ∉ seen)) as [[Hn Hout]|Hno];
      [|apply Hinv].
    intros [= <-]. split; [lia|].
    replace (Z.to_nat (current_depth + 1)) with (S (Z.to_nat current_depth)) by lia.
    split.
    { destruct Hreach as (s & Hs & Hhops). exists s. split; [done|]. by exists node. }
    intros k' Hk'. destruct (le_lt_dec (S (Z.to_nat current_depth)) k') as [|Hlt]; [done|].
    exfalso.
    destruct (frontier_crossing _ _ _ _ _ Hinv Hk' Hout) as (p & dp & m & Hp & Hlt' & Hm & Hmout).
    assert (Hpq : (p, dp) ∈ (node, current_depth) :: rest).
    { apply (inv_frontier _ _ _ Hinv p dp m); try done. lia. }
    apply elem_of_cons in Hpq as [[= -> ->]|Hpq]; [lia|].
    pose proof (queue_ok_head _ _ _ _ (inv_order _ _ _ Hinv) Hpq) as Hge.
    cbn in Hge. lia.
  - intros n d [Hin|Hin]%elem_of_app.
    + assert (Hq : depth_of distances n = Some d)
        by (apply (inv_queue _ _ _ Hinv); set_solver).
      rewrite Hold; [done|]. apply (inv_seen _ _ _ Hinv). eauto.
    + apply Hnew in Hin as (c & [= -> ->] & Hc & Hout). rewrite Hdepth'.
      rewrite decide_True; [done|]. set_solver.
  - apply (queue_ok_step node current_depth); [apply Hinv|].
    apply Forall_forall. intros x (c & -> & _)%Hnew. done.
  - intros n d m. rewrite Hdepth'.
    rewrite elem_of_union, elem_of_list_to_set, elem_of_elements.
    destruct (decide (n ∈ adj_get adjacency node /\ n ∉ seen)) as [[Hn Hout]|Hno].
    + intros [= <-] _ _ _. apply elem_of_app. right. apply Hnew.
      exists n. set_solver.
    + intros Hn Hlt Hm Hmout.
      assert (Hin : (n, d) ∈ (node, current_depth) :: rest).
      { apply (inv_frontier _ _ _ Hinv n d m); try done. tauto. }
      apply elem_of_cons in Hin as [[= -> ->]|Hin]; [tauto|].
      apply elem_of_app. by left.
Qed.

Lemma _bfs_loop_inv (fuel : nat) (queue : list (string * Z)) (seen : gset string)
    (distances result : gmap string Z) :
  bfs_inv queue seen distances ->
  _bfs_loop fuel adjacency depth queue seen distances = Some result ->
  exists seen', bfs_inv [] seen' result.
Proof.
  revert queue seen distances.
  induction fuel as [|fuel IH]; intros queue seen distances Hinv Hrun; [done|].
  cbn [_bfs_loop] in Hrun. destruct queue as [|[node current_depth] rest].
  - injection Hrun as <-. by exists seen.
  - destruct (Z.leb_spec depth current_depth) as [Hdeep|Hshallow].
    + by apply (IH rest seen distances); [apply (bfs_inv_skip node current_depth)|].
    + destruct (fold_left _ _ _) as [[seen' distances'] queue'] eqn:Hfold.
      apply (IH queue' seen' distances'); [|done].
      by apply (bfs_inv_expand node current_depth rest seen distances).
Qed.

Lemma bfs_inv_final seen result n d :
  bfs_inv [] seen result ->
  result !! n = Some d
  <-> (n ∉ starts) /\ 0 < d <= depth /\ least_hops n (Z.to_nat d).
Proof.
  intros Hinv. split.
  - intros Hn.
    assert (Hne : n ∉ starts).
    { intros Hs. by rewrite (inv_start _ _ _ Hinv _ Hs) in Hn. }
    split; [done|]. split; [by apply (inv_range _ _ _ Hinv n)|].
    apply (inv_exact _ _ _ Hinv). unfold depth_of. by rewrite decide_False.
  - intros (Hne & Hrange & Hdist).
    assert (Hin : n ∈ seen).
    { destruct (decide (n ∈ seen)) as [|Hout]; [done|]. exfalso.
      destruct (frontier_crossing _ _ _ _ _ Hinv (proj1 Hdist) Hout)
        as (p & dp & m & Hp & Hlt & Hm & Hmout).
      assert (Hq : (p, dp) ∈ @nil (string * Z)).
      { apply (inv_frontier _ _ _ Hinv p dp m); try done. lia. }
      by apply elem_of_nil in Hq. }
    apply (inv_seen _ _ _ Hinv) in Hin as [d' Hd'].
    destruct (inv_exact _ _ _ Hinv _ _ Hd') as [Hd0 Hdist'].
    pose proof (least_hops_unique _ _ _ Hdist Hdist') as Heq.
    unfold depth_of in Hd'. rewrite decide_False in Hd' by done.
    rewrite Hd'. f_equal. lia.
Qed.

End BreadthFirst.

Lemma least_hops_single (adjacency : gmap string (gset string)) (start n : string)
    (k : nat) :
  least_hops adjacency {[start]} n k <-> hop_distance adjacency start n k.
Proof.
  unfold least_hops, hop_distance, reached_in. split.
  - intros [(s & ->%elem_of_singleton & Hhops) Hmin]. split; [done|].
    intros k' Hk'. apply Hmin. exists start. split; [set_solver|done].
  - intros [Hhops Hmin]. split.
    + exists start. split; [set_solver|done].
    + intros k' (s & ->%elem_of_singleton & Hk'). by apply Hmin.
Qed.

(** The adjacency [_bfs] walks: the callers map or the callees map. *)
Definition bfs_adjacency (self : GraphQueryEngine) (rev : bool)
  : gmap string (gset string) :=
  if rev then reverse self else forward self.

Lemma _bfs_returns (self : GraphQueryEngine) (start : string) (rev : bool)
    (depth : Z) :
  exists distances seen,
    _bfs self start rev depth = Some distances
    /\ bfs_inv (bfs_adjacency self rev) {[start]} depth [] seen distances.
Proof.
  unfold _bfs. fold (bfs_adjacency self rev).
  destruct (_bfs_loop_terminates (bfs_adjacency self rev) depth
              (all_callers (bfs_adjacency self rev))
              (bfs_fuel (bfs_adjacency self rev)) [(start, 0)] {[start]} ∅)
    as [distances Hrun].
  { apply adj_get_all_callers. }
  { unfold bfs_fuel. cbn [length].
    assert (Hsub : all_callers (bfs_adjacency self rev) ∖ {[start]}
                   ⊆ all_callers (bfs_adjacency self rev)) by set_solver.
    apply subseteq_size in Hsub. lia. }
  assert (Hinit : bfs_inv (bfs_adjacency self rev) {[start]} depth [(start, 0)]
                    {[start]} ∅).
  { apply bfs_inv_init. intros x. rewrite list_elem_of_singleton. split.
    - intros ->. exists start. split; [set_solver|done].
    - intros (s & ->%elem_of_singleton & ->). done. }
  destruct (_bfs_loop_inv _ _ _ _ _ _ _ _ Hinit Hrun) as [seen Hinv].
  by exists distances, seen.
Qed.

Lemma bfs_final_single (adjacency : gmap string (gset string)) (start : string)
    (depth : Z) (seen : gset string) (result : gmap string Z) (n : string) (d : Z) :
  bfs_inv adjacency {[start]} depth [] seen result ->
  result !! n = Some d
  <-> n <> start /\ 0 < d <= depth /\ hop_distance adjacency start n (Z.to_nat d).
Proof.
  intros Hinv. rewrite (bfs_inv_final _ _ _ seen result n d Hinv).
  rewrite least_hops_single, elem_of_singleton. done.
Qed.

(** X9. [_bfs] returns, and its result maps exactly the symbols other than
    [start] that lie within [depth] edges of it to their least number of
    edges.  The start itself is never reported, also when it lies on a
    cycle, and a depth of 0 or less reports nothing. *)
Theorem bfs_shortest_distances (self : GraphQueryEngine) (start : string)
    (rev : bool) (depth : Z) :
  exists distances,
    _bfs self start rev depth = Some distances
    /\ forall n d,
         distances !! n = Some d
         <-> n <> start /\ 0 < d <= depth
             /\ hop_distance (bfs_adjacency self rev) start n (Z.to_nat d).
Proof.
  destruct (_bfs_returns self start rev depth) as (distances & seen & Hrun & Hinv).
  exists distances. split; [exact Hrun|].
  intros n d. by apply (bfs_final_single _ _ _ seen).
Qed.

(** ** indexer.py and graph_store.py: a built graph passes the check *)

Section BuildConsistency.

Lemma dict_get_insert_by {V} (x : string * V) (d : pydict V) (k : string) :
  dict_get (insert_by fst x d) k
  = if String.eqb (fst x) k then Some (snd x) else dict_get d k.
Proof.
  unfold dict_get. induction d as [|y d IH]; cbn [insert_by List.find].
  - by destruct (String.eqb (fst x) k).
  - destruct (py_le (fst x) (fst y)) eqn:Hle; cbn [List.find].
    + by destruct (String.eqb (fst x) k).
    + destruct (String.eqb_spec (fst y) k) as [Hy|Hy].
      * destruct (String.eqb_spec (fst x) k) as [Hx|Hx]; [|done].
        rewrite Hx, Hy, py_le_refl in Hle. done.
      * exact IH.
Qed.

(** Sorting a mapping by key does not change what a key is bound to. *)
Lemma dict_get_key_sorted {V} (d : pydict V) (k : string) :
  dict_get (key_sorted d) k = dict_get d k.
Proof.
  unfold key_sorted. induction d as [|x d IH]; cbn [sorted_by]; [done|].
  rewrite dict_get_insert_by, IH. unfold dict_get. cbn [List.find].
  by destruct (String.eqb (fst x) k).
Qed.

Lemma dict_get_map_values {V W} (f : V -> W) (d : pydict V) (k : string) :
  dict_get (map (fun '(key, value) => (key, f value)) d) k = f <$> dict_get d k.
Proof.
  unfold dict_get. induction d as [|[k' v] d IH]; cbn [map List.find fst]; [done|].
  by destruct (String.eqb k' k).
Qed.

Lemma sorted_unique_elem (values : list string) (x : string) :
  x ∈ _sorted_unique values <-> x ∈ values.
Proof.
  unfold _sorted_unique.
  rewrite (sorted_by_elem id), elem_of_elements, elem_of_list_to_set. done.
Qed.

Lemma elem_of_flat_map_snd {V} (d : pydict (list V)) (x : V) :
  x ∈ flat_map snd d <-> exists k l, (k, l) ∈ d /\ x ∈ l.
Proof.
  rewrite list_elem_of_In, in_flat_map. split.
  - intros ([k l] & Hin & Hx). exists k, l. by rewrite !list_elem_of_In.
  - intros (k & l & Hin & Hx). exists (k, l). by rewrite <- !list_elem_of_In.
Qed.

Lemma normalize_index_values (value : pydict (list string)) (sid : string) :
  sid ∈ flat_map snd (normalize_index value) <-> sid ∈ flat_map snd value.
Proof.
  unfold normalize_index, key_sorted. rewrite !elem_of_flat_map_snd. split.
  - intros (k & l & Hin & Hsid).
    apply list_elem_of_fmap in Hin as ([k' l'] & [= -> ->] & Hin).
    rewrite (sorted_by_elem fst) in Hin. rewrite sorted_unique_elem in Hsid. eauto.
  - intros (k & l & Hin & Hsid). exists k, (_sorted_unique l). split.
    + apply list_elem_of_fmap. exists (k, l). split; [done|].
      by rewrite (sorted_by_elem fst).
    + by rewrite sorted_unique_elem.
Qed.

Lemma normalize_graph_ids (g : Graph) :
  symbol_ids_of (normalize_graph g) = symbol_ids_of g
  /\ file_ids_of (normalize_graph g) = file_ids_of g.
Proof.
  unfold symbol_ids_of, file_ids_of, graph_symbols, graph_files, normalize_graph.
  cbn [g_symbols g_files default from_option].
  split; apply set_eq; intros x; rewrite !elem_of_list_to_set, !list_elem_of_fmap;
    by setoid_rewrite sorted_by_elem.
Qed.

(** Normalizing a graph neither creates nor removes a dangling reference of
    the kinds the consistency check looks at. *)
Lemma normalize_graph_references (g : Graph) :
  checked_references_exist (normalize_graph g) <-> checked_references_exist g.
Proof.
  unfold checked_references_exist.
  destruct (normalize_graph_ids g) as [-> ->].
  assert (Hidx : forall sid,
            sid ∈ index_values (normalize_graph g) "symbols_by_file"
            <-> sid ∈ index_values g "symbols_by_file").
  { intros sid. unfold index_values.
    change (graph_indexes (normalize_graph g))
      with (map (fun '(key, value) => (key, normalize_index value))
              (key_sorted (graph_indexes g))).
    rewrite dict_get_map_values, dict_get_key_sorted.
    destruct (dict_get (graph_indexes g) "symbols_by_file") as [value|];
      cbn [fmap option_fmap option_map default from_option]; [|done].
    apply normalize_index_values. }
  change (graph_edges_calls (normalize_graph g))
    with (sorted_by normalize_call_key (graph_edges_calls g)).
  change (graph_edges_depends_on (normalize_graph g))
    with (sorted_by normalize_dep_key (graph_edges_depends_on g)).
  rewrite !Forall_forall.
  setoid_rewrite sorted_by_elem. setoid_rewrite Hidx. done.
Qed.

Lemma pick_candidates_symbols (symbols : list Symbol) (call : CallEvent) :
  Forall (fun s => s ∈ symbols) (_pick_candidates call (_index_functions symbols)).
Proof.
  assert (Hl : forall q a n, Forall (fun s => s ∈ symbols) (key_lookup symbols q a n)).
  { intros q a n. apply Forall_forall. intros s Hs.
    apply list_elem_of_In, filter_In in Hs as [Hs _]. by apply list_elem_of_In. }
  unfold _pick_candidates, pick_unqualified.
  rewrite by_name_arity_lookup, by_name_lookup.
  destruct (call_qualifier call) as [q|];
    [rewrite by_container_name_arity_lookup, by_container_name_lookup|];
    repeat match goal with |- context [if ?b then _ else _] => destruct b end;
    apply Hl.
Qed.

Lemma resolve_call_endpoints (symbols : list Symbol) (call : CallEvent) :
  ce_source (resolve_call (_index_functions symbols) call)
  = call_source_symbol_id call
  /\ forall target,
       ce_target (resolve_call (_index_functions symbols) call) = Some target ->
       target ∈ map sym_id symbols.
Proof.
  unfold resolve_call.
  pose proof (pick_candidates_symbols symbols call) as Hc.
  destruct (_pick_candidates call (_index_functions symbols)) as [|t [|t' rest]];
    (split; [done|]); intros target [= <-].
  apply Forall_inv in Hc. apply list_elem_of_fmap. eauto.
Qed.

Lemma or_empty_truthy (o : option string) :
  truthy (or_empty o) = true -> o = Some (or_empty o).
Proof.
  destruct o as [s|]; cbn; [|done]. destruct (truthy s) eqn:E; [done|].
  by cbn.
Qed.

Variable sha256_hex : string -> string.
Variable str_lower : string -> string.

Lemma build_indexes_symbols_by_file symbols files edges_calls :
  dict_get (_build_indexes str_lower symbols files edges_calls) "symbols_by_file"
  = Some (sorted_items
            (sorted_by id
               <$> fold_left (fun m symbol => dd_append (sym_file symbol) (sym_id symbol) m)
                     symbols (∅ : gmap string (list string)))).
Proof.
  unfold _build_indexes. destruct (fold_left _ edges_calls _) as [[? ?] ?].
  reflexivity.
Qed.

(** X10. A build whose call events are raised in known symbols, over symbols
    whose files all have a file record, yields a graph on which the
    consistency check reports no error, as built and as saved (normalized). *)
Theorem build_passes_doctor (existing_graph : option Graph) (st : BuildState)
    (graph_file : string) (strict : bool) :
  (forall call, call ∈ bs_calls st ->
     truthy (call_source_symbol_id call) = true ->
     call_source_symbol_id call ∈ map sym_id (bs_symbols st)) ->
  (forall symbol, symbol ∈ bs_symbols st ->
     sym_file symbol ∈ map file_id (bs_files_payload st)) ->
  exists g,
    build_graph sha256_hex str_lower existing_graph st = Some g
    /\ doctor_check graph_file (Some g) strict = (true, [])
    /\ doctor_check graph_file (Some (normalize_graph g)) strict = (true, []).
Proof.
  intros Hcalls Hfiles. unfold build_graph.
  destruct (compute_impact_total (bs_symbols st)
              (resolve_calls (bs_symbols st) (bs_calls st))
              (_resolve_mutation_edges (bs_symbols st) (bs_mutations st))
              (bs_culture_by_file st)) as [impact ->].
  cbn [mbind option_bind]. eexists. split; [reflexivity|].
  match goal with |- doctor_check _ (Some ?g0) _ = _ /\ _ => set (g := g0) end.
  assert (Hshape : shape_ok g) by (unfold shape_ok, g; cbn; repeat split; eauto).
  assert (Hrefs : checked_references_exist g).
  { unfold checked_references_exist, symbol_ids_of, file_ids_of, index_values,
      graph_symbols, graph_files, graph_edges_calls, graph_edges_depends_on,
      graph_indexes, g.
    cbn [g_symbols g_files g_edges_calls g_edges_depends_on g_indexes default
         from_option id].
    split; [|split].
    - apply Forall_forall. intros e He.
      apply (proj1 (sorted_by_elem _ _ _)) in He.
      apply list_elem_of_fmap in He as (call & -> & Hcall).
      destruct (resolve_call_endpoints (bs_symbols st) call) as [Hsrc Htgt].
      unfold endpoint_ok. rewrite Hsrc, !elem_of_list_to_set. split.
      + by apply Hcalls.
      + intros Ht. apply Htgt. by apply or_empty_truthy.
    - rewrite build_dependency_edges_fold. apply Forall_forall. intros d Hd.
      apply list_elem_of_fmap in Hd as ([sf tf] & -> & Hin).
      apply (proj1 (sorted_by_elem _ _ _)) in Hin. apply elem_of_elements in Hin.
      apply dep_fold_elem in Hin as [Hin|[_ (e & _ & _ & _ & _ & ss & ts & Hss & Hts & <- & <-)]];
        [set_solver|].
      apply dict_by_Some in Hss as [Hss _], Hts as [Hts _].
      cbn [dep_source_file dep_target_file]. rewrite !elem_of_list_to_set.
      split; by apply Hfiles.
    - rewrite build_indexes_symbols_by_file. cbn [default from_option].
      apply Forall_forall. intros sid Hsid.
      apply elem_of_flat_map_snd in Hsid as (k & l & Hin & Hsid).
      unfold sorted_items in Hin.
      apply (proj1 (sorted_by_elem _ _ _)) in Hin.
      apply elem_of_map_to_list in Hin. rewrite lookup_fmap in Hin.
      destruct (fold_left _ _ _ !! k) as [l0|] eqn:Hk; [|done].
      injection Hin as <-.
      apply (proj1 (sorted_by_elem _ _ _)) in Hsid.
      assert (Hgroup :
                dd_get (fold_left
                          (fun m symbol => dd_append (sym_file symbol) (sym_id symbol) m)
                          (bs_symbols st) (∅ : gmap string (list string))) k
                = map sym_id
                    (List.filter (fun x => bool_decide (sym_file x = k)) (bs_symbols st))).
      { pose proof (dd_fold_group (fun _ : Symbol => true) sym_file sym_id
                      (bs_symbols st) ∅ k) as Hg.
        unfold dd_get at 2 in Hg. rewrite lookup_empty in Hg. exact Hg. }
      unfold dd_get in Hgroup. rewrite Hk in Hgroup.
      cbn [from_option id] in Hgroup. subst l0.
      apply list_elem_of_fmap in Hsid as (s & -> & Hs).
      apply list_elem_of_In, filter_In in Hs as [Hs _].
      apply elem_of_list_to_set, list_elem_of_fmap. exists s.
      split; [done|]. by apply list_elem_of_In. }
  split.
  - cbn [doctor_check].
    rewrite (proj2 (doctor_errors_nil g) (conj Hshape Hrefs)). done.
  - cbn [doctor_check].
    rewrite (proj2 (doctor_errors_nil (normalize_graph g))); [done|].
    split; [|by apply normalize_graph_references].
    unfold shape_ok, normalize_graph, g; cbn; repeat split; eauto.
Qed.

End BuildConsistency.

(** Two files, with a call from a function of the first to a function of the
    second. *)
Definition two_file_state : BuildState :=
  {| bs_repo_root := "/repo";
     bs_repo_digest := "no-git";
     bs_files_total := 2;
     bs_symbols :=
       [mkSymbol "/repo/a.swift::A::run()::L3" "run" "run()" "function" 0 "A"
          "internal" "/repo/a.swift" 3;
        mkSymbol "/repo/b.swift::B::step()::L5" "step" "step()" "function" 0 "B"
          "public" "/repo/b.swift" 5];
     bs_calls := [mkCallEvent "/repo/a.swift::A::run()::L3" "step" None 0 4];
     bs_mutations := [];
     bs_files_payload :=
       [mkFileRecord "/repo/a.swift" "a.swift" "h1" "Citizen" 1 1 0 0;
        mkFileRecord "/repo/b.swift" "b.swift" "h2" "Citizen" 1 1 0 0];
     bs_culture_by_file :=
       {["/repo/a.swift" := "Citizen"; "/repo/b.swift" := "Citizen"]};
     bs_file_hash_pairs := [("a.swift", "h1"); ("b.swift", "h2")];
     bs_now := "2024-01-01T00:00:00+00:00";
     bs_duration_ms := 7;
     bs_files_reparsed := 2;
     bs_files_reused := 0 |}.

Lemma build_passes_doctor_witness :
  exists g,
    build_graph id id None two_file_state = Some g
    /\ doctor_check "/repo/.semantic-index/graph.json" (Some g) true = (true, [])
    /\ doctor_check "/repo/.semantic-index/graph.json" (Some (normalize_graph g)) true
       = (true, []).
Proof.
  apply (build_passes_doctor id id None two_file_state).
  - intros call Hcall _. apply list_elem_of_singleton in Hcall as ->.
    apply (bool_decide_unpack _). vm_compute. exact I.
  - intros symbol Hsym.
    apply elem_of_cons in Hsym as [->|Hsym];
      [|apply list_elem_of_singleton in Hsym as ->];
      apply (bool_decide_unpack _); vm_compute; exact I.
Defined.

(** ** query_tools.py: caller and callee slices *)

Section SortWith.
Context {A : Type}.
Variable le : A -> A -> bool.

(** [list.sort(key=...)] for a key whose order is [le]: stable. *)
Fixpoint insert_with (x : A) (l : list A) : list A :=
  match l with
  | [] => [x]
  | y :: l' => if le x y then x :: y :: l' else y :: insert_with x l'
  end.

Fixpoint sorted_with (l : list A) : list A :=
  match l with
  | [] => []
  | x :: l' => insert_with x (sorted_with l')
  end.

Lemma insert_with_perm x l : insert_with x l ≡ₚ x :: l.
Proof.
  induction l as [|y l IH]; cbn [insert_with]; [done|].
  destruct (le x y); [done|]. rewrite IH. apply perm_swap.
Qed.

Lemma sorted_with_perm l : sorted_with l ≡ₚ l.
Proof.
  induction l as [|x l IH]; cbn [sorted_with]; [done|].
  by rewrite insert_with_perm, IH.
Qed.
End SortWith.

Record SymbolPayload := mkSymbolPayload {
  sp_id : string;
  sp_name : string;
  sp_signature : string;
  sp_kind : string;
  sp_file : string;
  sp_line : Z;
  sp_culture : string;
  sp_distance : Z;
  sp_impact_score : Q
}.

(** [_symbol_payload(sid, distance)]; [None] is the [KeyError] of
    [self.symbol_by_id[sid]]. *)
Definition _symbol_payload (self : GraphQueryEngine) (sid : string) (distance : Z)
  : option SymbolPayload :=
  symbol ← symbol_by_id self !! sid;
  let culture :=
    match file_by_id self !! sym_file symbol with
    | Some file_record => file_culture file_record
    | None => "Citizen"
    end in
  let impact := dict_get (impact_symbols self) sid in
  Some {| sp_id := sid;
          sp_name := sym_name symbol;
          sp_signature := sym_signature symbol;
          sp_kind := sym_kind symbol;
          sp_file := sym_file symbol;
          sp_line := sym_line symbol;
          sp_culture := culture;
          sp_distance := distance;
          sp_impact_score := default 0%Q (si_score <$> impact) |}.

(** [<] on the sort key [(distance, -impact_score, id)]: decided by the
    first component on which the two keys differ. *)
Definition slice_key_lt (a b : SymbolPayload) : bool :=
  if negb (sp_distance a =? sp_distance b) then sp_distance a <? sp_distance b
  else if negb (Qeq_bool (- sp_impact_score a) (- sp_impact_score b))
  then Qltb (- sp_impact_score a) (- sp_impact_score b)
  else negb (String.leb (sp_id b) (sp_id a)).

Definition slice_key_le (a b : SymbolPayload) : bool := negb (slice_key_lt b a).

Record CallSlice := mkCallSlice {
  cs_symbol_id : string;
  cs_depth : Z;
  cs_resolved_edges : Z;
  cs_ambiguous_edges : Z;
  cs_external_edges : Z;
  cs_nodes : list SymbolPayload
}.

(** [sum(1 for edge in self.edges_calls if ...)] *)
Definition count_edges (self : GraphQueryEngine) (test : CallEdge -> bool) : Z :=
  Z.of_nat (length (List.filter test (edges_calls self))).

(** [get_callers(symbol_id, depth)]; [None] is a [KeyError]. *)
Definition get_callers (self : GraphQueryEngine) (symbol_id : string) (depth : Z)
  : option CallSlice :=
  match symbol_by_id self !! symbol_id with
  | None => None
  | Some _ =>
      distances ← _bfs self symbol_id true depth;
      nodes ← mapM (fun '(sid, dist) => _symbol_payload self sid dist)
                (sorted_by id (map_to_list distances));
      let nodes := sorted_with slice_key_le nodes in
      let resolved :=
        count_edges self
          (fun edge => String.eqb (ce_resolution edge) EDGE_RESOLUTION_RESOLVED
                       && bool_decide (ce_target edge = Some symbol_id)) in
      let ambiguous :=
        count_edges self
          (fun edge => String.eqb (ce_resolution edge) EDGE_RESOLUTION_AMBIGUOUS
                       && bool_decide (symbol_id ∈ ce_target_candidates edge)) in
      Some {| cs_symbol_id := symbol_id;
              cs_depth := depth;
              cs_resolved_edges := resolved;
              cs_ambiguous_edges := ambiguous;
              cs_external_edges := 0;
              cs_nodes := nodes |}
  end.

(** [get_callees(symbol_id, depth)]; [None] is a [KeyError]. *)
Definition get_callees (self : GraphQueryEngine) (symbol_id : string) (depth : Z)
  : option CallSlice :=
  match symbol_by_id self !! symbol_id with
  | None => None
  | Some _ =>
      distances ← _bfs self symbol_id false depth;
      nodes ← mapM (fun '(sid, dist) => _symbol_payload self sid dist)
                (sorted_by id (map_to_list distances));
      let nodes := sorted_with slice_key_le nodes in
      let resolved :=
        count_edges self
          (fun edge => String.eqb (ce_resolution edge) EDGE_RESOLUTION_RESOLVED
                       && String.eqb (ce_source edge) symbol_id) in
      let ambiguous :=
        count_edges self
          (fun edge => String.eqb (ce_resolution edge) EDGE_RESOLUTION_AMBIGUOUS
                       && String.eqb (ce_source edge) symbol_id) in
      let external :=
        count_edges self
          (fun edge => String.eqb (ce_resolution edge) EDGE_RESOLUTION_EXTERNAL
                       && String.eqb (ce_source edge) symbol_id) in
      Some {| cs_symbol_id := symbol_id;
              cs_depth := depth;
              cs_resolved_edges := resolved;
              cs_ambiguous_edges := ambiguous;
              cs_external_edges := external;
              cs_nodes := nodes |}
  end.

Section Slices.

(** The slice lists symbol [n] at distance [d]. *)
Definition reported (slice : CallSlice) (n : string) (d : Z) : Prop :=
  exists payload,
    payload ∈ cs_nodes slice /\ sp_id payload = n /\ sp_distance payload = d.

(** The nodes both slices compute. *)
Definition slice_nodes (self : GraphQueryEngine) (rev : bool) (symbol_id : string)
    (depth : Z) : option (list SymbolPayload) :=
  distances ← _bfs self symbol_id rev depth;
  nodes ← mapM (fun '(sid, dist) => _symbol_payload self sid dist)
            (sorted_by id (map_to_list distances));
  Some (sorted_with slice_key_le nodes).

Lemma get_callers_nodes self symbol_id depth :
  get_callers self symbol_id depth
  = (_ ← symbol_by_id self !! symbol_id;
     nodes ← slice_nodes self true symbol_id depth;
     Some {| cs_symbol_id := symbol_id;
             cs_depth := depth;
             cs_resolved_edges :=
               count_edges self
                 (fun edge => String.eqb (ce_resolution edge) EDGE_RESOLUTION_RESOLVED
                              && bool_decide (ce_target edge = Some symbol_id));
             cs_ambiguous_edges :=
               count_edges self
                 (fun edge => String.eqb (ce_resolution edge) EDGE_RESOLUTION_AMBIGUOUS
                              && bool_decide (symbol_id ∈ ce_target_candidates edge));
             cs_external_edges := 0;
             cs_nodes := nodes |}).
Proof.
  unfold get_callers, slice_nodes.
  destruct (symbol_by_id self !! symbol_id); [|done]. cbn [mbind option_bind].
  destruct (_bfs self symbol_id true depth); [|done]. cbn [mbind option_bind].
  by destruct (mapM _ _).
Qed.

Lemma get_callees_nodes self symbol_id depth :
  exists resolved ambiguous external,
    get_callees self symbol_id depth
    = (_ ← symbol_by_id self !! symbol_id;
       nodes ← slice_nodes self false symbol_id depth;
       Some (mkCallSlice symbol_id depth resolved ambiguous external nodes)).
Proof.
  do 3 eexists. unfold get_callees, slice_nodes.
  destruct (symbol_by_id self !! symbol_id); [|done]. cbn [mbind option_bind].
  destruct (_bfs self symbol_id false depth); [|done]. cbn [mbind option_bind].
  destruct (mapM _ _); reflexivity.
Qed.

(** Every id in an adjacency set of the engine is an endpoint of a call
    edge, so it is known as soon as the edges' endpoints are. *)
Lemma engine_adjacency_known (ids : gset string) (edges : list CallEdge)
    (adj : gmap string (gset string) * gmap string (gset string)) :
  Forall (fun e => endpoint_ok ids (ce_source e)
                   /\ endpoint_ok ids (or_empty (ce_target e))) edges ->
  (forall c n, n ∈ adj_get adj.1 c \/ n ∈ adj_get adj.2 c -> n ∈ ids) ->
  forall c n,
    n ∈ adj_get (fold_left add_resolved_edge edges adj).1 c
    \/ n ∈ adj_get (fold_left add_resolved_edge edges adj).2 c ->
    n ∈ ids.
Proof.
  intros Hedges. revert adj.
  induction Hedges as [|e edges [Hs Ht] _ IH]; intros adj Hadj; [exact Hadj|].
  cbn [fold_left]. apply IH. intros c n.
  unfold add_resolved_edge.
  destruct (negb (String.eqb (ce_resolution e) EDGE_RESOLUTION_RESOLVED));
    [apply Hadj|].
  destruct (truthy (ce_source e)) eqn:Hsrc; cbn [andb]; [|apply Hadj].
  destruct (truthy (or_empty (ce_target e))) eqn:Htgt; [|apply Hadj].
  cbn [fst snd]. rewrite !adj_get_add.
  destruct (decide (ce_source e = c)), (decide (or_empty (ce_target e) = c));
    rewrite ?elem_of_union, ?elem_of_singleton;
    intros [[->|?]|[->|?]] || intros [[->|?]|?] || intros [?|[->|?]] || intros [?|?];
    try (by apply Hs); try (by apply Ht); apply (Hadj c); auto.
Qed.

(** When the endpoints of the call edges are symbols of the graph, so is
    every id in the engine's adjacency sets. *)
Lemma checked_adjacency_known (g : Graph) :
  Forall (fun e => endpoint_ok (symbol_ids_of g) (ce_source e)
                   /\ endpoint_ok (symbol_ids_of g) (or_empty (ce_target e)))
    (graph_edges_calls g) ->
  forall rev c n,
    n ∈ adj_get (bfs_adjacency (new_engine g) rev) c ->
    is_Some (symbol_by_id (new_engine g) !! n).
Proof.
  intros Hedges rev c n Hn. cbn [symbol_by_id new_engine]. apply dict_by_is_Some.
  apply (elem_of_list_to_set (C:=gset string)).
  apply (engine_adjacency_known (symbol_ids_of g) (graph_edges_calls g) (∅, ∅) Hedges)
    with (c := c).
  - intros c' n' [Hin|Hin]; cbn [fst snd] in Hin; unfold adj_get in Hin;
      rewrite lookup_empty in Hin; set_solver.
  - destruct rev; cbn [bfs_adjacency reverse forward new_engine] in Hn; auto.
Qed.

Lemma symbol_payload_Some self sid distance payload :
  _symbol_payload self sid distance = Some payload ->
  sp_id payload = sid /\ sp_distance payload = distance.
Proof.
  unfold _symbol_payload. destruct (symbol_by_id self !! sid); [|done].
  cbn [mbind option_bind]. by intros [= <-].
Qed.

Lemma symbol_payload_ids self (items : list (string * Z)) (nodes : list SymbolPayload) :
  Forall2 (fun x y => (let '(sid, dist) := x in _symbol_payload self sid dist) = Some y)
    items nodes ->
  map sp_id nodes = map fst items.
Proof.
  induction 1 as [|[n d] payload items' nodes' Hf _ IH]; [done|].
  cbn [map fst]. apply symbol_payload_Some in Hf as [Hid _]. by rewrite Hid, IH.
Qed.

(** The nodes of a slice are the payloads of the traversal's result,
    provided every symbol the traversal reaches is a known symbol. *)
Lemma slice_nodes_reported self rev symbol_id depth :
  (forall c n, n ∈ adj_get (bfs_adjacency self rev) c ->
               is_Some (symbol_by_id self !! n)) ->
  exists nodes,
    slice_nodes self rev symbol_id depth = Some nodes
    /\ NoDup (map sp_id nodes)
    /\ forall n d,
         (exists payload, payload ∈ nodes /\ sp_id payload = n
                          /\ sp_distance payload = d)
         <-> n <> symbol_id /\ 0 < d <= depth
             /\ hop_distance (bfs_adjacency self rev) symbol_id n (Z.to_nat d).
Proof.
  intros Hknown. unfold slice_nodes.
  destruct (_bfs_returns self symbol_id rev depth) as (distances & seen & -> & Hinv).
  cbn [mbind option_bind].
  pose proof (fun n d => bfs_final_single _ _ _ seen distances n d Hinv) as Hfinal.
  set (f := fun '(sid, dist) => _symbol_payload self sid dist).
  set (items := sorted_by id (map_to_list distances)).
  assert (Hitems : forall n d, (n, d) ∈ items <-> distances !! n = Some d).
  { intros n d. unfold items. rewrite (sorted_by_elem id). apply elem_of_map_to_list. }
  destruct (mapM_is_Some_2 f items) as [nodes Hnodes].
  { apply Forall_forall. intros [n d] Hin. apply Hitems, Hfinal in Hin.
    destruct Hin as (_ & Hd & [Hhops _]).
    destruct (Z.to_nat d) as [|k] eqn:Hk; [lia|].
    destruct Hhops as (c & _ & Hn). apply Hknown in Hn as [symbol Hsym].
    unfold f, compose, _symbol_payload. rewrite Hsym. by eexists. }
  rewrite Hnodes. cbn [mbind option_bind]. eexists. split; [reflexivity|].
  apply mapM_Some_1 in Hnodes. split.
  { rewrite sorted_with_perm.
    rewrite (symbol_payload_ids _ _ _ Hnodes).
    unfold items. rewrite sorted_by_perm.
    apply NoDup_fst_map_to_list. }
  intros n d. rewrite <- Hfinal, <- Hitems. split.
  - intros (payload & Hin & <- & <-).
    rewrite sorted_with_perm in Hin.
    apply list_elem_of_lookup in Hin as [i Hi].
    destruct (Forall2_lookup_r _ _ _ _ _ Hnodes Hi) as ([n d] & Hx & Hf).
    apply symbol_payload_Some in Hf as [-> ->].
    apply list_elem_of_lookup. by exists i.
  - intros Hin. apply list_elem_of_lookup in Hin as [i Hi].
    destruct (Forall2_lookup_l _ _ _ _ _ Hnodes Hi) as (payload & Hp & Hf).
    exists payload. apply symbol_payload_Some in Hf as [-> ->].
    split; [|done]. rewrite sorted_with_perm. apply list_elem_of_lookup. by exists i.
Qed.

(** X11. On a graph that passes the consistency check, [get_callers] and
    [get_callees] succeed for every known symbol and every depth, and they
    list exactly the other symbols within [depth] resolved calls of it,
    upstream and downstream, each once with its least number of calls;
    [get_callers] always reports 0 external edges. *)
Theorem slices_of_checked_graph (g : Graph) (graph_file : string) (strict : bool)
    (symbol_id : string) (depth : Z) :
  doctor_check graph_file (Some g) strict = (true, []) ->
  symbol_id ∈ map sym_id (graph_symbols g) ->
  (exists slice,
     get_callers (new_engine g) symbol_id depth = Some slice
     /\ cs_external_edges slice = 0
     /\ NoDup (map sp_id (cs_nodes slice))
     /\ forall n d,
          reported slice n d
          <-> n <> symbol_id /\ 0 < d <= depth
              /\ hop_distance (reverse (new_engine g)) symbol_id n (Z.to_nat d))
  /\ (exists slice,
        get_callees (new_engine g) symbol_id depth = Some slice
        /\ NoDup (map sp_id (cs_nodes slice))
        /\ forall n d,
             reported slice n d
             <-> n <> symbol_id /\ 0 < d <= depth
                 /\ hop_distance (forward (new_engine g)) symbol_id n (Z.to_nat d)).
Proof.
  intros Hdoctor Hsid. cbn [doctor_check] in Hdoctor.
  injection Hdoctor as _ Herrors.
  apply doctor_errors_nil in Herrors as [_ (Hedges & _ & _)].
  pose proof (checked_adjacency_known g Hedges) as Hknown.
  assert (Hsym : is_Some (symbol_by_id (new_engine g) !! symbol_id)).
  { cbn [symbol_by_id new_engine]. by apply dict_by_is_Some. }
  destruct Hsym as [symbol Hsym]. split.
  - destruct (slice_nodes_reported (new_engine g) true symbol_id depth (Hknown true))
      as (nodes & Hnodes & Hnd & Hrep).
    rewrite get_callers_nodes, Hsym. cbn [mbind option_bind].
    rewrite Hnodes. cbn [mbind option_bind]. eexists. split; [reflexivity|].
    split; [done|]. split; [exact Hnd|exact Hrep].
  - destruct (slice_nodes_reported (new_engine g) false symbol_id depth (Hknown false))
      as (nodes & Hnodes & Hnd & Hrep).
    destruct (get_callees_nodes (new_engine g) symbol_id depth)
      as (resolved & ambiguous & external & ->).
    rewrite Hsym. cbn [mbind option_bind].
    rewrite Hnodes. cbn [mbind option_bind]. eexists. split; [reflexivity|].
    split; [exact Hnd|exact Hrep].
Qed.

End Slices.

Definition two_file_graph : Graph :=
  default (mkGraph None None None None None None None None)
    (build_graph id id None two_file_state).

Lemma slices_of_checked_graph_witness :
  (exists slice,
     get_callers (new_engine two_file_graph) "/repo/b.swift::B::step()::L5" 2
     = Some slice
     /\ cs_external_edges slice = 0
     /\ NoDup (map sp_id (cs_nodes slice))
     /\ forall n d,
          reported slice n d
          <-> n <> "/repo/b.swift::B::step()::L5" /\ 0 < d <= 2
              /\ hop_distance (reverse (new_engine two_file_graph))
                   "/repo/b.swift::B::step()::L5" n (Z.to_nat d))
  /\ (exists slice,
        get_callees (new_engine two_file_graph) "/repo/b.swift::B::step()::L5" 2
        = Some slice
        /\ NoDup (map sp_id (cs_nodes slice))
        /\ forall n d,
             reported slice n d
             <-> n <> "/repo/b.swift::B::step()::L5" /\ 0 < d <= 2
                 /\ hop_distance (forward (new_engine two_file_graph))
                      "/repo/b.swift::B::step()::L5" n (Z.to_nat d)).
Proof.
  apply (slices_of_checked_graph two_file_graph "/repo/.semantic-index/graph.json" true).
  - vm_compute. reflexivity.
  - apply (bool_decide_unpack _). vm_compute. exact I.
Defined.

(** ** graph_store.py and indexer.py: checking a saved graph *)

Section SavedGraph.

(** X12. Normalizing supplies every section but [meta], so on a normalized graph
    the consistency check passes exactly when the original carries the
    expected schema version and has no dangling reference of the kinds the
    check looks at: a section the original lacks is not reported. *)
Theorem normalized_graph_doctor_verdict (graph_file : string) (g : Graph)
    (strict : bool) :
  doctor_check graph_file (Some (normalize_graph g)) strict = (true, [])
  <-> g_meta g ≫= meta_schema_version = Some SCHEMA_VERSION
      /\ checked_references_exist g.
Proof.
  cbn [doctor_check].
  assert (Hnil : (Nat.eqb (length (doctor_errors (normalize_graph g))) 0,
                  doctor_errors (normalize_graph g)) = (true, [])
                 <-> doctor_errors (normalize_graph g) = []).
  { split; [by intros [= _ ->]|by intros ->]. }
  rewrite Hnil, doctor_errors_nil, normalize_graph_references.
  unfold shape_ok, normalize_graph.
  cbn [g_meta g_files g_symbols g_edges_calls g_edges_mutations g_edges_depends_on
       g_impact g_indexes].
  split.
  - intros [(_ & _ & _ & _ & _ & _ & _ & _ & Hv) Hrefs]. done.
  - intros [Hv Hrefs]. split; [|done].
    destruct (g_meta g) as [meta|]; [|done]. repeat split; eauto.
Qed.

End SavedGraph.

(** ** indexer.py: the content digest *)

Section ContentDigest.
Variable sha256_hex : string -> string.

(** X13. The content digest does not depend on the order in which the files were
    hashed: two listings of the same (path, hash) pairs give the same
    digest. *)
Theorem content_digest_order_independent (pairs1 pairs2 : list (string * string)) :
  pairs1 ≡ₚ pairs2 ->
  content_digest_of sha256_hex pairs1 = content_digest_of sha256_hex pairs2.
Proof.
  intros Hperm. unfold content_digest_of. do 3 f_equal.
  by apply sorted_by_permutation_invariant.
Qed.

End ContentDigest.

Lemma content_digest_order_independent_witness :
  content_digest_of id [("b.swift", "h2"); ("a.swift", "h1")]
  = content_digest_of id [("a.swift", "h1"); ("b.swift", "h2")].
Proof.
  apply (content_digest_order_independent id). apply perm_swap.
Defined.

(** ** extract_atoms.py *)

(** What [analyze_file] returns for one file, as the build uses it. *)
Record Analysis := mkAnalysis {
  an_file : string;
  an_rel_path : option string;     (* read with [.get("rel_path", file_path)] *)
  an_hash : string;
  an_types : list Symbol;
  an_functions : list Symbol;
  an_variables : list Symbol;
  an_calls : list CallEvent;
  an_mutations : list MutationEvent
}.

Definition flatten_symbols (analyses : list Analysis) : list Symbol :=
  sorted_by sym_id
    (flat_map (fun analysis =>
                 an_types analysis ++ an_functions analysis ++ an_variables analysis)
       analyses).

Definition flatten_calls (analyses : list Analysis) : list CallEvent :=
  sorted_by (fun item => (call_source_symbol_id item, call_callee_name item,
                          call_line item))
    (flat_map an_calls analyses).

Definition flatten_mutations (analyses : list Analysis) : list MutationEvent :=
  sorted_by (fun item => (mut_source_symbol_id item, mut_target_name item,
                          mut_line item))
    (flat_map an_mutations analyses).

(** The record appended for one analysis; [None] is the [KeyError] of
    [culture_by_file[file_path]]. *)
Definition file_record_of (culture_by_file : gmap string string)
    (analysis : Analysis) : option FileRecord :=
  let file_path := an_file analysis in
  culture ← culture_by_file !! file_path;
  Some {| file_id := file_path;
          file_path := default file_path (an_rel_path analysis);
          file_hash := an_hash analysis;
          file_culture := culture;
          file_types := Z.of_nat (length (an_types analysis));
          file_functions := Z.of_nat (length (an_functions analysis));
          file_variables := Z.of_nat (length (an_variables analysis));
          file_mutation_count := Z.of_nat (length (an_mutations analysis)) |}.

Definition build_file_records (analyses : list Analysis)
    (culture_by_file : gmap string string) : option (list FileRecord) :=
  records ← mapM (file_record_of culture_by_file) analyses;
  Some (sorted_by file_path records).

(** The loop of [build] that fills [culture_by_file], for a classifier
    [classify] of an analysis. *)
Definition culture_by_file_of (classify : Analysis -> string)
    (analyses : list Analysis) : gmap string string :=
  fold_left (fun m analysis => <[an_file analysis := classify analysis]> m)
    analyses ∅.

Section FileRecords.

Definition Zsum (l : list Z) : Z := foldr Z.add 0 l.

Lemma Zsum_perm (l1 l2 : list Z) : l1 ≡ₚ l2 -> Zsum l1 = Zsum l2.
Proof.
  unfold Zsum. induction 1 as [|x l l' _ IH|x y l|l l' l'' _ IH1 _ IH2];
    cbn [foldr]; [done|by rewrite IH|lia|congruence].
Qed.

Lemma culture_by_file_of_lookup (classify : Analysis -> string)
    (analyses : list Analysis) (m : gmap string string) (analysis : Analysis) :
  analysis ∈ analyses ->
  is_Some (fold_left (fun m a => <[an_file a := classify a]> m) analyses m
           !! an_file analysis).
Proof.
  assert (Hkeep : forall (l : list Analysis) (m' : gmap string string),
            is_Some (m' !! an_file analysis) ->
            is_Some (fold_left (fun m a => <[an_file a := classify a]> m) l m'
                     !! an_file analysis)).
  { induction l as [|b l IH]; intros m' Hm'; cbn [fold_left]; [done|].
    apply IH. destruct (decide (an_file b = an_file analysis)) as [Heq|Hne].
    - rewrite Heq, lookup_insert_eq. eauto.
    - by rewrite lookup_insert_ne. }
  revert m. induction analyses as [|a l IH]; intros m Hin.
  - by apply elem_of_nil in Hin.
  - cbn [fold_left]. apply elem_of_cons in Hin as [->|Hin]; [|by apply IH].
    apply Hkeep. rewrite lookup_insert_eq. eauto.
Qed.

(** X14. [build_file_records] raises exactly when some analysed file has no
    culture, and it never does inside [build], whose culture table is
    filled from the same analyses. *)
Theorem build_file_records_defined (analyses : list Analysis)
    (culture_by_file : gmap string string) (classify : Analysis -> string) :
  (is_Some (build_file_records analyses culture_by_file)
   <-> Forall (fun analysis => is_Some (culture_by_file !! an_file analysis)) analyses)
  /\ is_Some (build_file_records analyses (culture_by_file_of classify analyses)).
Proof.
  assert (Hiff : forall cbf,
            is_Some (build_file_records analyses cbf)
            <-> Forall (fun analysis => is_Some (cbf !! an_file analysis)) analyses).
  { intros cbf. unfold build_file_records. split.
    - intros [records Hr].
      destruct (mapM (file_record_of cbf) analyses) as [rs|] eqn:Hm; [|done].
      assert (His : is_Some (mapM (file_record_of cbf) analyses)) by eauto.
      apply mapM_is_Some_1 in His. eapply Forall_impl; [exact His|].
      intros a [r Ha]. unfold compose, file_record_of in Ha.
      destruct (cbf !! an_file a); [eauto|done].
    - intros Hall.
      destruct (mapM_is_Some_2 (file_record_of cbf) analyses) as [rs ->].
      + eapply Forall_impl; [exact Hall|]. intros a [c Hc].
        unfold compose, file_record_of. rewrite Hc. by eexists.
      + by eexists. }
  split; [apply Hiff|]. apply Hiff, Forall_forall. intros a Ha.
  by apply culture_by_file_of_lookup.
Qed.

(** X15. The file records account for every extracted atom: there is one record
    per analysed file, in path order, carrying the culture looked up for the
    file; the records' atom counts add up to the number of flattened
    symbols and their mutation counts to the number of flattened
    mutations. *)
Theorem file_records_account_for_atoms (analyses : list Analysis)
    (culture_by_file : gmap string string) (records : list FileRecord) :
  build_file_records analyses culture_by_file = Some records ->
  length records = length analyses
  /\ Sorted (key_le file_path) records
  /\ (forall record, record ∈ records ->
        exists analysis,
          analysis ∈ analyses /\ file_id record = an_file analysis
          /\ culture_by_file !! an_file analysis = Some (file_culture record))
  /\ Zsum (map (fun record => file_types record + file_functions record
                              + file_variables record) records)
     = Z.of_nat (length (flatten_symbols analyses))
  /\ Zsum (map file_mutation_count records)
     = Z.of_nat (length (flatten_mutations analyses)).
Proof.
  unfold build_file_records. intros Hbuild.
  destruct (mapM (file_record_of culture_by_file) analyses) as [rs|] eqn:Hm; [|done].
  injection Hbuild as <-. apply mapM_Some_1 in Hm.
  assert (Hrec : forall a r, file_record_of culture_by_file a = Some r ->
            file_id r = an_file a
            /\ culture_by_file !! an_file a = Some (file_culture r)
            /\ file_types r + file_functions r + file_variables r
               = Z.of_nat (length (an_types a ++ an_functions a ++ an_variables a))
            /\ file_mutation_count r = Z.of_nat (length (an_mutations a))).
  { intros a r. unfold file_record_of.
    destruct (culture_by_file !! an_file a) as [c|]; [|done].
    intros [= <-]. cbn. rewrite !length_app. repeat split; lia. }
  split; [|split; [|split; [|split]]].
  - rewrite sorted_by_length. symmetry. by eapply Forall2_length.
  - apply sorted_by_sorted.
  - intros r Hr. apply (proj1 (sorted_by_elem _ _ _)) in Hr.
    apply list_elem_of_lookup in Hr as [i Hi].
    destruct (Forall2_lookup_r _ _ _ _ _ Hm Hi) as (a & Ha & Hf).
    exists a. apply Hrec in Hf as (? & ? & _). split; [|done].
    apply list_elem_of_lookup. by exists i.
  - rewrite (Zsum_perm _ (map (fun record => file_types record + file_functions record
                                             + file_variables record) rs))
      by apply Permutation_map, sorted_by_perm.
    unfold flatten_symbols. rewrite sorted_by_length.
    clear -Hm Hrec. unfold Zsum. induction Hm as [|a r l rs' Hf _ IH]; [done|].
    cbn [map flat_map foldr]. apply Hrec in Hf as (_ & _ & -> & _).
    rewrite (length_app (_ ++ _)), IH. lia.
  - rewrite (Zsum_perm _ (map file_mutation_count rs))
      by apply Permutation_map, sorted_by_perm.
    unfold flatten_mutations. rewrite sorted_by_length.
    clear -Hm Hrec. unfold Zsum. induction Hm as [|a r l rs' Hf _ IH]; [done|].
    cbn [map flat_map foldr]. apply Hrec in Hf as (_ & _ & _ & ->).
    rewrite length_app, IH. lia.
Qed.

End FileRecords.

Definition two_analyses : list Analysis :=
  [mkAnalysis "/repo/b.swift" (Some "b.swift") "h2" []
     [mkSymbol "/repo/b.swift::B::step()::L5" "step" "step()" "function" 0 "B"
        "public" "/repo/b.swift" 5]
     [] [] [];
   mkAnalysis "/repo/a.swift" (Some "a.swift") "h1" []
     [mkSymbol "/repo/a.swift::A::run()::L3" "run" "run()" "function" 0 "A"
        "internal" "/repo/a.swift" 3]
     [mkSymbol "/repo/a.swift::A::count::L2" "count" "count" "variable" 0 "A"
        "internal" "/repo/a.swift" 2]
     [mkCallEvent "/repo/a.swift::A::run()::L3" "step" None 0 4]
     [mkMutationEvent "/repo/a.swift::A::run()::L3" "count" "variable" 4
        (Some (8 # 10)%Q)]].

Lemma file_records_account_for_atoms_witness :
  exists records,
    build_file_records two_analyses
      (culture_by_file_of (fun _ => "Citizen") two_analyses) = Some records
    /\ map file_path records = ["a.swift"; "b.swift"]
    /\ Zsum (map (fun record => file_types record + file_functions record
                                + file_variables record) records)
       = Z.of_nat (length (flatten_symbols two_analyses))
    /\ Zsum (map file_mutation_count records)
       = Z.of_nat (length (flatten_mutations two_analyses)).
Proof.
  destruct (build_file_records two_analyses
              (culture_by_file_of (fun _ => "Citizen") two_analyses))
    as [records|] eqn:Hbuild; [|by vm_compute in Hbuild].
  exists records. split; [done|].
  destruct (file_records_account_for_atoms _ _ _ Hbuild) as (_ & _ & _ & Hs & Hm).
  split; [|by split].
  vm_compute in Hbuild. injection Hbuild as <-. reflexivity.
Defined.

(** ** indexer.py and extract_atoms.py: the lookup indexes *)

Section LookupIndexes.
Variable str_lower : string -> string.

(** [indexes.get(name, {}).get(key, [])] *)
Definition index_lookup (indexes : pydict (pydict (list string)))
    (name key : string) : list string :=
  default [] (dict_get indexes name ≫= fun index => dict_get index key).

(** One iteration of the loop over call edges in [_build_indexes]. *)
Definition index_step
  : gmap string (gset string) * gmap string (gset string) * gmap string (list string)
    -> CallEdge
    -> gmap string (gset string) * gmap string (gset string)
       * gmap string (list string) :=
  fun '(callers_by, callees_by, unresolved_by) edge =>
    let source := ce_source edge in
    let target := or_empty (ce_target edge) in
    if String.eqb (ce_resolution edge) EDGE_RESOLUTION_RESOLVED
       && truthy source && truthy target
    then (adj_add target source callers_by, adj_add source target callees_by,
          unresolved_by)
    else if truthy source
    then (callers_by, callees_by,
          dd_append source (ce_target_name edge) unresolved_by)
    else (callers_by, callees_by, unresolved_by).

(** A call edge filed under [unresolved_calls_by_symbol]: it has a source
    and is not a resolved call with a target. *)
Definition is_unresolved_entry (e : CallEdge) : bool :=
  negb (is_resolved_call e) && truthy (ce_source e).

Lemma index_step_fold (edges : list CallEdge)
    (acc : gmap string (gset string) * gmap string (gset string)
           * gmap string (list string)) (sid : string) :
  adj_get (fold_left index_step edges acc).1.1 sid
  = adj_get acc.1.1 sid ∪ resolved_callers_of edges sid
  /\ adj_get (fold_left index_step edges acc).1.2 sid
     = adj_get acc.1.2 sid ∪ resolved_callees_of edges sid
  /\ dd_get (fold_left index_step edges acc).2 sid
     = dd_get acc.2 sid
       ++ map ce_target_name
            (List.filter (fun e => is_unresolved_entry e
                                   && bool_decide (ce_source e = sid)) edges).
Proof.
  unfold resolved_callers_of, resolved_callees_of.
  revert acc. induction edges as [|e edges IH]; intros [[callers_by callees_by] unresolved_by].
  - cbn. rewrite app_nil_r. repeat split; set_solver.
  - cbn [fold_left List.filter].
    destruct (IH (index_step (callers_by, callees_by, unresolved_by) e))
      as (-> & -> & ->).
    unfold index_step, is_unresolved_entry, is_resolved_call, EDGE_RESOLUTION_RESOLVED.
    rewrite truthy_or_empty.
    destruct (String.eqb (ce_resolution e) "resolved" && truthy (ce_source e)
              && truthy_opt (ce_target e)) eqn:Hres; cbn [negb andb fst snd].
    + rewrite !adj_get_add. split; [|split; [|done]].
      * destruct (decide (or_empty (ce_target e) = sid)) as [Heq|Hne].
        -- rewrite (proj2 (String.eqb_eq _ _) Heq). cbn [map list_to_set]. set_solver.
        -- rewrite (proj2 (String.eqb_neq _ _) Hne). done.
      * destruct (decide (ce_source e = sid)) as [Heq|Hne].
        -- rewrite (proj2 (String.eqb_eq _ _) Heq). cbn [map list_to_set]. set_solver.
        -- rewrite (proj2 (String.eqb_neq _ _) Hne). done.
    + destruct (truthy (ce_source e)); cbn [andb fst snd]; [|done].
      split; [done|]. split; [done|].
      rewrite dd_get_append, <- app_assoc. f_equal.
      destruct (decide (ce_source e = sid)) as [Heq|Hne].
      * by rewrite bool_decide_eq_true_2.
      * by rewrite bool_decide_eq_false_2.
Qed.

Lemma build_indexes_fold (symbols : list Symbol) (files : list FileRecord)
    (edges_calls : list CallEdge) :
  _build_indexes str_lower symbols files edges_calls
  = let '(callers_by_symbol, callees_by_symbol, unresolved_calls_by_symbol) :=
      fold_left index_step edges_calls
        (∅ : gmap string (gset string), ∅ : gmap string (gset string),
         ∅ : gmap string (list string)) in
    build_symbol_indexes str_lower symbols
    ++ [("files_by_culture",
         sorted_items
           (sorted_by id
              <$> fold_left
                    (fun m file_record =>
                       dd_append (file_culture file_record) (file_id file_record) m)
                    files (∅ : gmap string (list string))));
        ("callers_by_symbol",
         sorted_items ((fun v => sorted_by id (elements v)) <$> callers_by_symbol));
        ("callees_by_symbol",
         sorted_items ((fun v => sorted_by id (elements v)) <$> callees_by_symbol));
        ("unresolved_calls_by_symbol",
         sorted_items (sorted_by id <$> unresolved_calls_by_symbol))].
Proof. reflexivity. Qed.

Lemma dict_get_cons {V} (k : string) (v : V) (d : pydict V) (name : string) :
  dict_get ((k, v) :: d) name = if String.eqb k name then Some v else dict_get d name.
Proof. unfold dict_get. cbn [List.find fst]. by destruct (String.eqb k name). Qed.

Lemma sorted_index_lookup (m : gmap string (list string)) (key : string) :
  default [] (dict_get (sorted_items (sorted_by id <$> m)) key)
  = sorted_by id (dd_get m key).
Proof.
  rewrite dict_get_sorted_items, lookup_fmap. unfold dd_get.
  by destruct (m !! key).
Qed.

Lemma sorted_adjacency_lookup (m : gmap string (gset string)) (key : string) :
  default [] (dict_get (sorted_items ((fun v => sorted_by id (elements v)) <$> m)) key)
  = sorted_by id (elements (adj_get m key)).
Proof.
  rewrite dict_get_sorted_items, lookup_fmap. unfold adj_get.
  destruct (m !! key); [done|]. cbn. by rewrite elements_empty.
Qed.

Lemma group_lookup {A} (kf : A -> string) (vf : A -> string) (l : list A)
    (key : string) :
  dd_get (fold_left (fun m x => dd_append (kf x) (vf x) m) l
            (∅ : gmap string (list string))) key
  = map vf (List.filter (fun x => bool_decide (kf x = key)) l).
Proof.
  pose proof (dd_fold_group (fun _ : A => true) kf vf l ∅ key) as Hg.
  unfold dd_get at 2 in Hg. rewrite lookup_empty in Hg. exact Hg.
Qed.

(** X16. The six indexes are exact lookup tables.  Read with a default of the
    empty list, [symbols_by_file] and [symbols_by_name] give the sorted ids
    of the symbols of a file and of a lower-cased name, [files_by_culture]
    the sorted ids of the files of a culture, [callers_by_symbol] and
    [callees_by_symbol] the sorted distinct sources and targets of the
    resolved calls to and from a symbol, and [unresolved_calls_by_symbol]
    the sorted callee names of a symbol's other calls. *)
Theorem build_indexes_lookup (symbols : list Symbol) (files : list FileRecord)
    (edges_calls : list CallEdge) (key : string) :
  let indexes := _build_indexes str_lower symbols files edges_calls in
  index_lookup indexes "symbols_by_file" key
  = sorted_by id
      (map sym_id (List.filter (fun s => bool_decide (sym_file s = key)) symbols))
  /\ index_lookup indexes "symbols_by_name" key
     = sorted_by id
         (map sym_id
            (List.filter (fun s => bool_decide (str_lower (sym_name s) = key)) symbols))
  /\ index_lookup indexes "files_by_culture" key
     = sorted_by id
         (map file_id (List.filter (fun f => bool_decide (file_culture f = key)) files))
  /\ index_lookup indexes "callers_by_symbol" key
     = sorted_by id (elements (resolved_callers_of edges_calls key))
  /\ index_lookup indexes "callees_by_symbol" key
     = sorted_by id (elements (resolved_callees_of edges_calls key))
  /\ index_lookup indexes "unresolved_calls_by_symbol" key
     = sorted_by id
         (map ce_target_name
            (List.filter (fun e => is_unresolved_entry e
                                   && bool_decide (ce_source e = key)) edges_calls)).
Proof.
  intros indexes. subst indexes. rewrite build_indexes_fold.
  destruct (index_step_fold edges_calls (∅, ∅, ∅) key) as (Hcallers & Hcallees & Hun).
  destruct (fold_left index_step edges_calls (∅, ∅, ∅))
    as [[callers_by callees_by] unresolved_by].
  cbn [fst snd] in Hcallers, Hcallees, Hun.
  rewrite adj_get_empty, union_empty_l_L in Hcallers, Hcallees.
  unfold dd_get at 2 in Hun. rewrite lookup_empty in Hun.
  cbn [from_option app] in Hun.
  unfold index_lookup, build_symbol_indexes. cbn [app].
  rewrite !dict_get_cons.
  cbn [String.eqb Ascii.eqb Bool.eqb mbind option_bind].
  rewrite !sorted_index_lookup, !sorted_adjacency_lookup, !group_lookup.
  rewrite Hcallers, Hcallees, Hun. done.
Qed.

End LookupIndexes.

(** ** query_tools.py and impact.py: the two caller traversals *)

Section CallerTraversals.

(** X17. Over one callers map, the symbols [_bfs] reports within two reverse
    edges of a symbol are those the impact engine's depth-two traversal
    returns, less the symbol itself: the two differ on the start symbol
    only, which the impact engine keeps when it lies on a cycle of length
    one or two. *)
Theorem bfs_depth_two_is_reachable_without_start (self : GraphQueryEngine)
    (sid : string) :
  exists distances reachable,
    _bfs self sid true 2 = Some distances
    /\ _reverse_reachable_depth_two sid (reverse self) = Some reachable
    /\ dom distances = reachable ∖ {[sid]}.
Proof.
  destruct (_bfs_returns self sid true 2) as (distances & seen & Hrun & Hinv).
  cbn [bfs_adjacency] in Hinv.
  pose proof (fun n d => bfs_final_single _ _ _ seen distances n d Hinv) as Hfinal.
  exists distances. eexists. split; [exact Hrun|].
  split; [apply reverse_reachable_depth_two_result|].
  apply set_eq. intros n.
  rewrite elem_of_dom, elem_of_difference, elem_of_union, elem_of_union_list,
    elem_of_singleton.
  split.
  - intros [d Hd]. apply Hfinal in Hd as (Hne & Hrange & [Hhops _]).
    split; [|done].
    assert (d = 1 \/ d = 2) as [-> | ->] by lia.
    + left. destruct Hhops as (c & <- & Hn). exact Hn.
    + right. change (Z.to_nat 2) with 2%nat in Hhops.
      destruct Hhops as (c & (c0 & <- & Hc) & Hn).
      exists (adj_get (reverse self) c). split; [|done].
      apply list_elem_of_fmap. exists c. split; [done|]. by apply elem_of_elements.
  - intros [Hin Hne].
    destruct (decide (n ∈ adj_get (reverse self) sid)) as [Hdirect|Hfar].
    + exists 1. apply Hfinal. split; [done|]. split; [lia|]. split.
      * by exists sid.
      * intros [|k'] Hk'; [|lia]. cbn in Hk'. congruence.
    + destruct Hin as [?|(X & HX & Hn)]; [done|].
      apply list_elem_of_fmap in HX as (c & -> & Hc). apply elem_of_elements in Hc.
      exists 2. apply Hfinal. split; [done|]. split; [lia|]. split.
      * exists c. split; [by exists sid|done].
      * intros [|[|k']] Hk'; [| |lia].
        -- cbn in Hk'. congruence.
        -- destruct Hk' as (c' & <- & Hn'). done.
Qed.

End CallerTraversals.

(** ** query_tools.py: when a slice raises *)

Section SliceErrors.

Lemma slice_nodes_None self rev symbol_id depth :
  slice_nodes self rev symbol_id depth = None
  <-> exists n d,
        n <> symbol_id /\ 0 < d <= depth
        /\ hop_distance (bfs_adjacency self rev) symbol_id n (Z.to_nat d)
        /\ symbol_by_id self !! n = None.
Proof.
  unfold slice_nodes.
  destruct (_bfs_returns self symbol_id rev depth) as (distances & seen & -> & Hinv).
  cbn [mbind option_bind].
  pose proof (fun n d => bfs_final_single _ _ _ seen distances n d Hinv) as Hfinal.
  set (f := fun '(sid, dist) => _symbol_payload self sid dist).
  set (items := sorted_by id (map_to_list distances)).
  assert (Hitems : forall n d, (n, d) ∈ items <-> distances !! n = Some d).
  { intros n d. unfold items. rewrite (sorted_by_elem id). apply elem_of_map_to_list. }
  assert (Hf : forall n d, f (n, d) = None <-> symbol_by_id self !! n = None).
  { intros n d. unfold f, _symbol_payload. by destruct (symbol_by_id self !! n). }
  split.
  - intros Hnone.
    destruct (mapM f items) as [nodes|] eqn:Hm; [done|].
    assert (Hex : Exists (not ∘ (is_Some ∘ f)) items).
    { apply not_Forall_Exists; [intros x; apply _|].
      intros Hall. apply mapM_is_Some_2 in Hall. rewrite Hm in Hall.
      by destruct Hall. }
    apply Exists_exists in Hex as ([n d] & Hin & Hnd). unfold compose in Hnd.
    exists n, d. apply Hitems, Hfinal in Hin as (? & ? & ?).
    split; [done|]. split; [done|]. split; [done|]. apply (Hf n d).
    destruct (f (n, d)); [|done]. exfalso. apply Hnd. eauto.
  - intros (n & d & Hne & Hd & Hdist & Hsym).
    destruct (mapM f items) as [nodes|] eqn:Hm; [|done]. exfalso.
    assert (His : is_Some (mapM f items)) by eauto.
    apply mapM_is_Some_1 in His. rewrite Forall_forall in His.
    destruct (His (n, d)) as [p Hp].
    + apply Hitems, Hfinal. done.
    + unfold compose in Hp. apply (proj2 (Hf n d)) in Hsym. congruence.
Qed.

(** X18. [get_callers] and [get_callees] raise [KeyError] in two cases only: the
    symbol id is unknown, or some symbol the traversal reaches (a caller,
    respectively a callee, within [depth] resolved calls) is not a symbol
    of the graph. *)
Theorem slice_key_errors (self : GraphQueryEngine) (symbol_id : string) (depth : Z) :
  (get_callers self symbol_id depth = None
   <-> symbol_by_id self !! symbol_id = None
       \/ exists n d,
            n <> symbol_id /\ 0 < d <= depth
            /\ hop_distance (reverse self) symbol_id n (Z.to_nat d)
            /\ symbol_by_id self !! n = None)
  /\ (get_callees self symbol_id depth = None
      <-> symbol_by_id self !! symbol_id = None
          \/ exists n d,
               n <> symbol_id /\ 0 < d <= depth
               /\ hop_distance (forward self) symbol_id n (Z.to_nat d)
               /\ symbol_by_id self !! n = None).
Proof.
  split.
  - rewrite get_callers_nodes, <- (slice_nodes_None self true).
    destruct (symbol_by_id self !! symbol_id) as [symbol|]; cbn [mbind option_bind].
    + destruct (slice_nodes self true symbol_id depth); cbn [mbind option_bind].
      * split; [done|]. intros [?|?]; done.
      * split; [by right|done].
    + split; [by left|done].
  - destruct (get_callees_nodes self symbol_id depth)
      as (resolved & ambiguous & external & ->).
    rewrite <- (slice_nodes_None self false).
    destruct (symbol_by_id self !! symbol_id) as [symbol|]; cbn [mbind option_bind].
    + destruct (slice_nodes self false symbol_id depth); cbn [mbind option_bind].
      * split; [done|]. intros [?|?]; done.
      * split; [by right|done].
    + split; [by left|done].
Qed.

End SliceErrors.

(** ** query_tools.py: the impact radius *)

(** The exceptions [impact_radius] raises. *)
Inductive query_error := ValueError | KeyError.

(** A node of the radius: the symbol payload with its [influence]. *)
Record RadiusNode := mkRadiusNode {
  rn_payload : SymbolPayload;
  rn_influence : Q
}.

Record ImpactRadius := mkImpactRadius {
  ir_target_id : string;
  ir_target_type : string;
  ir_depth : Z;
  ir_nodes : list RadiusNode;
  ir_files_touched : list string
}.

(** The [while queue] loop of [impact_radius], which follows calls in both
    directions; [None] means the bound [fuel] on the number of [popleft]s
    was too small. *)
Fixpoint radius_loop (fuel : nat) (forward reverse : gmap string (gset string))
    (depth : Z) (queue : list (string * Z)) (seen : gset string)
    (distances : gmap string Z) : option (gmap string Z) :=
  match fuel with
  | O => None
  | S fuel' =>
      match queue with
      | [] => Some distances
      | (node, current_depth) :: rest =>
          if depth <=? current_depth
          then radius_loop fuel' forward reverse depth rest seen distances
          else
            let neighbors := adj_get forward node ∪ adj_get reverse node in
            let '(seen', distances', queue') :=
              fold_left (visit_next current_depth) (elements neighbors)
                (seen, distances, rest) in
            radius_loop fuel' forward reverse depth queue' seen' distances'
      end
  end.

(** The start symbols of [impact_radius], or the exception it raises before
    the traversal. *)
Definition radius_start_symbols (self : GraphQueryEngine) (target_id target_type : string)
  : query_error + gset string :=
  if negb (String.eqb target_type "symbol" || String.eqb target_type "file")
  then inl ValueError
  else if String.eqb target_type "symbol" then
    match symbol_by_id self !! target_id with
    | None => inl KeyError
    | Some _ => inr {[target_id]}
    end
  else
    let start_symbols : gset string :=
      list_to_set (default [] (dict_get (symbols_by_file self) target_id)) in
    if decide (start_symbols = ∅) then inl KeyError else inr start_symbols.

(** The payload of one reached symbol, with
    [influence = round(score / max(1, dist), 4)]. *)
Definition radius_node (self : GraphQueryEngine) (item : string * Z)
  : option RadiusNode :=
  let '(sid, dist) := item in
  payload ← _symbol_payload self sid dist;
  let score := sp_impact_score payload in
  Some {| rn_payload := payload;
          rn_influence := round4 (float_div score (inject_Z (Z.max 1 dist))) |}.

(** [<] on the sort key [(-influence, distance, id)]. *)
Definition radius_key_lt (a b : RadiusNode) : bool :=
  if negb (Qeq_bool (- rn_influence a) (- rn_influence b))
  then Qltb (- rn_influence a) (- rn_influence b)
  else if negb (sp_distance (rn_payload a) =? sp_distance (rn_payload b))
  then sp_distance (rn_payload a) <? sp_distance (rn_payload b)
  else negb (String.leb (sp_id (rn_payload b)) (sp_id (rn_payload a))).

Definition radius_key_le (a b : RadiusNode) : bool := negb (radius_key_lt b a).

(** Each id enters the queue at most once. *)
Definition radius_fuel (self : GraphQueryEngine) (queue : list (string * Z)) : nat :=
  S (length queue + size (all_callers (forward self) ∪ all_callers (reverse self))).

(** [impact_radius(target_id, target_type, depth)]; [None] only if the
    traversal ran out of fuel. *)
Definition impact_radius (self : GraphQueryEngine) (target_id target_type : string)
    (depth : Z) : option (query_error + ImpactRadius) :=
  match radius_start_symbols self target_id target_type with
  | inl error => Some (inl error)
  | inr start_symbols =>
      let queue := map (fun sid => (sid, 0)) (sorted_by id (elements start_symbols)) in
      distances ←
        radius_loop (radius_fuel self queue) (forward self) (reverse self) depth
          queue start_symbols ∅;
      match mapM (radius_node self) (sorted_by id (map_to_list distances)) with
      | None => Some (inl KeyError)
      | Some nodes =>
          let nodes := sorted_with radius_key_le nodes in
          let touched_files :=
            sorted_by id
              (elements (list_to_set (map (fun item => sp_file (rn_payload item)) nodes)
                         : gset string)) in
          Some (inr {| ir_target_id := target_id;
                       ir_target_type := target_type;
                       ir_depth := depth;
                       ir_nodes := nodes;
                       ir_files_touched := touched_files |})
      end
  end.

Section Radius.

(** Calls followed in either direction. *)
Definition undirected (self : GraphQueryEngine) : gmap string (gset string) :=
  union_with (fun a b => Some (a ∪ b)) (forward self) (reverse self).

Lemma adj_get_undirected self node :
  adj_get (undirected self) node
  = adj_get (forward self) node ∪ adj_get (reverse self) node.
Proof.
  unfold adj_get, undirected. rewrite lookup_union_with.
  destruct (forward self !! node), (reverse self !! node); cbn; set_solver.
Qed.

Lemma radius_loop_bfs self fuel depth queue seen distances :
  radius_loop fuel (forward self) (reverse self) depth queue seen distances
  = _bfs_loop fuel (undirected self) depth queue seen distances.
Proof.
  revert queue seen distances.
  induction fuel as [|fuel IH]; intros queue seen distances; [done|].
  cbn [radius_loop _bfs_loop]. destruct queue as [|[node current_depth] rest]; [done|].
  destruct (depth <=? current_depth); [apply IH|].
  rewrite adj_get_undirected.
  destruct (fold_left _ _ _) as [[seen' distances'] queue']. apply IH.
Qed.

(** The slice lists symbol [n] at distance [d]. *)
Definition radius_reported (radius : ImpactRadius) (n : string) (d : Z) : Prop :=
  exists node,
    node ∈ ir_nodes radius /\ sp_id (rn_payload node) = n
    /\ sp_distance (rn_payload node) = d.

Lemma radius_node_Some self n d node :
  radius_node self (n, d) = Some node ->
  sp_id (rn_payload node) = n /\ sp_distance (rn_payload node) = d
  /\ _symbol_payload self n d = Some (rn_payload node)
  /\ rn_influence node
     = round4 (float_div (sp_impact_score (rn_payload node)) (inject_Z (Z.max 1 d))).
Proof.
  unfold radius_node.
  destruct (_symbol_payload self n d) as [payload|] eqn:Hp; [|done].
  cbn [mbind option_bind]. intros [= <-]. cbn [rn_payload rn_influence].
  apply symbol_payload_Some in Hp as [? ?]. done.
Qed.

(** A reached id gets a node exactly when it is the id of a symbol. *)
Lemma radius_node_known self n d :
  is_Some (radius_node self (n, d)) <-> is_Some (symbol_by_id self !! n).
Proof.
  unfold radius_node, _symbol_payload.
  destruct (symbol_by_id self !! n) as [symbol|]; cbn [mbind option_bind].
  - split; eauto.
  - split; intros [? ?]; done.
Qed.

(** The exceptions raised before the traversal starts. *)
Lemma radius_start_symbols_error self target_id target_type :
  (radius_start_symbols self target_id target_type = inl ValueError
   <-> target_type <> "symbol" /\ target_type <> "file")
  /\ (radius_start_symbols self target_id target_type = inl KeyError
      <-> (target_type = "symbol" /\ symbol_by_id self !! target_id = None)
          \/ (target_type = "file"
              /\ default [] (dict_get (symbols_by_file self) target_id) = [])).
Proof.
  unfold radius_start_symbols.
  destruct (String.eqb_spec target_type "symbol") as [Hsym|Hsym];
    destruct (String.eqb_spec target_type "file") as [Hfile|Hfile];
    cbn [orb negb].
  - congruence.
  - destruct (symbol_by_id self !! target_id) eqn:Hid.
    + split; (split; [done|]); [intros [? ?]; done|].
      intros [[_ ?]|[? _]]; congruence.
    + split; [split; [done|intros [? ?]; done]|]. split; [by left|done].
  - destruct (decide _) as [Hempty|Hne].
    + split; [split; [done|intros [? ?]; done]|]. split; [|done].
      intros _. right. split; [done|].
      destruct (default [] (dict_get (symbols_by_file self) target_id)) as [|x l];
        [done|]. cbn in Hempty. set_solver.
    + split; (split; [done|]); [intros [? ?]; done|].
      intros [[? _]|[_ Hnil]]; [congruence|]. rewrite Hnil in Hne. done.
  - split; [split; done|]. split; [done|]. intros [[? _]|[? _]]; congruence.
Qed.

Lemma radius_traversal self starts depth :
  exists distances seen,
    radius_loop
      (radius_fuel self (map (fun sid => (sid, 0)) (sorted_by id (elements starts))))
      (forward self) (reverse self) depth
      (map (fun sid => (sid, 0)) (sorted_by id (elements starts))) starts ∅
    = Some distances
    /\ bfs_inv (undirected self) starts depth [] seen distances.
Proof.
  set (queue := map (fun sid => (sid, 0)) (sorted_by id (elements starts))).
  rewrite radius_loop_bfs.
  destruct (_bfs_loop_terminates (undirected self) depth
              (all_callers (forward self) ∪ all_callers (reverse self))
              (radius_fuel self queue) queue starts ∅) as [distances Hrun].
  { intros node. rewrite adj_get_undirected.
    pose proof (adj_get_all_callers (forward self) node).
    pose proof (adj_get_all_callers (reverse self) node). set_solver. }
  { unfold radius_fuel.
    assert (Hsub : (all_callers (forward self) ∪ all_callers (reverse self)) ∖ starts
                   ⊆ all_callers (forward self) ∪ all_callers (reverse self))
      by set_solver.
    apply subseteq_size in Hsub. lia. }
  assert (Hinit : bfs_inv (undirected self) starts depth queue starts ∅).
  { apply bfs_inv_init. intros x. unfold queue. rewrite list_elem_of_fmap.
    setoid_rewrite (sorted_by_elem id). setoid_rewrite elem_of_elements.
    split; intros (s & ? & ?); exists s; done. }
  destruct (_bfs_loop_inv _ _ _ _ _ _ _ _ Hinit Hrun) as [seen Hinv].
  by exists distances, seen.
Qed.

(** X19. What [impact_radius] does, case by case.  It always returns or
    raises.  It raises [ValueError] exactly for a target type other than
    "symbol" and "file"; it raises [KeyError] exactly for an unknown symbol
    id, for a file with no symbol in the [symbols_by_file] index, and when a
    symbol reached by the traversal is not a symbol of the graph.  When it
    returns, its nodes are exactly the symbols outside the start set that
    lie within [depth] calls of it, followed in either direction, each a
    symbol of the graph, listed once with its least number of calls and
    with influence round(score / distance, 4) in float arithmetic, and
    [files_touched] lists the distinct files of the nodes in order. *)
Theorem impact_radius_outcome (self : GraphQueryEngine) (target_id target_type : string)
    (depth : Z) :
  impact_radius self target_id target_type depth <> None
  /\ (impact_radius self target_id target_type depth = Some (inl ValueError)
      <-> target_type <> "symbol" /\ target_type <> "file")
  /\ (impact_radius self target_id target_type depth = Some (inl KeyError)
      <-> (target_type = "symbol" /\ symbol_by_id self !! target_id = None)
          \/ (target_type = "file"
              /\ default [] (dict_get (symbols_by_file self) target_id) = [])
          \/ exists starts n d,
               radius_start_symbols self target_id target_type = inr starts
               /\ (n ∉ starts) /\ 0 < d <= depth
               /\ least_hops (undirected self) starts n (Z.to_nat d)
               /\ symbol_by_id self !! n = None)
  /\ forall radius,
       impact_radius self target_id target_type depth = Some (inr radius) ->
       exists starts,
         radius_start_symbols self target_id target_type = inr starts
         /\ (forall n d,
               radius_reported radius n d
               <-> (n ∉ starts) /\ 0 < d <= depth
                   /\ least_hops (undirected self) starts n (Z.to_nat d))
         /\ (forall n d,
               radius_reported radius n d -> is_Some (symbol_by_id self !! n))
         /\ NoDup (map (fun node => sp_id (rn_payload node)) (ir_nodes radius))
         /\ Forall (fun node =>
                      rn_influence node
                      = round4 (float_div (sp_impact_score (rn_payload node))
                                  (inject_Z (sp_distance (rn_payload node)))))
              (ir_nodes radius)
         /\ ir_files_touched radius
            = _sorted_unique
                (map (fun node => sp_file (rn_payload node)) (ir_nodes radius)).
Proof.
  destruct (radius_start_symbols_error self target_id target_type) as [Hvalue Hkey].
  unfold impact_radius.
  destruct (radius_start_symbols self target_id target_type) as [error|starts] eqn:Hstart.
  { split; [done|]. split; [|split; [|done]].
    - rewrite <- Hvalue. split; congruence.
    - split.
      + intros [= ->]. destruct (proj1 Hkey eq_refl) as [?|?]; [by left|by right; left].
      + intros [H|[H|(? & ? & ? & ? & _)]]; [| |done].
        * by pose proof (proj2 Hkey (or_introl H)) as [= ->].
        * by pose proof (proj2 Hkey (or_intror H)) as [= ->]. }
  assert (Hvalid : ~ (target_type <> "symbol" /\ target_type <> "file")).
  { intros H. by apply Hvalue in H. }
  assert (Hfound : ~ ((target_type = "symbol" /\ symbol_by_id self !! target_id = None)
                      \/ (target_type = "file"
                          /\ default [] (dict_get (symbols_by_file self) target_id)
                             = []))).
  { intros H. by apply Hkey in H. }
  destruct (radius_traversal self starts depth) as (distances & seen & -> & Hinv).
  cbn [mbind option_bind].
  pose proof (fun n d => bfs_inv_final _ _ _ seen distances n d Hinv) as Hfinal.
  set (items := sorted_by id (map_to_list distances)).
  assert (Hitems : forall n d, (n, d) ∈ items <-> distances !! n = Some d).
  { intros n d. unfold items. rewrite (sorted_by_elem id). apply elem_of_map_to_list. }
  destruct (mapM (radius_node self) items) as [nodes|] eqn:Hm.
  - assert (Hknown : forall n d, (n, d) ∈ items -> is_Some (symbol_by_id self !! n)).
    { intros n d Hin. apply (radius_node_known self n d).
      assert (Hall : is_Some (mapM (radius_node self) items)) by eauto.
      apply mapM_is_Some_1 in Hall.
      apply (proj1 (Forall_forall _ _) Hall (n, d) Hin). }
    split; [done|]. split; [split; [done|intros H; by destruct Hvalid]|].
    split.
    { split; [done|]. intros [H|[H|(starts' & n & d & [= <-] & Hn & Hd & Hhops & Hnone)]].
      - destruct Hfound. by left.
      - destruct Hfound. by right.
      - exfalso. destruct (Hknown n d) as [symbol Hsymbol]; [|congruence].
        apply Hitems, Hfinal. done. }
    intros radius [= <-]. exists starts. split; [done|]. cbn [ir_nodes ir_files_touched].
    apply mapM_Some_1 in Hm.
    assert (Hreported : forall n d,
              radius_reported
                {| ir_target_id := target_id; ir_target_type := target_type;
                   ir_depth := depth; ir_nodes := sorted_with radius_key_le nodes;
                   ir_files_touched :=
                     sorted_by id
                       (elements
                          (list_to_set
                             (map (fun item => sp_file (rn_payload item))
                                (sorted_with radius_key_le nodes)) : gset string)) |}
                n d
              <-> (n, d) ∈ items).
    { intros n d. unfold radius_reported. cbn [ir_nodes]. split.
      - intros (node & Hin & <- & <-). rewrite sorted_with_perm in Hin.
        apply list_elem_of_lookup in Hin as [i Hi].
        destruct (Forall2_lookup_r _ _ _ _ _ Hm Hi) as ([n d] & Hx & Hf).
        apply radius_node_Some in Hf as (-> & -> & _).
        apply list_elem_of_lookup. by exists i.
      - intros Hin. apply list_elem_of_lookup in Hin as [i Hi].
        destruct (Forall2_lookup_l _ _ _ _ _ Hm Hi) as (node & Hp & Hf).
        exists node. apply radius_node_Some in Hf as (-> & -> & _).
        split; [|done]. rewrite sorted_with_perm. apply list_elem_of_lookup.
        by exists i. }
    split; [|split; [|split; [|split]]].
    + intros n d. rewrite Hreported, Hitems. apply Hfinal.
    + intros n d Hr. apply Hreported in Hr. by apply (Hknown n d).
    + rewrite sorted_with_perm.
      assert (Hids : map (fun node => sp_id (rn_payload node)) nodes = map fst items).
      { clear -Hm. induction Hm as [|[n d] node l nodes' Hf _ IH]; [done|].
        cbn [map fst]. apply radius_node_Some in Hf as (-> & _). by rewrite IH. }
      rewrite Hids. unfold items. rewrite sorted_by_perm. apply NoDup_fst_map_to_list.
    + apply Forall_forall. intros node Hin. rewrite sorted_with_perm in Hin.
      apply list_elem_of_lookup in Hin as [i Hi].
      destruct (Forall2_lookup_r _ _ _ _ _ Hm Hi) as ([n d] & Hx & Hf).
      assert (Hd : distances !! n = Some d).
      { apply Hitems, list_elem_of_lookup. by exists i. }
      apply Hfinal in Hd as (_ & Hd & _).
      apply radius_node_Some in Hf as (_ & -> & _ & ->).
      by rewrite Z.max_r by lia.
    + reflexivity.
  - split; [done|]. split; [split; [done|intros H; by destruct Hvalid]|].
    split; [|done]. split; [|done]. intros _. right; right.
    assert (Hex : Exists (not ∘ (is_Some ∘ radius_node self)) items).
    { apply not_Forall_Exists; [intros x; apply _|].
      intros Hall. apply mapM_is_Some_2 in Hall. rewrite Hm in Hall.
      by destruct Hall. }
    apply Exists_exists in Hex as ([n d] & Hin & Hnd). unfold compose in Hnd.
    exists starts, n, d. apply Hitems, Hfinal in Hin as (? & ? & ?).
    split; [done|]. split; [done|]. split; [done|]. split; [done|].
    destruct (symbol_by_id self !! n) eqn:Hsymbol; [|done].
    exfalso. apply Hnd, radius_node_known. rewrite Hsymbol. eauto.
Qed.

(** X20. On a graph that passes the consistency check, [impact_radius] answers
    for every known symbol id and for every file that the [symbols_by_file]
    index lists symbols for, at every depth: no symbol it reaches is
    missing from the graph. *)
Theorem impact_radius_of_checked_graph (g : Graph) (graph_file : string)
    (strict : bool) (target_id target_type : string) (depth : Z) :
  doctor_check graph_file (Some g) strict = (true, []) ->
  (target_type = "symbol" /\ target_id ∈ map sym_id (graph_symbols g))
  \/ (target_type = "file"
      /\ default [] (dict_get (symbols_by_file (new_engine g)) target_id) <> []) ->
  exists radius,
    impact_radius (new_engine g) target_id target_type depth = Some (inr radius)
    /\ ir_target_id radius = target_id /\ ir_depth radius = depth.
Proof.
  intros Hdoctor Htarget. cbn [doctor_check] in Hdoctor.
  injection Hdoctor as _ Herrors.
  apply doctor_errors_nil in Herrors as [_ (Hedges & _ & _)].
  pose proof (checked_adjacency_known g Hedges) as Hknown.
  assert (Hstart : exists starts,
            radius_start_symbols (new_engine g) target_id target_type = inr starts).
  { unfold radius_start_symbols.
    destruct Htarget as [[-> Hid]|[-> Hfile]]; cbn [String.eqb Ascii.eqb Bool.eqb orb negb].
    - apply dict_by_is_Some in Hid as [symbol Hsym].
      cbn [symbol_by_id new_engine]. rewrite Hsym. eauto.
    - destruct (decide _) as [Hempty|]; [|eauto]. exfalso.
      destruct (default [] (dict_get (symbols_by_file (new_engine g)) target_id))
        as [|x l]; [done|]. cbn in Hempty. set_solver. }
  destruct Hstart as [starts Hstart]. unfold impact_radius. rewrite Hstart.
  destruct (radius_traversal (new_engine g) starts depth)
    as (distances & seen & -> & Hinv).
  cbn [mbind option_bind].
  destruct (mapM_is_Some_2 (radius_node (new_engine g))
              (sorted_by id (map_to_list distances))) as [nodes ->].
  - apply Forall_forall. intros [n d] Hin.
    apply (proj1 (sorted_by_elem _ _ _)), elem_of_map_to_list in Hin.
    apply (bfs_inv_final _ _ _ seen distances n d Hinv) in Hin
      as (_ & Hd & [(s & _ & Hhops) _]).
    destruct (Z.to_nat d) as [|k] eqn:Hk; [lia|].
    destruct Hhops as (c & _ & Hn). rewrite adj_get_undirected in Hn.
    assert (Hsym : is_Some (symbol_by_id (new_engine g) !! n)).
    { apply elem_of_union in Hn as [Hn|Hn];
        [apply (Hknown false c)|apply (Hknown true c)]; exact Hn. }
    destruct Hsym as [symbol Hsym].
    unfold compose, radius_node, _symbol_payload. rewrite Hsym. by eexists.
  - eexists. split; [reflexivity|]. done.
Qed.

End Radius.

Lemma impact_radius_of_checked_graph_witness :
  exists radius,
    impact_radius (new_engine two_file_graph) "/repo/a.swift" "file" 2
    = Some (inr radius)
    /\ ir_target_id radius = "/repo/a.swift" /\ ir_depth radius = 2.
Proof.
  apply (impact_radius_of_checked_graph two_file_graph
           "/repo/.semantic-index/graph.json" true).
  - vm_compute. reflexivity.
  - right. split; [reflexivity|]. vm_compute. discriminate.
Defined.

(** The radius of a file of [two_file_graph] holds known symbols only, and
    an unknown target type is refused. *)
Lemma impact_radius_outcome_witness :
  exists radius,
    impact_radius (new_engine two_file_graph) "/repo/a.swift" "file" 2
    = Some (inr radius)
    /\ (forall n d,
          radius_reported radius n d
          -> is_Some (symbol_by_id (new_engine two_file_graph) !! n))
    /\ impact_radius (new_engine two_file_graph) "/repo/a.swift" "module" 2
       = Some (inl ValueError).
Proof.
  destruct (impact_radius (new_engine two_file_graph) "/repo/a.swift" "file" 2)
    as [[error|radius]|] eqn:Hradius;
    [vm_compute in Hradius; discriminate| |vm_compute in Hradius; discriminate].
  exists radius. split; [reflexivity|].
  destruct (impact_radius_outcome (new_engine two_file_graph) "/repo/a.swift" "file" 2)
    as (_ & _ & _ & Hreturns).
  destruct (Hreturns radius Hradius) as (starts & _ & _ & Hknown & _).
  split; [exact Hknown|].
  apply (proj1 (proj2 (impact_radius_outcome (new_engine two_file_graph)
                         "/repo/a.swift" "module" 2))).
  split; discriminate.
Defined.

(** ** indexer.py: the build loop and incremental rebuilds *)

(** An entry of the file cache, read with [.get]. *)
Record CacheEntry := mkCacheEntry {
  entry_hash : option string;
  entry_analysis : option Analysis
}.

Record Cache := mkCache {
  cache_version : option string;
  cache_parser_version : option string;
  cache_generated_at : option string;
  cache_files : gmap string CacheEntry
}.

Record BuildStats := mkBuildStats {
  stats_files_total : Z;
  stats_files_reparsed : Z;
  stats_files_reused : Z;
  stats_symbols_total : Z;
  stats_call_edges_total : Z;
  stats_mutation_edges_total : Z;
  stats_duration_ms : Z
}.

(** What a build reads from its surroundings besides the files: the
    repository root and digest, the two clock readings and the elapsed
    time. *)
Record BuildEnv := mkBuildEnv {
  env_repo_root : string;
  env_repo_digest : string;
  env_now : string;
  env_cache_now : string;
  env_duration_ms : Z
}.

(** The accumulators of the loop over the discovered files. *)
Record Collected := mkCollected {
  col_analyses : list Analysis;
  col_file_hash_pairs : list (string * string);
  col_files_reparsed : Z;
  col_files_reused : Z;
  col_new_cache_files : gmap string CacheEntry
}.

Section BuildLoop.

(** Library and parser functions the loop calls: [file_sha256] of a path,
    [analyze_file] of a path ([None] is its [ParseError]) and
    [classify_file]. *)
Variable sha256_hex : string -> string.
Variable str_lower : string -> string.
Variable file_sha256 : string -> string.
Variable analyze_file : string -> option Analysis.
Variable classify_file : string -> Analysis -> string.

(** [analysis["rel_path"]] (every analysis of a build has it set). *)
Definition rel_path_of (analysis : Analysis) : string :=
  default (an_file analysis) (an_rel_path analysis).

(** The cached analysis a file may reuse: its entry has the file's digest
    and an analysis. *)
Definition reusable (cached_entry : option CacheEntry) (digest : string)
  : option Analysis :=
  match cached_entry with
  | Some entry =>
      if bool_decide (entry_hash entry = Some digest) then entry_analysis entry
      else None
  | None => None
  end.

(** The analysis of one file and whether it was reused. *)
Definition collect_file (incremental : bool) (cache_files : gmap string CacheEntry)
    (file : string * string) : option (Analysis * bool) :=
  let '(rel_path, abs_path) := file in
  let digest := file_sha256 abs_path in
  let cached_entry := if incremental then cache_files !! abs_path else None in
  match reusable cached_entry digest with
  | Some cached =>
      Some ({| an_file := abs_path;
               an_rel_path := Some rel_path;
               an_hash := digest;
               an_types := an_types cached;
               an_functions := an_functions cached;
               an_variables := an_variables cached;
               an_calls := an_calls cached;
               an_mutations := an_mutations cached |}, true)
  | None =>
      analysis ← analyze_file abs_path;
      Some ({| an_file := an_file analysis;
               an_rel_path := Some rel_path;
               an_hash := an_hash analysis;
               an_types := an_types analysis;
               an_functions := an_functions analysis;
               an_variables := an_variables analysis;
               an_calls := an_calls analysis;
               an_mutations := an_mutations analysis |}, false)
  end.

(** The appends and counter updates at the end of one iteration. *)
Definition record_file (acc : Collected) (file : string * string)
    (outcome : Analysis * bool) : Collected :=
  let '(rel_path, abs_path) := file in
  let '(analysis, reused) := outcome in
  let digest := file_sha256 abs_path in
  {| col_analyses := col_analyses acc ++ [analysis];
     col_file_hash_pairs := col_file_hash_pairs acc ++ [(rel_path, digest)];
     col_files_reparsed :=
       if reused then col_files_reparsed acc else col_files_reparsed acc + 1;
     col_files_reused :=
       if reused then col_files_reused acc + 1 else col_files_reused acc;
     col_new_cache_files :=
       <[abs_path := mkCacheEntry (Some digest) (Some analysis)]>
         (col_new_cache_files acc) |}.

(** One iteration of [for rel_path, abs_path in files]. *)
Definition collect_step (incremental : bool) (cache_files : gmap string CacheEntry)
    (acc : option Collected) (file : string * string) : option Collected :=
  acc ← acc;
  outcome ← collect_file incremental cache_files file;
  Some (record_file acc file outcome).

(** [SemanticIndexer.build(incremental)]: the graph, the statistics and the
    cache it saves.  [files] are the discovered (relative, absolute) paths,
    [cache] the loaded file cache and [existing_graph] the loaded graph.
    [None] is an exception: a [ParseError] of [analyze_file].  The [culture]
    and [is_public_api] keys the build adds to each symbol are determined by
    the symbol's file and visibility and are not fields of [Symbol]. *)
Definition build (incremental : bool) (existing_graph : option Graph) (cache : Cache)
    (files : list (string * string)) (env : BuildEnv)
  : option (Graph * BuildStats * Cache) :=
  let valid_cache :=
    bool_decide (cache_version cache = Some CACHE_VERSION)
    && bool_decide (cache_parser_version cache = Some PARSER_VERSION) in
  let cache_files := if incremental && valid_cache then cache_files cache else ∅ in
  collected ←
    fold_left (collect_step incremental cache_files) files
      (Some (mkCollected [] [] 0 0 ∅));
  let analyses := sorted_by rel_path_of (col_analyses collected) in
  let culture_by_file :=
    culture_by_file_of (fun analysis => classify_file (rel_path_of analysis) analysis)
      analyses in
  let symbols := flatten_symbols analyses in
  let calls := flatten_calls analyses in
  let mutations := flatten_mutations analyses in
  files_payload ← build_file_records analyses culture_by_file;
  let st :=
    {| bs_repo_root := env_repo_root env;
       bs_repo_digest := env_repo_digest env;
       bs_files_total := Z.of_nat (length files);
       bs_symbols := symbols;
       bs_calls := calls;
       bs_mutations := mutations;
       bs_files_payload := files_payload;
       bs_culture_by_file := culture_by_file;
       bs_file_hash_pairs := col_file_hash_pairs collected;
       bs_now := env_now env;
       bs_duration_ms := env_duration_ms env;
       bs_files_reparsed := col_files_reparsed collected;
       bs_files_reused := col_files_reused collected |} in
  graph ← build_graph sha256_hex str_lower existing_graph st;
  Some (graph,
        {| stats_files_total := Z.of_nat (length files);
           stats_files_reparsed := col_files_reparsed collected;
           stats_files_reused := col_files_reused collected;
           stats_symbols_total := Z.of_nat (length symbols);
           stats_call_edges_total := Z.of_nat (length (graph_edges_calls graph));
           stats_mutation_edges_total :=
             Z.of_nat (length (graph_edges_mutations graph));
           stats_duration_ms := env_duration_ms env |},
        {| cache_version := Some CACHE_VERSION;
           cache_parser_version := Some PARSER_VERSION;
           cache_generated_at := Some (env_cache_now env);
           cache_files := col_new_cache_files collected |}).

(** *** The loop as a whole *)

Definition record_files (acc : Collected)
    (entries : list ((string * string) * (Analysis * bool))) : Collected :=
  fold_left (fun acc entry => record_file acc entry.1 entry.2) entries acc.

Lemma collect_fold incremental cache_files files acc :
  fold_left (collect_step incremental cache_files) files (Some acc)
  = outcomes ← mapM (collect_file incremental cache_files) files;
    Some (record_files acc (zip files outcomes)).
Proof.
  revert acc. induction files as [|file files IH]; intros acc; [done|].
  cbn [fold_left mapM]. unfold collect_step at 2. cbn [mbind option_bind].
  destruct (collect_file incremental cache_files file) as [outcome|];
    cbn [mbind option_bind].
  - rewrite IH. destruct (mapM _ files); reflexivity.
  - clear IH. induction files as [|f fs IH]; [done|]. exact IH.
Qed.

Lemma record_files_result acc entries :
  col_analyses (record_files acc entries)
  = col_analyses acc ++ map (fun entry => entry.2.1) entries
  /\ col_file_hash_pairs (record_files acc entries)
     = col_file_hash_pairs acc
       ++ map (fun entry => (entry.1.1, file_sha256 entry.1.2)) entries
  /\ col_files_reparsed (record_files acc entries) + col_files_reused (record_files acc entries)
     = col_files_reparsed acc + col_files_reused acc + Z.of_nat (length entries)
  /\ col_files_reused (record_files acc entries)
     = col_files_reused acc
       + Z.of_nat (length (List.filter (fun entry => entry.2.2) entries))
  /\ col_new_cache_files (record_files acc entries)
     = fold_left (fun m entry =>
                    <[entry.1.2 := mkCacheEntry (Some (file_sha256 entry.1.2))
                                     (Some entry.2.1)]> m)
         entries (col_new_cache_files acc).
Proof.
  revert acc. induction entries as [|[[rel abs] [a reused]] entries IH]; intros acc.
  - cbn. rewrite !app_nil_r. repeat split; lia.
  - change (record_files acc (((rel, abs), (a, reused)) :: entries))
      with (record_files (record_file acc (rel, abs) (a, reused)) entries).
    destruct (IH (record_file acc (rel, abs) (a, reused))) as (Ha & Hp & Hsum & Hr & Hc).
    rewrite Ha, Hp, Hc. clear Ha Hp Hc IH.
    cbn [fold_left record_file col_analyses col_file_hash_pairs col_files_reparsed
         col_files_reused col_new_cache_files map List.filter fst snd length] in *.
    rewrite <- !app_assoc. cbn [app].
    repeat split; destruct reused; cbn [length]; lia.
Qed.

Lemma filter_all {A} (f : A -> bool) (l : list A) :
  Forall (fun x => f x = true) l -> List.filter f l = l.
Proof.
  induction 1 as [|x l Hx _ IH]; [done|]. cbn [List.filter]. by rewrite Hx, IH.
Qed.

Lemma filter_none {A} (f : A -> bool) (l : list A) :
  Forall (fun x => f x = false) l -> List.filter f l = [].
Proof.
  induction 1 as [|x l Hx _ IH]; [done|]. cbn [List.filter]. by rewrite Hx, IH.
Qed.

Lemma collect_outcomes_length incremental cache_files files outcomes :
  mapM (collect_file incremental cache_files) files = Some outcomes ->
  length (zip files outcomes) = length files
  /\ map fst (zip files outcomes) = files
  /\ map snd (zip files outcomes) = outcomes.
Proof.
  intros Hm. apply length_mapM in Hm.
  split; [rewrite length_zip; lia|].
  split; [apply fst_zip; lia|apply snd_zip; lia].
Qed.

Lemma cache_fold_dom (entries : list ((string * string) * (Analysis * bool)))
    (m : gmap string CacheEntry) (abs : string) :
  is_Some (fold_left (fun m entry =>
                        <[entry.1.2 := mkCacheEntry (Some (file_sha256 entry.1.2))
                                         (Some entry.2.1)]> m) entries m !! abs)
  <-> is_Some (m !! abs) \/ abs ∈ map (fun entry => entry.1.2) entries.
Proof.
  revert m. induction entries as [|e entries IH]; intros m; cbn [fold_left map].
  - split; [by left|]. intros [?|?%elem_of_nil]; done.
  - rewrite IH, elem_of_cons. destruct (decide (e.1.2 = abs)) as [<-|Hne].
    + rewrite lookup_insert_eq. split; [intros _; right; by left|eauto].
    + rewrite lookup_insert_ne by done. split; [tauto|].
      intros [?|[?|?]]; [by left|congruence|by right].
Qed.

Lemma cache_fold_lookup (entries : list ((string * string) * (Analysis * bool)))
    (m : gmap string CacheEntry) (entry : (string * string) * (Analysis * bool)) :
  NoDup (map (fun entry => entry.1.2) entries) ->
  entry ∈ entries ->
  fold_left (fun m entry =>
               <[entry.1.2 := mkCacheEntry (Some (file_sha256 entry.1.2))
                                (Some entry.2.1)]> m) entries m !! entry.1.2
  = Some (mkCacheEntry (Some (file_sha256 entry.1.2)) (Some entry.2.1)).
Proof.
  assert (Hkeep : forall (l : list ((string * string) * (Analysis * bool)))
                         (m' : gmap string CacheEntry) (k : string) (v : CacheEntry),
            k ∉ map (fun entry => entry.1.2) l -> m' !! k = Some v ->
            fold_left (fun m entry =>
                         <[entry.1.2 := mkCacheEntry (Some (file_sha256 entry.1.2))
                                          (Some entry.2.1)]> m) l m' !! k = Some v).
  { induction l as [|e l IH]; intros m' k v Hk Hm'; [done|].
    cbn [fold_left map] in *. apply IH; [set_solver|].
    rewrite lookup_insert_ne; [done|]. set_solver. }
  revert m. induction entries as [|e entries IH]; intros m Hnd Hin.
  - by apply elem_of_nil in Hin.
  - cbn [map] in Hnd. apply NoDup_cons in Hnd as [Hfresh Hnd]. cbn [fold_left].
    apply elem_of_cons in Hin as [->|Hin]; [|by apply IH].
    apply Hkeep; [done|]. apply lookup_insert_eq.
Qed.

(** A build that finds the digest of its own files in the loaded graph
    writes the meta block it found. *)
Lemma build_meta_noop (existing : option Graph) (existing' : Graph)
    (st1 st2 : BuildState) :
  g_meta existing' = Some (build_meta sha256_hex existing st1) ->
  bs_file_hash_pairs st2 = bs_file_hash_pairs st1 ->
  bs_repo_root st2 = bs_repo_root st1 ->
  bs_repo_digest st2 = bs_repo_digest st1 ->
  bs_files_total st2 = bs_files_total st1 ->
  build_meta sha256_hex (Some existing') st2 = build_meta sha256_hex existing st1.
Proof.
  intros Hmeta Hpairs Hroot Hdigest Htotal.
  unfold build_meta at 1. cbn [mbind option_bind]. rewrite Hmeta.
  cbn [mbind option_bind]. rewrite Hpairs, Hroot, Hdigest, Htotal.
  unfold build_meta.
  cbn [meta_content_digest meta_generated_at meta_build_duration_ms
       meta_files_reparsed meta_files_reused mbind option_bind].
  rewrite String.eqb_refl. cbn [default from_option id]. reflexivity.
Qed.

(** X21. The statistics of a build add up: every discovered file is either
    re-parsed or reused, a full (non-incremental) build reuses none, the
    graph has one file record per file and as many symbols as the
    statistics report, and the cache that is saved carries the current
    versions and one entry for each file, and no other. *)
Theorem build_statistics (incremental : bool) (existing_graph : option Graph)
    (cache : Cache) (files : list (string * string)) (env : BuildEnv)
    (g : Graph) (stats : BuildStats) (saved : Cache) :
  build incremental existing_graph cache files env = Some (g, stats, saved) ->
  stats_files_total stats = Z.of_nat (length files)
  /\ stats_files_reparsed stats + stats_files_reused stats = stats_files_total stats
  /\ 0 <= stats_files_reused stats <= stats_files_total stats
  /\ (incremental = false -> stats_files_reused stats = 0)
  /\ length (graph_files g) = length files
  /\ stats_symbols_total stats = Z.of_nat (length (graph_symbols g))
  /\ cache_version saved = Some CACHE_VERSION
  /\ cache_parser_version saved = Some PARSER_VERSION
  /\ forall abs, is_Some (cache_files saved !! abs) <-> abs ∈ map snd files.
Proof.
  unfold build. rewrite collect_fold.
  set (cf := if incremental && _ then cache_files cache else ∅).
  destruct (mapM (collect_file incremental cf) files) as [outcomes|] eqn:Hm; [|done].
  cbn [mbind option_bind].
  destruct (collect_outcomes_length _ _ _ _ Hm) as (Hlen & Hfst & Hsnd).
  destruct (record_files_result (mkCollected [] [] 0 0 ∅) (zip files outcomes))
    as (Han & _ & Hsum & Hreused & Hcache).
  set (collected := record_files _ _) in *.
  cbn [col_analyses col_files_reparsed col_files_reused col_new_cache_files app] in *.
  destruct (build_file_records _ _) as [files_payload|] eqn:Hrecords; [|done].
  cbn [mbind option_bind].
  match goal with
  | |- context [build_graph _ _ _ ?st] => destruct (build_graph_meta sha256_hex str_lower existing_graph st) as (g0 & Hg0 & _); pose proof Hg0 as Hsections; rewrite Hg0
  end.
  cbn [mbind option_bind]. intros [= <- <- <-].
  cbn [stats_files_total stats_files_reparsed stats_files_reused stats_symbols_total
       cache_version cache_parser_version cache_files].
  unfold build_graph in Hsections.
  destruct (compute_impact _ _ _ _) as [impact|]; [|done].
  cbn [mbind option_bind] in Hsections. injection Hsections as <-.
  cbn [graph_files graph_symbols g_files g_symbols from_option id bs_files_payload
       bs_symbols].
  assert (Hcount : (length (List.filter (fun entry : (string * string) * (Analysis * bool) =>
                                           entry.2.2) (zip files outcomes))
                    <= length (zip files outcomes))%nat) by apply List.filter_length_le.
  assert (Hpayload : length files_payload = length files).
  { unfold build_file_records in Hrecords.
    destruct (mapM (file_record_of _) _) as [records|] eqn:Hrec; [|done].
    injection Hrecords as <-. apply length_mapM in Hrec.
    rewrite sorted_by_length, <- Hrec, sorted_by_length, Han, length_map. lia. }
  split; [done|]. split; [lia|]. split; [lia|]. split.
  { intros ->. rewrite Hreused.
    assert (Hnone : List.filter (fun entry : (string * string) * (Analysis * bool) =>
                                   entry.2.2) (zip files outcomes) = []).
    { assert (Hall : Forall (fun outcome : Analysis * bool => outcome.2 = false) outcomes).
      { apply mapM_Some_1 in Hm. clear -Hm.
        induction Hm as [|[rel abs] [a r] l l' Hc _ IH]; constructor; [|done].
        unfold collect_file in Hc. cbn [reusable] in Hc.
        destruct (analyze_file abs); [|done]. by injection Hc as _ <-. }
      apply filter_none. rewrite <- Hsnd in Hall.
      by apply Forall_fmap in Hall. }
    rewrite Hnone. done. }
  split; [done|]. split; [done|]. split; [done|]. split; [done|].
  intros abs. rewrite Hcache, cache_fold_dom, lookup_empty.
  replace (map (fun entry : (string * string) * (Analysis * bool) => entry.1.2)
             (zip files outcomes))
    with (map snd (map fst (zip files outcomes))) by (by rewrite map_map).
  rewrite Hfst. split; [intros [[? ?]|?]; done|by right].
Qed.

End BuildLoop.

(** Two files that each declare one function, hashed and analysed by
    stand-ins for [file_sha256] and [analyze_file]. *)
Definition sample_files : list (string * string) :=
  [("a.swift", "/repo/a.swift"); ("b.swift", "/repo/b.swift")].

Definition sample_sha (abs_path : string) : string := "sha-" +:+ abs_path.

Definition sample_analyze (abs_path : string) : option Analysis :=
  Some (mkAnalysis abs_path None (sample_sha abs_path) []
          [mkSymbol (abs_path +:+ "::global::f()::L1") "f" "f()" "function" 0 "global"
             "internal" abs_path 1]
          [] [] []).

Definition sample_classify (rel_path : string) (analysis : Analysis) : string :=
  "Citizen".

Definition first_env : BuildEnv :=
  mkBuildEnv "/repo" "no-git" "2024-01-01T00:00:00+00:00" "2024-01-01T00:00:01+00:00" 40.

Definition second_env : BuildEnv :=
  mkBuildEnv "/repo" "no-git" "2024-02-02T00:00:00+00:00" "2024-02-02T00:00:01+00:00" 3.

Lemma build_statistics_witness :
  exists g stats saved,
    build id id sample_sha sample_analyze sample_classify false None
      (mkCache None None None ∅) sample_files first_env = Some (g, stats, saved)
    /\ stats_files_reparsed stats = 2
    /\ stats_files_reused stats = 0.
Proof.
  destruct (build id id sample_sha sample_analyze sample_classify false None
              (mkCache None None None ∅) sample_files first_env)
    as [[[g stats] saved]|] eqn:Hbuild; [|vm_compute in Hbuild; discriminate].
  exists g, stats, saved. split; [done|].
  destruct (build_statistics _ _ _ _ _ _ _ _ _ _ _ _ _ Hbuild)
    as (Htotal & Hsum & _ & Hfull & _).
  specialize (Hfull eq_refl). cbn in Htotal. split; lia.
Defined.

(** ** query_tools.py: the graph summary *)

Record Hotspot := mkHotspot {
  hs_symbol_id : string;
  hs_score : Q;
  hs_direct_callers : Z
}.

Record SummaryCounts := mkSummaryCounts {
  cnt_files : Z;
  cnt_symbols : Z;
  cnt_edges_calls : Z;
  cnt_edges_mutations : Z;
  cnt_edges_depends_on : Z
}.

Record GraphSummary := mkGraphSummary {
  gs_schema_version : option string;
  gs_generated_at : option string;
  gs_repo_digest : option string;
  gs_counts : SummaryCounts;
  gs_hotspots : list Hotspot;
  gs_build_duration_ms : option Z;
  gs_files_reparsed : option Z;
  gs_files_reused : option Z
}.

(** [<] on the sort key [(-score, symbol id)] of an item of the impact
    table. *)
Definition hotspot_key_lt (a b : string * SymbolImpact) : bool :=
  if negb (Qeq_bool (- si_score a.2) (- si_score b.2))
  then Qltb (- si_score a.2) (- si_score b.2)
  else negb (String.leb b.1 a.1).

Definition hotspot_key_le (a b : string * SymbolImpact) : bool :=
  negb (hotspot_key_lt b a).

(** [graph_summary()] *)
Definition graph_summary (self : GraphQueryEngine) : GraphSummary :=
  let top_symbols := take 10 (sorted_with hotspot_key_le (impact_symbols self)) in
  let meta := g_meta (graph self) in
  {| gs_schema_version := meta ≫= meta_schema_version;
     gs_generated_at := meta ≫= meta_generated_at;
     gs_repo_digest := meta_repo_digest <$> meta;
     gs_counts :=
       {| cnt_files := Z.of_nat (length (graph_files (graph self)));
          cnt_symbols := Z.of_nat (length (graph_symbols (graph self)));
          cnt_edges_calls := Z.of_nat (length (graph_edges_calls (graph self)));
          cnt_edges_mutations :=
            Z.of_nat (length (graph_edges_mutations (graph self)));
          cnt_edges_depends_on :=
            Z.of_nat (length (graph_edges_depends_on (graph self))) |};
     gs_hotspots :=
       map (fun '(sid, metrics) =>
              {| hs_symbol_id := sid;
                 hs_score := si_score metrics;
                 hs_direct_callers := si_direct_callers metrics |})
         top_symbols;
     gs_build_duration_ms := meta ≫= meta_build_duration_ms;
     gs_files_reparsed := meta ≫= meta_files_reparsed;
     gs_files_reused := meta ≫= meta_files_reused |}.

Section SortWithFacts.
Context {A : Type}.
Variable le : A -> A -> bool.
Hypothesis le_total : forall a b, le a b = true \/ le b a = true.

Lemma insert_with_sorted x l :
  Sorted (fun a b => le a b = true) l ->
  Sorted (fun a b => le a b = true) (insert_with le x l).
Proof.
  induction 1 as [|y l Hs IH Hhd]; cbn [insert_with].
  - repeat constructor.
  - destruct (le x y) eqn:E.
    + constructor; [by constructor|]. by constructor.
    + constructor; [done|].
      assert (Hyx : le y x = true) by (destruct (le_total x y); congruence).
      destruct Hhd as [|z l Hyz]; cbn [insert_with].
      * by constructor.
      * destruct (le x z); by constructor.
Qed.

Lemma sorted_with_sorted l : Sorted (fun a b => le a b = true) (sorted_with le l).
Proof.
  induction l as [|x l IH]; cbn [sorted_with]; [constructor|].
  by apply insert_with_sorted.
Qed.
End SortWithFacts.

Section Summary.

(** The order of the hotspot key: a higher score first, equal scores by
    symbol id. *)
Definition hotter (a b : string * SymbolImpact) : Prop :=
  (si_score b.2 < si_score a.2)%Q
  \/ ((si_score a.2 == si_score b.2)%Q /\ String.leb a.1 b.1 = true).

Lemma hotspot_key_le_hotter a b : hotspot_key_le a b = true <-> hotter a b.
Proof.
  unfold hotspot_key_le, hotspot_key_lt, hotter, Qltb.
  destruct (Qeq_bool (- si_score b.2) (- si_score a.2)) eqn:Heq; cbn [negb].
  - apply Qeq_bool_iff in Heq. rewrite negb_involutive.
    assert (Hs : (si_score a.2 == si_score b.2)%Q).
    { rewrite <- (Qopp_involutive (si_score a.2)), <- (Qopp_involutive (si_score b.2)).
      by rewrite Heq. }
    split; [by right|]. intros [Hlt|[_ ?]]; [|done].
    rewrite Hs in Hlt. by apply Qlt_irrefl in Hlt.
  - apply Qeq_bool_neq in Heq. rewrite negb_involutive, Qle_bool_iff.
    split.
    + intros Hle. left. apply Qle_lteq in Hle as [Hlt|Hq].
      * apply Qopp_lt_compat in Hlt. by rewrite !Qopp_involutive in Hlt.
      * exfalso. apply Heq. by symmetry.
    + intros [Hlt|[Hq _]].
      * apply Qlt_le_weak. by apply Qopp_lt_compat.
      * exfalso. apply Heq. by rewrite Hq.
Qed.

Lemma hotter_total a b : hotter a b \/ hotter b a.
Proof.
  unfold hotter.
  destruct (Q_dec (si_score a.2) (si_score b.2)) as [[Hlt|Hgt]|Heq]; [by right; left|by left; left|].
  destruct (py_le_total (a.1 : string) b.1) as [Hle|Hle]; cbn in Hle.
  - left; right. done.
  - right; right. split; [by symmetry|done].
Qed.

#[local] Instance hotter_trans : Transitive hotter.
Proof.
  intros a b c [Hab|[Hab Hlab]] [Hbc|[Hbc Hlbc]]; unfold hotter.
  - left. by eapply Qlt_trans.
  - left. by rewrite <- Hbc.
  - left. by rewrite Hab.
  - right. split; [by rewrite Hab|]. by eapply string_leb_trans.
Qed.

Lemma hotter_score a b : hotter a b -> (si_score b.2 <= si_score a.2)%Q.
Proof.
  intros [Hlt|[Heq _]]; [by apply Qlt_le_weak|]. rewrite Heq. apply Qle_refl.
Qed.

(** X23. The hotspots of [graph_summary] are the (at most) ten
    highest-scoring symbols of the impact table: the table's entries,
    ordered by descending score and then by symbol id, are the hotspots
    followed by entries that score no higher than any hotspot; each hotspot
    carries the score and direct-caller count of its entry, and the counts
    are the lengths of the graph's sections. *)
Theorem graph_summary_hotspots (self : GraphQueryEngine) :
  exists top rest,
    top ++ rest ≡ₚ impact_symbols self
    /\ length top = Nat.min 10 (length (impact_symbols self))
    /\ gs_hotspots (graph_summary self)
       = map (fun entry => mkHotspot entry.1 (si_score entry.2)
                             (si_direct_callers entry.2)) top
    /\ StronglySorted hotter top
    /\ (forall a b, a ∈ top -> b ∈ rest ->
          hotter a b /\ (si_score b.2 <= si_score a.2)%Q)
    /\ cnt_symbols (gs_counts (graph_summary self))
       = Z.of_nat (length (graph_symbols (graph self)))
    /\ cnt_edges_calls (gs_counts (graph_summary self))
       = Z.of_nat (length (graph_edges_calls (graph self))).
Proof.
  set (sorted := sorted_with hotspot_key_le (impact_symbols self)).
  assert (Hsorted : StronglySorted hotter sorted).
  { apply Sorted_StronglySorted; [apply hotter_trans|].
    assert (Hs : Sorted (fun a b => hotspot_key_le a b = true) sorted).
    { apply sorted_with_sorted. intros a b.
      rewrite !hotspot_key_le_hotter. apply hotter_total. }
    clear -Hs. induction Hs as [|x l Hs IH Hhd]; constructor; [done|].
    destruct Hhd; constructor. by apply hotspot_key_le_hotter. }
  exists (take 10 sorted), (drop 10 sorted).
  rewrite take_drop. split; [apply sorted_with_perm|].
  split.
  { rewrite length_take. unfold sorted.
    rewrite (Permutation_length (sorted_with_perm hotspot_key_le (impact_symbols self))).
    done. }
  split.
  { cbn [graph_summary gs_hotspots]. apply map_ext. by intros [sid m]. }
  rewrite <- (take_drop 10 sorted) in Hsorted.
  split; [by apply StronglySorted_app_1_l in Hsorted|].
  split; [|done].
  intros a b Ha Hb.
  assert (Hab : hotter a b) by (by apply (StronglySorted_app_1_elem_of _ _ _ _ _ Hsorted)).
  split; [done|by apply hotter_score].
Qed.

End Summary.

(** ** query_tools.py: symbol lookup *)

(** [needle in haystack] on strings. *)
Fixpoint contains (needle haystack : string) : bool :=
  String.prefix needle haystack
  || match haystack with
     | EmptyString => false
     | String _ rest => contains needle rest
     end.

(** [items[:limit]]: a negative limit counts from the end. *)
Definition py_take {A} (limit : Z) (items : list A) : list A :=
  if 0 <=? limit then take (Z.to_nat limit) items
  else take (length items - Z.to_nat (- limit)) items.

Record SymbolMatch := mkSymbolMatch {
  sm_id : string;
  sm_name : string;
  sm_kind : string;
  sm_signature : string;
  sm_file : string;
  sm_line : Z;
  sm_container : string;
  sm_visibility : string;
  sm_culture : string;
  sm_confidence : Q
}.

(** [<] on the sort key [(-confidence, name, id)]. *)
Definition match_key_lt (a b : SymbolMatch) : bool :=
  if negb (Qeq_bool (- sm_confidence a) (- sm_confidence b))
  then Qltb (- sm_confidence a) (- sm_confidence b)
  else if negb (String.eqb (sm_name a) (sm_name b))
  then negb (String.leb (sm_name b) (sm_name a))
  else negb (String.leb (sm_id b) (sm_id a)).

Definition match_key_le (a b : SymbolMatch) : bool := negb (match_key_lt b a).

Section FindSymbol.

(** [str.lower] and [str.strip]. *)
Variable str_lower : string -> string.
Variable str_strip : string -> string.

(** The culture of a symbol's file, "Citizen" without a file record. *)
Definition symbol_culture (self : GraphQueryEngine) (symbol : Symbol) : string :=
  match file_by_id self !! sym_file symbol with
  | Some file_record => file_culture file_record
  | None => "Citizen"
  end.

(** The body of the loop over the matched ids: the item appended for [sid],
    or [None] where the loop [continue]s. *)
Definition match_of (self : GraphQueryEngine) (key : string)
    (kind culture : option string) (sid : string) : option SymbolMatch :=
  match symbol_by_id self !! sid with
  | None => None
  | Some symbol =>
      let symbol_culture := symbol_culture self symbol in
      if truthy_opt kind && negb (bool_decide (Some (sym_kind symbol) = kind))
      then None
      else if truthy_opt culture && negb (bool_decide (Some symbol_culture = culture))
      then None
      else
        let confidence :=
          if String.eqb (str_lower (sym_name symbol)) key then 1%Q else (8 # 10)%Q in
        Some {| sm_id := sid;
                sm_name := sym_name symbol;
                sm_kind := sym_kind symbol;
                sm_signature := sym_signature symbol;
                sm_file := sym_file symbol;
                sm_line := sym_line symbol;
                sm_container := sym_container symbol;
                sm_visibility := sym_visibility symbol;
                sm_culture := symbol_culture;
                sm_confidence := confidence |}
  end.

(** [find_symbol(query, kind, culture, limit)]: the query and the matches. *)
Definition find_symbol (self : GraphQueryEngine) (query : string)
    (kind culture : option string) (limit : Z) : string * list SymbolMatch :=
  let key := str_strip (str_lower query) in
  let matched_ids : gset string :=
    list_to_set (default [] (dict_get (symbols_by_name self) key)) in
  let matched_ids :=
    if decide (matched_ids = ∅)
    then fold_left (fun acc '(name, ids) =>
                      if contains key name then acc ∪ list_to_set ids else acc)
           (symbols_by_name self) (matched_ids : gset string)
    else matched_ids in
  let items :=
    omap (match_of self key kind culture) (sorted_by id (elements matched_ids)) in
  let items := sorted_with match_key_le items in
  (query, py_take limit items).

(** The ids a query is matched against: those filed under the key itself
    if there are any, else those filed under every name containing it. *)
Definition candidate_ids (self : GraphQueryEngine) (key : string) : gset string :=
  match default [] (dict_get (symbols_by_name self) key) with
  | [] =>
      ⋃ (map (fun '(name, ids) =>
                if contains key name then list_to_set ids else ∅)
           (symbols_by_name self))
  | exact => list_to_set exact
  end.

Lemma substring_fold (key : string) (index : pydict (list string)) (acc : gset string) :
  fold_left (fun acc '(name, ids) =>
               if contains key name then acc ∪ list_to_set ids else acc) index acc
  = acc ∪ ⋃ (map (fun '(name, ids) =>
                   if contains key name then list_to_set ids else ∅) index).
Proof.
  revert acc. induction index as [|[name ids] index IH]; intros acc; cbn [fold_left map].
  - cbn. set_solver.
  - rewrite IH. cbn [union_list foldr]. destruct (contains key name); set_solver.
Qed.

Lemma py_take_length {A} (limit : Z) (items : list A) :
  0 <= limit -> (Z.of_nat (length (py_take limit items)) <= limit).
Proof.
  intros Hl. unfold py_take. rewrite (proj2 (Z.leb_le 0 limit) Hl).
  rewrite length_take. lia.
Qed.

Lemma py_take_prefix {A} (limit : Z) (items : list A) :
  exists dropped, items = py_take limit items ++ dropped.
Proof.
  unfold py_take. destruct (0 <=? limit); eexists; symmetry; apply take_drop.
Qed.

(** X24. [find_symbol] returns a prefix, cut by [limit], of the list of all
    matches; a non-negative limit bounds the number returned.  All matches
    are: one item, once, for each candidate id that is a symbol of the graph
    and passes the kind and culture filters (a filter that is absent or
    empty passes everything), with confidence 1.0 when the symbol's
    lower-cased name is the key and 0.8 otherwise.  The candidate ids are
    those the name index files under the key; only when there are none are
    they the ids filed under the names that contain the key, so an exact hit
    suppresses the substring search even if the filters then reject it. *)
Theorem find_symbol_matches (self : GraphQueryEngine) (query : string)
    (kind culture : option string) (limit : Z) :
  let key := str_strip (str_lower query) in
  exists all dropped,
    find_symbol self query kind culture limit = (query, py_take limit all)
    /\ all = py_take limit all ++ dropped
    /\ (0 <= limit -> Z.of_nat (length (py_take limit all)) <= limit)
    /\ NoDup (map sm_id all)
    /\ forall item,
         item ∈ all
         <-> exists symbol,
               sm_id item ∈ candidate_ids self key
               /\ symbol_by_id self !! sm_id item = Some symbol
               /\ (truthy_opt kind = true -> kind = Some (sym_kind symbol))
               /\ (truthy_opt culture = true
                   -> culture = Some (symbol_culture self symbol))
               /\ item
                  = mkSymbolMatch (sm_id item) (sym_name symbol) (sym_kind symbol)
                      (sym_signature symbol) (sym_file symbol) (sym_line symbol)
                      (sym_container symbol) (sym_visibility symbol)
                      (symbol_culture self symbol)
                      (if String.eqb (str_lower (sym_name symbol)) key
                       then 1%Q else (8 # 10)%Q).
Proof.
  intros key. unfold find_symbol. fold key.
  set (matched := if decide (_ = ∅) then _ else _).
  assert (Hmatched : matched = candidate_ids self key).
  { unfold matched, candidate_ids.
    destruct (default [] (dict_get (symbols_by_name self) key)) as [|x exact] eqn:E.
    - cbn [list_to_set]. rewrite decide_True by done.
      rewrite substring_fold. set_solver.
    - rewrite decide_False; [done|]. cbn [list_to_set]. set_solver. }
  set (ids := sorted_by id (elements matched)).
  set (all := sorted_with match_key_le (omap (match_of self key kind culture) ids)).
  destruct (py_take_prefix limit all) as [dropped Hdropped].
  exists all, dropped. split; [done|]. split; [done|].
  split; [apply py_take_length|].
  assert (Hid : forall sid item, match_of self key kind culture sid = Some item ->
                                 sm_id item = sid).
  { intros sid item. unfold match_of.
    destruct (symbol_by_id self !! sid); [|done].
    repeat match goal with |- context [if ?b then _ else _] => destruct b end;
      try done; by intros [= <-]. }
  split.
  - unfold all. rewrite sorted_with_perm.
    assert (Hnd : NoDup ids).
    { unfold ids. rewrite sorted_by_perm. apply NoDup_elements. }
    clear -Hnd Hid. induction Hnd as [|sid l Hsid Hnd IH]; [constructor|].
    cbn [omap list_omap]. fold (omap (match_of self key kind culture) l).
    destruct (match_of self key kind culture sid) as [item|] eqn:Hm; [|done].
    cbn [map]. constructor; [|done].
    rewrite (Hid _ _ Hm). intros Hin. apply Hsid.
    apply list_elem_of_fmap in Hin as (item' & -> & Hin').
    apply list_elem_of_omap in Hin' as (sid' & Hsid' & Hm').
    by rewrite (Hid _ _ Hm').
  - intros item. unfold all. rewrite sorted_with_perm, list_elem_of_omap.
    unfold ids. setoid_rewrite (sorted_by_elem id). setoid_rewrite elem_of_elements.
    rewrite Hmatched. split.
    + intros (sid & Hsid & Hm). pose proof (Hid _ _ Hm) as <-.
      unfold match_of in Hm.
      destruct (symbol_by_id self !! sm_id item) as [symbol|]; [|done].
      exists symbol. split; [done|]. split; [done|].
      destruct (truthy_opt kind); cbn [andb] in Hm.
      * case_bool_decide as Hk; cbn [negb] in Hm; [|done].
        destruct (truthy_opt culture); cbn [andb] in Hm.
        -- case_bool_decide as Hc; cbn [negb] in Hm; [|done].
           injection Hm as <-. cbn [sm_id]. repeat split; done.
        -- injection Hm as <-. cbn [sm_id]. repeat split; done.
      * destruct (truthy_opt culture); cbn [andb] in Hm.
        -- case_bool_decide as Hc; cbn [negb] in Hm; [|done].
           injection Hm as <-. cbn [sm_id]. repeat split; done.
        -- injection Hm as <-. cbn [sm_id]. repeat split; done.
    + intros (symbol & Hcand & Hsym & Hkind & Hculture & Hitem).
      exists (sm_id item). split; [done|]. unfold match_of. rewrite Hsym.
      destruct (truthy_opt kind).
      * rewrite (bool_decide_eq_true_2 (Some (sym_kind symbol) = kind))
          by (symmetry; by apply Hkind).
        cbn [negb andb].
        destruct (truthy_opt culture).
        -- rewrite (bool_decide_eq_true_2 (Some (symbol_culture self symbol) = culture))
             by (symmetry; by apply Hculture).
           cbn [negb andb]. by rewrite Hitem at 2.
        -- cbn [andb]. by rewrite Hitem at 2.
      * cbn [andb]. destruct (truthy_opt culture).
        -- rewrite (bool_decide_eq_true_2 (Some (symbol_culture self symbol) = culture))
             by (symmetry; by apply Hculture).
           cbn [negb andb]. by rewrite Hitem at 2.
        -- cbn [andb]. by rewrite Hitem at 2.
Qed.

End FindSymbol.

(** ** indexer.py, ast_parser.py, classify_culture.py: rebuilding unchanged files *)

(** The lists [analyze_file] extracts from the parser's dump of a file. *)
Record ParsedAtoms := mkParsedAtoms {
  pa_types : list Symbol;
  pa_functions : list Symbol;
  pa_variables : list Symbol;
  pa_calls : list CallEvent;
  pa_mutations : list MutationEvent
}.

(** [text.replace(old, new)] for single characters. *)
Fixpoint replace_char (old new : Ascii.ascii) (text : string) : string :=
  match text with
  | EmptyString => EmptyString
  | String c rest =>
      String (if Ascii.eqb c old then new else c) (replace_char old new rest)
  end.

(** [text.endswith(suffix)] *)
Definition ends_with (suffix text : string) : bool :=
  (String.length suffix <=? String.length text)%nat
  && String.eqb
       (String.substring (String.length text - String.length suffix)
          (String.length suffix) text)
       suffix.

Section Rebuild.

(** Library calls: the SHA-256 of a text ([sha256_hex]) and of the bytes of
    a file ([file_sha256]), [str.lower], [Path.read_text], which decodes
    the bytes and translates line ends, and [Path.resolve]; and the scan of
    the parser's dump, [None] being its [ParseError]. *)
Variable sha256_hex : string -> string.
Variable str_lower : string -> string.
Variable file_sha256 : string -> string.
Variable read_text : string -> string.
Variable resolve : string -> string.
Variable parse_atoms : string -> option ParsedAtoms.

(** [analyze_file(file_path)]: the atoms, with the resolved path and the
    hash of the decoded text. *)
Definition analyze_file (file_path : string) : option Analysis :=
  let source_text := read_text file_path in
  atoms ← parse_atoms file_path;
  let abs_path := resolve file_path in
  let digest := sha256_hex source_text in
  Some {| an_file := abs_path;
          an_rel_path := None;
          an_hash := digest;
          an_types := pa_types atoms;
          an_functions := pa_functions atoms;
          an_variables := pa_variables atoms;
          an_calls := pa_calls atoms;
          an_mutations := pa_mutations atoms |}.

(** [classify_file(rel_path, analysis)]: the path rules, then the rules on
    the names of the file's types and functions. *)
Definition classify_file (rel_path : string) (analysis : Analysis) : string :=
  let normalized :=
    replace_char (Ascii.ascii_of_nat 92) (Ascii.ascii_of_nat 47) rel_path in
  let lower_path := str_lower normalized in
  if contains "/tests/" lower_path
     || String.prefix "tests/" lower_path
     || ends_with "tests.swift" lower_path
     || ends_with "test.swift" lower_path
  then CULTURE_AUDITOR
  else if contains "/ui/" lower_path
          || contains "/views/" lower_path
          || String.prefix "ui/" lower_path
          || String.prefix "views/" lower_path
  then CULTURE_VIEW
  else if contains "/config/" lower_path
          || contains "/configs/" lower_path
          || contains "/policy/" lower_path
          || contains "/rules/" lower_path
          || String.prefix "config/" lower_path
          || String.prefix "configs/" lower_path
  then CULTURE_LAW
  else
    let type_names := map sym_name (an_types analysis) in
    let func_names := map sym_name (an_functions analysis) in
    if existsb (ends_with "Tests") type_names then CULTURE_AUDITOR
    else if existsb (fun name => ends_with "Config" name || ends_with "Constants" name)
              type_names
    then CULTURE_LAW
    else if existsb (fun name =>
                       bool_decide (str_lower name ∈ ["body"; "makeui"; "render"]))
              func_names
    then CULTURE_VIEW
    else CULTURE_CITIZEN.

(** [SemanticIndexer.build] with the parser and the classifier of the
    repository. *)
Definition indexer_build (incremental : bool) (existing_graph : option Graph)
    (cache : Cache) (files : list (string * string)) (env : BuildEnv)
  : option (Graph * BuildStats * Cache) :=
  build sha256_hex str_lower file_sha256 analyze_file classify_file incremental
    existing_graph cache files env.

(** What the reuse branch makes of a cached analysis of a file at
    [an_file]: the hash becomes the hash of the file's bytes. *)
Definition with_byte_hash (analysis : Analysis) : Analysis :=
  {| an_file := an_file analysis;
     an_rel_path := an_rel_path analysis;
     an_hash := file_sha256 (an_file analysis);
     an_types := an_types analysis;
     an_functions := an_functions analysis;
     an_variables := an_variables analysis;
     an_calls := an_calls analysis;
     an_mutations := an_mutations analysis |}.

Definition rehashed (record : FileRecord) : FileRecord :=
  {| file_id := file_id record;
     file_path := file_path record;
     file_hash := file_sha256 (file_id record);
     file_culture := file_culture record;
     file_types := file_types record;
     file_functions := file_functions record;
     file_variables := file_variables record;
     file_mutation_count := file_mutation_count record |}.

(** The graph with the [hash] of every file record replaced by the hash of
    the file's bytes, and nothing else changed. *)
Definition with_byte_hashes (g : Graph) : Graph :=
  {| g_meta := g_meta g;
     g_files := map rehashed <$> g_files g;
     g_symbols := g_symbols g;
     g_edges_calls := g_edges_calls g;
     g_edges_mutations := g_edges_mutations g;
     g_edges_depends_on := g_edges_depends_on g;
     g_impact := g_impact g;
     g_indexes := g_indexes g |}.

Lemma map_fixed {A} (f : A -> A) (l : list A) :
  map f l = l <-> Forall (fun x => f x = x) l.
Proof.
  induction l as [|x l IH]; cbn [map].
  - split; [constructor|done].
  - rewrite Forall_cons, <- IH. split; [intros [= ? ?]; done|intros [-> ->]; done].
Qed.

Lemma with_byte_hashes_fixed (g : Graph) :
  with_byte_hashes g = g
  <-> Forall (fun record => file_hash record = file_sha256 (file_id record))
        (graph_files g).
Proof.
  assert (Hrecord : forall record,
            rehashed record = record
            <-> file_hash record = file_sha256 (file_id record)).
  { intros []. unfold rehashed. cbn. split; [intros [= ?]; done|intros ->; done]. }
  destruct g as [meta files symbols calls mutations depends impact indexes].
  unfold with_byte_hashes, graph_files. cbn.
  destruct files as [files|]; cbn.
  - split.
    + intros [= Hmap]. apply map_fixed in Hmap.
      eapply Forall_impl; [exact Hmap|]. intros record. apply Hrecord.
    + intros Hall. assert (Hmap : map rehashed files = files).
      { apply map_fixed. eapply Forall_impl; [exact Hall|]. intros record.
        apply Hrecord. }
      by rewrite Hmap.
  - split; [constructor|done].
Qed.

(** *** The first pass *)

Lemma collect_first incremental cache_files rel abs analysis reused :
  resolve abs = abs ->
  collect_file file_sha256 analyze_file incremental cache_files (rel, abs)
  = Some (analysis, reused) ->
  an_file analysis = abs /\ an_rel_path analysis = Some rel
  /\ (reused = false -> an_hash analysis = sha256_hex (read_text abs))
  /\ (incremental = false -> reused = false).
Proof.
  intros Hres. unfold collect_file.
  destruct (reusable _ _) as [cached|] eqn:Hcached.
  - intros [= <- <-]. cbn. split; [done|]. split; [done|]. split; [done|].
    intros ->. done.
  - unfold analyze_file. destruct (parse_atoms abs) as [atoms|]; [|done].
    cbn [mbind option_bind]. intros [= <- <-]. cbn. by rewrite Hres.
Qed.

(** *** The second pass *)

Lemma collect_again cache_files rel abs analysis :
  cache_files !! abs = Some (mkCacheEntry (Some (file_sha256 abs)) (Some analysis)) ->
  an_file analysis = abs -> an_rel_path analysis = Some rel ->
  collect_file file_sha256 analyze_file true cache_files (rel, abs)
  = Some (with_byte_hash analysis, true).
Proof.
  intros Hentry Hfile Hrel. unfold collect_file, reusable. rewrite Hentry.
  cbn [entry_hash entry_analysis]. rewrite bool_decide_eq_true_2 by done.
  unfold with_byte_hash. by rewrite Hfile, Hrel.
Qed.

Lemma recollect incremental cache_files files outcomes :
  NoDup (map snd files) ->
  Forall (fun file => resolve file.2 = file.2) files ->
  mapM (collect_file file_sha256 analyze_file incremental cache_files) files
  = Some outcomes ->
  mapM (collect_file file_sha256 analyze_file true
          (col_new_cache_files
             (record_files file_sha256 (mkCollected [] [] 0 0 ∅) (zip files outcomes))))
    files
  = Some (map (fun outcome => (with_byte_hash outcome.1, true)) outcomes).
Proof.
  intros Hnd Hres Hm.
  destruct (collect_outcomes_length _ _ _ _ _ _ Hm) as (_ & Hfst & Hsnd).
  destruct (record_files_result file_sha256 (mkCollected [] [] 0 0 ∅)
              (zip files outcomes)) as (_ & _ & _ & _ & ->).
  cbn [col_new_cache_files]. apply mapM_Some_1 in Hm. apply mapM_Some_2.
  apply Forall2_fmap_r.
  apply Forall2_same_length_lookup_2; [by eapply Forall2_length|].
  intros i [rel abs] [analysis reused] Hfile Houtcome.
  pose proof (Forall2_lookup_lr _ _ _ _ _ _ Hm Hfile Houtcome) as Hcollect.
  assert (Hresolved : resolve abs = abs).
  { apply (proj1 (Forall_forall _ _) Hres (rel, abs)).
    apply list_elem_of_lookup. eauto. }
  destruct (collect_first _ _ _ _ _ _ Hresolved Hcollect) as (Hf & Hr & _).
  cbn [fst]. apply collect_again; try done.
  apply (cache_fold_lookup sha256_hex str_lower file_sha256 analyze_file classify_file
           (zip files outcomes) ∅ ((rel, abs), (analysis, reused))).
  - replace (map (fun entry : (string * string) * (Analysis * bool) => entry.1.2)
               (zip files outcomes))
      with (map snd (map fst (zip files outcomes))) by (by rewrite map_map).
    by rewrite Hfst.
  - apply list_elem_of_lookup. exists i. rewrite lookup_zip_with.
    rewrite Hfile. cbn. rewrite Houtcome. done.
Qed.

(** *** The rest of the build does not read the hash of an analysis *)

Lemma flat_map_map {A B C} (f : B -> list C) (g : A -> B) (l : list A) :
  flat_map f (map g l) = flat_map (fun x => f (g x)) l.
Proof. induction l as [|x l IH]; cbn [map flat_map]; [done|]. by rewrite IH. Qed.

Lemma flatten_with_byte_hash (analyses : list Analysis) :
  flatten_symbols (map with_byte_hash analyses) = flatten_symbols analyses
  /\ flatten_calls (map with_byte_hash analyses) = flatten_calls analyses
  /\ flatten_mutations (map with_byte_hash analyses) = flatten_mutations analyses.
Proof.
  unfold flatten_symbols, flatten_calls, flatten_mutations.
  by rewrite !flat_map_map.
Qed.

Lemma culture_with_byte_hash (analyses : list Analysis) :
  culture_by_file_of (fun analysis => classify_file (rel_path_of analysis) analysis)
    (map with_byte_hash analyses)
  = culture_by_file_of (fun analysis => classify_file (rel_path_of analysis) analysis)
      analyses.
Proof.
  unfold culture_by_file_of. generalize (∅ : gmap string string).
  induction analyses as [|a analyses IH]; intros m; [done|].
  cbn [map fold_left]. rewrite IH. done.
Qed.

Lemma file_records_with_byte_hash (analyses : list Analysis)
    (culture_by_file : gmap string string) :
  build_file_records (map with_byte_hash analyses) culture_by_file
  = map rehashed <$> build_file_records analyses culture_by_file.
Proof.
  unfold build_file_records.
  assert (Hm : mapM (file_record_of culture_by_file) (map with_byte_hash analyses)
               = map rehashed <$> mapM (file_record_of culture_by_file) analyses).
  { assert (Hone : forall a,
              file_record_of culture_by_file (with_byte_hash a)
              = rehashed <$> file_record_of culture_by_file a).
    { intros a. unfold file_record_of. cbn [an_file with_byte_hash].
      by destruct (culture_by_file !! an_file a). }
    induction analyses as [|a analyses IH]; [done|].
    cbn [map mapM]. rewrite IH, Hone.
    destruct (file_record_of culture_by_file a); [|done].
    by destruct (mapM (file_record_of culture_by_file) analyses). }
  rewrite Hm.
  destruct (mapM (file_record_of culture_by_file) analyses) as [records|]; [|done].
  cbn [fmap option_fmap option_map mbind option_bind]. f_equal.
  symmetry. by apply sorted_by_map.
Qed.

Lemma build_indexes_rehashed (symbols : list Symbol) (files : list FileRecord)
    (edges_calls : list CallEdge) :
  _build_indexes str_lower symbols (map rehashed files) edges_calls
  = _build_indexes str_lower symbols files edges_calls.
Proof.
  unfold _build_indexes.
  assert (Hfold : forall m : gmap string (list string),
            fold_left (fun m file_record =>
                         dd_append (file_culture file_record) (file_id file_record) m)
              (map rehashed files) m
            = fold_left (fun m file_record =>
                           dd_append (file_culture file_record) (file_id file_record) m)
                files m).
  { induction files as [|r files IH]; intros m; [done|]. cbn [map fold_left].
    by rewrite IH. }
  by rewrite Hfold.
Qed.

(** Every file record carries the id and the hash of an analysis. *)
Lemma file_record_origin (analyses : list Analysis)
    (culture_by_file : gmap string string) (records : list FileRecord)
    (record : FileRecord) :
  build_file_records analyses culture_by_file = Some records ->
  record ∈ records ->
  exists analysis,
    analysis ∈ analyses /\ file_id record = an_file analysis
    /\ file_hash record = an_hash analysis.
Proof.
  unfold build_file_records.
  destruct (mapM (file_record_of culture_by_file) analyses) as [rs|] eqn:Hm; [|done].
  cbn [mbind option_bind]. intros [= <-] Hin.
  apply sorted_by_elem in Hin. apply mapM_Some_1 in Hm.
  apply list_elem_of_lookup in Hin as [i Hi].
  destruct (Forall2_lookup_r _ _ _ _ _ Hm Hi) as (a & Ha & Hf).
  exists a. split; [apply list_elem_of_lookup; eauto|].
  unfold file_record_of in Hf.
  destruct (culture_by_file !! an_file a); [|done].
  cbn [mbind option_bind] in Hf. by injection Hf as <-.
Qed.

(** X22. Rebuilding with nothing changed reuses everything, and changes
    nothing but the file hashes.  If (relative to the first build) the
    same files are discovered, by their resolved paths and with the same
    bytes, the repository root and digest are the same, the loaded graph
    carries the meta block the first build wrote and the loaded cache is
    the one it saved, then an incremental build re-parses no file, reuses
    every analysis and produces the first graph, timestamp and counters
    included, except that every file record carries the hash of the file's
    bytes.  So the two graphs are equal exactly when the first one already
    had those hashes; after a full build it has the hashes [analyze_file]
    takes of the decoded text instead. *)
Theorem rebuild_of_unchanged_files (incremental : bool)
    (existing_graph : option Graph) (cache : Cache) (files : list (string * string))
    (env1 env2 : BuildEnv) (g1 : Graph) (stats1 : BuildStats) (saved1 : Cache)
    (loaded : Graph) :
  NoDup (map snd files) ->
  Forall (fun file => resolve file.2 = file.2) files ->
  indexer_build incremental existing_graph cache files env1
  = Some (g1, stats1, saved1) ->
  g_meta loaded = g_meta g1 ->
  env_repo_root env2 = env_repo_root env1 ->
  env_repo_digest env2 = env_repo_digest env1 ->
  exists stats2 saved2,
    indexer_build true (Some loaded) saved1 files env2
    = Some (with_byte_hashes g1, stats2, saved2)
    /\ stats_files_reparsed stats2 = 0
    /\ stats_files_reused stats2 = Z.of_nat (length files)
    /\ (with_byte_hashes g1 = g1
        <-> Forall (fun record => file_hash record = file_sha256 (file_id record))
              (graph_files g1))
    /\ (incremental = false ->
        Forall (fun record => file_hash record = sha256_hex (read_text (file_id record)))
          (graph_files g1)).
Proof.
  intros Hnd Hres Hbuild Hloaded Hroot Hdigest.
  unfold indexer_build, build in Hbuild. rewrite collect_fold in Hbuild.
  set (cf := if incremental && _ then cache_files cache else ∅) in Hbuild.
  destruct (mapM (collect_file file_sha256 analyze_file incremental cf) files)
    as [outcomes|] eqn:Hm; [|done].
  cbn [mbind option_bind] in Hbuild.
  pose proof (recollect _ _ _ _ Hnd Hres Hm) as Hagain.
  destruct (collect_outcomes_length _ _ _ _ _ _ Hm) as (Hlen & Hfst & Hsnd).
  destruct (record_files_result file_sha256 (mkCollected [] [] 0 0 ∅)
              (zip files outcomes)) as (Han & Hpairs & _ & _ & Hcache).
  set (collected := record_files _ _ (zip files outcomes)) in *.
  cbn [col_analyses col_file_hash_pairs col_new_cache_files app] in *.
  set (analyses := sorted_by rel_path_of (col_analyses collected)) in *.
  destruct (build_file_records analyses _) as [files_payload|] eqn:Hrecords; [|done].
  cbn [mbind option_bind] in Hbuild.
  match type of Hbuild with
  | context [build_graph _ _ _ ?st] =>
      set (st1 := st) in Hbuild;
      destruct (build_graph_meta sha256_hex str_lower existing_graph st1)
        as (g0 & Hg0 & Hmeta0)
  end.
  rewrite Hg0 in Hbuild. cbn [mbind option_bind] in Hbuild.
  injection Hbuild as <- _ <-.
  (* the second build *)
  unfold indexer_build, build.
  cbn [cache_version cache_parser_version cache_files andb].
  rewrite !bool_decide_eq_true_2 by done. cbn [andb].
  rewrite collect_fold, Hagain. cbn [mbind option_bind].
  set (outcomes2 := map (fun outcome : Analysis * bool =>
                           (with_byte_hash outcome.1, true)) outcomes).
  assert (Hlen2 : length outcomes2 = length files).
  { unfold outcomes2. rewrite length_map. apply length_mapM in Hm. lia. }
  destruct (record_files_result file_sha256 (mkCollected [] [] 0 0 ∅)
              (zip files outcomes2)) as (Han2 & Hpairs2 & Hsum2 & Hreused2 & _).
  set (collected2 := record_files _ _ (zip files outcomes2)) in *.
  cbn [col_analyses col_file_hash_pairs col_files_reparsed col_files_reused app] in *.
  assert (Hanalyses : col_analyses collected2
                      = map with_byte_hash (col_analyses collected)).
  { rewrite Han, Han2.
    replace (map (fun entry : (string * string) * (Analysis * bool) => entry.2.1)
               (zip files outcomes2))
      with (map fst (map snd (zip files outcomes2))) by (by rewrite map_map).
    replace (map (fun entry : (string * string) * (Analysis * bool) => entry.2.1)
               (zip files outcomes))
      with (map fst (map snd (zip files outcomes))) by (by rewrite map_map).
    rewrite Hsnd, snd_zip by lia. unfold outcomes2. by rewrite !map_map. }
  assert (Hfst2 : map fst (zip files outcomes2) = files) by (apply fst_zip; lia).
  assert (Hsamepairs : col_file_hash_pairs collected2 = col_file_hash_pairs collected).
  { rewrite Hpairs, Hpairs2.
    replace (map (fun entry : (string * string) * (Analysis * bool) =>
                    (entry.1.1, file_sha256 entry.1.2)) (zip files outcomes2))
      with (map (fun file : string * string => (file.1, file_sha256 file.2))
              (map fst (zip files outcomes2))) by (by rewrite map_map).
    replace (map (fun entry : (string * string) * (Analysis * bool) =>
                    (entry.1.1, file_sha256 entry.1.2)) (zip files outcomes))
      with (map (fun file : string * string => (file.1, file_sha256 file.2))
              (map fst (zip files outcomes))) by (by rewrite map_map).
    by rewrite Hfst, Hfst2. }
  assert (Hsorted : sorted_by rel_path_of (col_analyses collected2)
                    = map with_byte_hash analyses).
  { rewrite Hanalyses. symmetry. unfold analyses. by apply sorted_by_map. }
  rewrite Hsorted.
  destruct (flatten_with_byte_hash analyses) as (-> & -> & ->).
  rewrite culture_with_byte_hash, file_records_with_byte_hash, Hrecords.
  cbn [fmap option_fmap option_map mbind option_bind].
  match goal with
  | |- context [build_graph _ _ _ ?st] =>
      set (st2 := st);
      destruct (build_graph_meta sha256_hex str_lower (Some loaded) st2)
        as (g2 & Hg2 & Hmeta2)
  end.
  assert (Hmeta : build_meta sha256_hex (Some loaded) st2
                  = build_meta sha256_hex existing_graph st1).
  { apply build_meta_noop; try done.
    by rewrite Hloaded, Hmeta0. }
  assert (Hgraph : g2 = with_byte_hashes g0).
  { unfold build_graph in Hg0, Hg2.
    cbn [bs_symbols bs_calls bs_mutations bs_culture_by_file bs_files_payload st1 st2]
      in Hg0, Hg2.
    rewrite build_indexes_rehashed in Hg2.
    destruct (compute_impact _ _ _ _) as [impact|]; [|done].
    cbn [mbind option_bind] in Hg0, Hg2.
    injection Hg0 as <-. injection Hg2 as <-. unfold with_byte_hashes. cbn.
    by rewrite Hmeta. }
  rewrite Hg2, Hgraph. cbn [mbind option_bind].
  do 2 eexists. split; [reflexivity|].
  cbn [stats_files_reparsed stats_files_reused].
  assert (Hall : List.filter (fun entry : (string * string) * (Analysis * bool) =>
                                entry.2.2) (zip files outcomes2)
                 = zip files outcomes2).
  { assert (Htrue : Forall (fun entry : (string * string) * (Analysis * bool) =>
                              entry.2.2 = true) (zip files outcomes2)).
    { apply Forall_forall. intros [file [a r]] Hin.
      apply elem_of_zip_r in Hin. unfold outcomes2 in Hin.
      apply list_elem_of_fmap in Hin as (o & [= _ ->] & _). done. }
    by apply filter_all. }
  rewrite Hall in Hreused2. rewrite length_zip in Hreused2, Hsum2.
  split; [lia|]. split; [lia|]. split; [apply with_byte_hashes_fixed|].
  intros ->. apply Forall_forall. intros record Hin.
  assert (Hfiles : graph_files g0 = files_payload).
  { unfold build_graph in Hg0.
    destruct (compute_impact _ _ _ _) as [impact|]; [|done].
    cbn [mbind option_bind] in Hg0. by injection Hg0 as <-. }
  rewrite Hfiles in Hin.
  destruct (file_record_origin _ _ _ _ Hrecords Hin) as (a & Ha & -> & ->).
  unfold analyses in Ha. apply sorted_by_elem in Ha. rewrite Han in Ha.
  apply list_elem_of_fmap in Ha as ([[rel abs] [a' reused]] & -> & Hin').
  cbn [fst snd]. apply list_elem_of_lookup in Hin' as [i Hi].
  rewrite lookup_zip_with in Hi.
  destruct (files !! i) as [file|] eqn:Hfile; [|done]. cbn in Hi.
  destruct (outcomes !! i) as [outcome|] eqn:Houtcome; [|done]. cbn in Hi.
  injection Hi as -> ->.
  apply mapM_Some_1 in Hm.
  pose proof (Forall2_lookup_lr _ _ _ _ _ _ Hm Hfile Houtcome) as Hcollect.
  assert (Hresolved : resolve abs = abs).
  { apply (proj1 (Forall_forall _ _) Hres (rel, abs)).
    apply list_elem_of_lookup. eauto. }
  destruct (collect_first _ _ _ _ _ _ Hresolved Hcollect) as (-> & _ & Hhash & Hfull).
  apply Hhash, Hfull. done.
Qed.

End Rebuild.

(** Stand-ins for [read_text] and for the scan of the parser's dump. *)
Definition sample_text (abs_path : string) : string := "text of " +:+ abs_path.

Definition sample_atoms (abs_path : string) : option ParsedAtoms :=
  Some (mkParsedAtoms []
          [mkSymbol (abs_path +:+ "::global::f()::L1") "f" "f()" "function" 0 "global"
             "internal" abs_path 1]
          [] [] []).

(** After a full build of the two sample files, whose text hashes are not
    the hashes of their bytes, the rebuild reuses both and returns the
    graph with the byte hashes, which is another graph. *)
Lemma rebuild_of_unchanged_files_witness :
  exists g1 stats1 saved1 stats2 saved2,
    indexer_build id id sample_sha sample_text id sample_atoms false None
      (mkCache None None None ∅) sample_files first_env = Some (g1, stats1, saved1)
    /\ indexer_build id id sample_sha sample_text id sample_atoms true
         (Some (normalize_graph g1)) saved1 sample_files second_env
       = Some (with_byte_hashes sample_sha g1, stats2, saved2)
    /\ stats_files_reparsed stats2 = 0
    /\ with_byte_hashes sample_sha g1 <> g1.
Proof.
  destruct (indexer_build id id sample_sha sample_text id sample_atoms false None
              (mkCache None None None ∅) sample_files first_env)
    as [[[g1 stats1] saved1]|] eqn:Hbuild; [|vm_compute in Hbuild; discriminate].
  destruct (rebuild_of_unchanged_files id id sample_sha sample_text id sample_atoms
              false None (mkCache None None None ∅) sample_files
              first_env second_env g1 stats1 saved1 (normalize_graph g1))
    as (stats2 & saved2 & Hagain & Hreparsed & _ & Hsame & Htext).
  - apply (bool_decide_unpack _). vm_compute. exact I.
  - repeat constructor.
  - exact Hbuild.
  - reflexivity.
  - reflexivity.
  - reflexivity.
  - exists g1, stats1, saved1, stats2, saved2.
    split; [reflexivity|]. split; [exact Hagain|]. split; [exact Hreparsed|].
    intros Heq. apply Hsame in Heq. specialize (Htext eq_refl).
    vm_compute in Hbuild. injection Hbuild as <- _ _.
    apply Forall_cons in Heq as [Heq _]. apply Forall_cons in Htext as [Htext _].
    rewrite Htext in Heq. vm_compute in Heq. discriminate.
Defined.
